(** * Go concurrency patterns: worker pool, context cancellation, ring buffer

    A shallow embedding of the goroutine programs of the repository: the
    worker pools of TestWorkerPoolPattern (examples_test.go) and
    TestWorkerPool, the ring-buffer forwarders of TestRingBuffer and
    BenchmarkRingBuffer (benchmark_test.go), and [sleepAndTalk] with the
    default [main] of 16-context/main.go.

    Every goroutine is a small program counter; a channel is a FIFO
    buffer with a capacity and a closed flag; a program is an
    interleaving step function [step : state -> action -> outcome state]
    in which one action runs one statement of one goroutine, and an
    execution is a list of such scheduler choices.  A statement that
    cannot proceed is [Blocked]; a send on, or a second close of, a
    closed channel is a [Panic].  On a channel with nothing queued a
    sender and a parked receiver meet directly, which is the only way
    through an unbuffered channel.  Fields marked "history" record what
    happened and are never read by the program. *)

From Stdlib Require Import ZArith List Bool Lia Permutation Arith.
From Stdlib Require String.
Import ListNotations.
Import String.StringSyntax.
Local Open Scope string_scope.
Local Open Scope list_scope.

Set Implicit Arguments.

(** ** What one goroutine step can do *)

Inductive outcome (A : Type) : Type :=
| Next (a : A)          (* the statement ran *)
| Blocked               (* the goroutine is parked, or has returned *)
| Panic (msg : String.string). (* run-time panic: the process dies *)

Arguments Blocked {A}.
Arguments Panic {A} msg.

(** Sequencing: a blocked or panicking statement stops the goroutine's
    step. *)
Definition obind {A B} (o : outcome A) (k : A -> outcome B) : outcome B :=
  match o with
  | Next a => k a
  | Blocked => Blocked
  | Panic m => Panic m
  end.

Notation "x <- o ;; k" := (obind o (fun x => k))
  (at level 61, o at next level, right associativity).

(** Go's [int] on the 64-bit targets: two's complement wrap-around. *)
Definition wrap64 (z : Z) : Z := ((z + 2 ^ 63) mod 2 ^ 64 - 2 ^ 63)%Z.

(** [job * 2] in the worker bodies. *)
Definition double (job : Z) : Z := wrap64 (job * 2).

(** ** Lists updated by index *)

Fixpoint update {A} (i : nat) (x : A) (l : list A) : list A :=
  match l, i with
  | [], _ => []
  | _ :: t, O => x :: t
  | h :: t, S k => h :: update k x t
  end.

(** ** Channels *)

Module Chan.

Record chan : Type := mkChan {
  buf : list Z;     (* queued elements, oldest first *)
  cap : nat;        (* make(chan int, cap) *)
  closed : bool
}.

Definition make (n : nat) : chan := mkChan [] n false.

(** [c <- v] when no receiver is parked on [c]. *)
Definition send (c : chan) (v : Z) : outcome chan :=
  if closed c then Panic "send on closed channel"
  else if length (buf c) <? cap c
       then Next (mkChan (buf c ++ [v]) (cap c) false)
       else Blocked.

(** [v, ok := <-c] when no sender is parked on [c]. *)
Definition recv (c : chan) : outcome (option Z * chan) :=
  match buf c with
  | v :: rest => Next (Some v, mkChan rest (cap c) (closed c))
  | [] => if closed c then Next (None, c) else Blocked
  end.

(** [close(c)]. *)
Definition close (c : chan) : outcome chan :=
  if closed c then Panic "close of closed channel"
  else Next (mkChan (buf c) (cap c) true).

(** A sender meeting a parked receiver hands its value over directly;
    a receiver only parks on an open channel with nothing queued. *)
Definition rendezvous (c : chan) : bool :=
  negb (closed c) && match buf c with [] => true | _ => false end.

End Chan.

(** ** The worker pool of TestWorkerPoolPattern / TestWorkerPool /
       BenchmarkWorkerPool *)

Module Pool.

Import Chan.

(** [for job := range jobs { results <- job * 2 }] under
    [defer wg.Done()]. *)
Inductive worker : Type :=
| WRange              (* at [range jobs] *)
| WSend (job : Z)     (* at [results <- job * 2] *)
| WDefer              (* loop left, [wg.Done()] pending *)
| WGone.              (* returned *)

(** [go func() { wg.Wait(); close(results) }()]. *)
Inductive closer_pc : Type :=
| CWait               (* at [wg.Wait()] *)
| CClose              (* at [close(results)] *)
| CGone.

Record config : Type := mkConfig {
  numWorkers : nat;
  jobList : list Z;     (* the values sent, in order *)
  capJobs : nat;
  capResults : nat;
  inlineSend : bool     (* TestWorkerPool: the test function itself sends
                           the jobs and closes the intake, and only then
                           starts the closer and ranges over results *)
}.

Record state : Type := mkState {
  jobs : chan;
  results : chan;
  pending : list Z;       (* sender: values not yet sent *)
  sender_done : bool;     (* sender: [close(jobs)] has run *)
  workers : list worker;
  wg : nat;               (* sync.WaitGroup counter *)
  closer : closer_pc;
  collected : list Z;     (* collector: results in arrival order *)
  drained : bool;         (* collector: [range results] has ended *)
  delivered : list (nat * Z); (* history: (worker, job) per dequeue *)
  closes : nat;           (* history: executions of [close(results)] *)
  gathering : bool        (* the closer has been started and the
                             collector has reached [range results] *)
}.

(** The state once the workers have been started: [wg.Add(1)] ran once
    per worker before the [go] statement of the closer.  With a sending
    goroutine (TestWorkerPoolPattern, the benchmarks) the closer and the
    collector are there from the start; with [inlineSend] they wait for
    the test function to get past [close(jobs)]. *)
Definition init (cfg : config) : state :=
  mkState (make (capJobs cfg)) (make (capResults cfg))
          (jobList cfg) false
          (repeat WRange (numWorkers cfg)) (numWorkers cfg)
          CWait [] false [] 0 (negb (inlineSend cfg)).

Inductive action : Type :=
| ASender                 (* the sending goroutine runs one statement *)
| AWorker (i : nat)       (* worker [i] runs one statement *)
| ACloser
| ACollector
| AHandJob (i : nat)      (* sender hands a job to parked worker [i] *)
| AHandResult (i : nat).  (* worker [i] hands a result to the parked
                             collector *)

Definition set_jobs (c : chan) (s : state) : state :=
  mkState c (results s) (pending s) (sender_done s) (workers s) (wg s)
          (closer s) (collected s) (drained s) (delivered s) (closes s)
          (gathering s).

Definition set_results (c : chan) (s : state) : state :=
  mkState (jobs s) c (pending s) (sender_done s) (workers s) (wg s)
          (closer s) (collected s) (drained s) (delivered s) (closes s)
          (gathering s).

Definition set_pending (p : list Z) (s : state) : state :=
  mkState (jobs s) (results s) p (sender_done s) (workers s) (wg s)
          (closer s) (collected s) (drained s) (delivered s) (closes s)
          (gathering s).

(** Past [close(jobs)]; with [inlineSend] the test function goes on to
    start the closer and to range over results. *)
Definition set_sender_done (s : state) : state :=
  mkState (jobs s) (results s) (pending s) true (workers s) (wg s)
          (closer s) (collected s) (drained s) (delivered s) (closes s)
          true.

Definition set_worker (i : nat) (w : worker) (s : state) : state :=
  mkState (jobs s) (results s) (pending s) (sender_done s)
          (update i w (workers s)) (wg s) (closer s) (collected s)
          (drained s) (delivered s) (closes s) (gathering s).

Definition set_wg (n : nat) (s : state) : state :=
  mkState (jobs s) (results s) (pending s) (sender_done s) (workers s) n
          (closer s) (collected s) (drained s) (delivered s) (closes s)
          (gathering s).

Definition set_closer (c : closer_pc) (s : state) : state :=
  mkState (jobs s) (results s) (pending s) (sender_done s) (workers s)
          (wg s) c (collected s) (drained s) (delivered s) (closes s)
          (gathering s).

Definition collect (r : Z) (s : state) : state :=
  mkState (jobs s) (results s) (pending s) (sender_done s) (workers s)
          (wg s) (closer s) (collected s ++ [r]) (drained s) (delivered s)
          (closes s) (gathering s).

Definition set_drained (s : state) : state :=
  mkState (jobs s) (results s) (pending s) (sender_done s) (workers s)
          (wg s) (closer s) (collected s) true (delivered s) (closes s)
          (gathering s).

Definition log_delivery (i : nat) (job : Z) (s : state) : state :=
  mkState (jobs s) (results s) (pending s) (sender_done s) (workers s)
          (wg s) (closer s) (collected s) (drained s)
          (delivered s ++ [(i, job)]) (closes s) (gathering s).

Definition log_close (s : state) : state :=
  mkState (jobs s) (results s) (pending s) (sender_done s) (workers s)
          (wg s) (closer s) (collected s) (drained s) (delivered s)
          (S (closes s)) (gathering s).

(** [jobs <- j]: the Submit of the pool. *)
Definition submit (j : Z) (s : state) : outcome state :=
  c <- send (jobs s) j ;; Next (set_jobs c s).

(** [close(jobs)]: the CloseIntake of the pool. *)
Definition close_intake (s : state) : outcome state :=
  c <- close (jobs s) ;; Next (set_jobs c s).

(** The sending goroutine:
    [defer close(jobs); for j := ... { jobs <- j }]. *)
Definition step_sender (s : state) : outcome state :=
  if sender_done s then Blocked
  else match pending s with
       | j :: rest => s' <- submit j s ;; Next (set_pending rest s')
       | [] => s' <- close_intake s ;; Next (set_sender_done s')
       end.

Definition step_worker (i : nat) (s : state) : outcome state :=
  match nth_error (workers s) i with
  | None => Blocked
  | Some WRange =>
      r <- recv (jobs s) ;;
      match r with
      | (Some job, c) =>
          Next (log_delivery i job (set_worker i (WSend job) (set_jobs c s)))
      | (None, _) => Next (set_worker i WDefer s)
      end
  | Some (WSend job) =>
      c <- send (results s) (double job) ;;
      Next (set_worker i WRange (set_results c s))
  | Some WDefer =>
      match wg s with
      | O => Panic "sync: negative WaitGroup counter"
      | S n => Next (set_worker i WGone (set_wg n s))
      end
  | Some WGone => Blocked
  end.

Definition step_closer (s : state) : outcome state :=
  if negb (gathering s) then Blocked else
  match closer s with
  | CWait => if wg s =? 0 then Next (set_closer CClose s) else Blocked
  | CClose =>
      c <- close (results s) ;;
      Next (log_close (set_closer CGone (set_results c s)))
  | CGone => Blocked
  end.

(** [for result := range results { ... }]. *)
Definition step_collector (s : state) : outcome state :=
  if negb (gathering s) || drained s then Blocked
  else r <- recv (results s) ;;
       match r with
       | (Some v, c) => Next (collect v (set_results c s))
       | (None, _) => Next (set_drained s)
       end.

Definition step_hand_job (i : nat) (s : state) : outcome state :=
  if sender_done s then Blocked
  else match pending s, nth_error (workers s) i with
       | j :: rest, Some WRange =>
           if rendezvous (jobs s)
           then Next (log_delivery i j
                        (set_worker i (WSend j) (set_pending rest s)))
           else Blocked
       | _, _ => Blocked
       end.

Definition step_hand_result (i : nat) (s : state) : outcome state :=
  match nth_error (workers s) i with
  | Some (WSend job) =>
      if gathering s && negb (drained s) && rendezvous (results s)
      then Next (collect (double job) (set_worker i WRange s))
      else Blocked
  | _ => Blocked
  end.

Definition step (s : state) (a : action) : outcome state :=
  match a with
  | ASender => step_sender s
  | AWorker i => step_worker i s
  | ACloser => step_closer s
  | ACollector => step_collector s
  | AHandJob i => step_hand_job i s
  | AHandResult i => step_hand_result i s
  end.

(** Running a schedule. *)
Fixpoint exec (s : state) (tr : list action) : outcome state :=
  match tr with
  | [] => Next s
  | a :: tr' => s' <- step s a ;; exec s' tr'
  end.

(** A deterministic scheduler, to run the pool: first enabled action
    in a fixed order. *)
Definition candidates (s : state) : list action :=
  ACollector :: ACloser :: ASender ::
  map AWorker (seq 0 (length (workers s))) ++
  map AHandJob (seq 0 (length (workers s))) ++
  map AHandResult (seq 0 (length (workers s))).

Fixpoint first_enabled (s : state) (l : list action)
  : option (action * state) :=
  match l with
  | [] => None
  | a :: l' =>
      match step s a with
      | Next s' => Some (a, s')
      | _ => first_enabled s l'
      end
  end.

Fixpoint run (fuel : nat) (s : state) : state :=
  match fuel with
  | O => s
  | S k => match first_enabled s (candidates s) with
           | Some (_, s') => run k s'
           | None => s
           end
  end.

Fixpoint schedule (fuel : nat) (s : state) : list action :=
  match fuel with
  | O => []
  | S k => match first_enabled s (candidates s) with
           | Some (a, s') => a :: schedule k s'
           | None => []
           end
  end.

(** TestWorkerPool: jobs 1..10, three workers, both channels of
    capacity 10. *)
Definition test_config : config :=
  mkConfig 3 [1;2;3;4;5;6;7;8;9;10]%Z 10 10 true.

(** The same with a sending goroutine, as in TestWorkerPoolPattern. *)
Definition pattern_config : config :=
  mkConfig 3 [1;2;3;4;5;6;7;8;9;10]%Z 10 10 false.

(** Jobs 1..5, two workers, capacities 2 and 2. *)
Definition small_config : config := mkConfig 2 [1;2;3;4;5]%Z 2 2 false.

(** Unbuffered channels: every transfer is a rendezvous. *)
Definition unbuffered_config : config := mkConfig 2 [7;8;9]%Z 0 0 false.

(** A pool whose sender has nothing to send and closes the intake at
    once. *)
Definition idle_config : config := mkConfig 1 [] 1 1 false.

(** A call that comes back to its caller with a state to go on from,
    the intake left as it was: what a recoverable error result is. *)
Definition recoverable (s : state) (o : outcome state) : Prop :=
  exists s', o = Next s' /\ jobs s' = jobs s.

(** One complete schedule of each, as picked by [schedule]. *)
Definition test_trace : list action :=
  Eval vm_compute in schedule 200 (init test_config).

Definition small_trace : list action :=
  Eval vm_compute in schedule 200 (init small_config).

Definition unbuffered_trace : list action :=
  Eval vm_compute in schedule 200 (init unbuffered_config).

(** A schedule of [small_config] on which the second worker overtakes
    the first. *)
Definition overtaking_trace : list action :=
  Eval vm_compute in
    let start := [ASender; ASender; AWorker 0; AWorker 1; AWorker 1;
                  AWorker 0] in
    match exec (init small_config) start with
    | Next s => start ++ schedule 200 s
    | _ => []
    end.

(** The outtake has been closed between [s] and [s']. *)
Definition closes_outtake (s s' : state) : Prop :=
  closed (results s) = false /\ closed (results s') = true.

(** *** Bookkeeping used by the correctness statements *)

Definition active (w : worker) : nat :=
  match w with WGone => 0 | _ => 1 end.

Definition held (w : worker) : list Z :=
  match w with WSend job => [job] | _ => [] end.

Definition left_loop (w : worker) : bool :=
  match w with WDefer | WGone => true | _ => false end.

(** Statements still to run, counted so that every step consumes some. *)
Definition weight (w : worker) : nat :=
  match w with WRange => 2 | WSend _ => 4 | WDefer => 1 | WGone => 0 end.

Definition closer_weight (c : closer_pc) : nat :=
  match c with CWait => 2 | CClose => 1 | CGone => 0 end.

Definition measure (s : state) : nat :=
  4 * length (pending s) + 3 * length (buf (jobs s))
  + list_sum (map weight (workers s)) + length (buf (results s))
  + (if sender_done s then 0 else 1) + closer_weight (closer s)
  + (if drained s then 0 else 1).

(** The pool-level Closed state: every worker has returned, the outtake
    is closed and the collector has seen the end of the stream. *)
Definition pool_closed (s : state) : Prop :=
  Forall (fun w => w = WGone) (workers s)
  /\ closer s = CGone
  /\ closed (results s) = true
  /\ drained s = true.

(** [abandon] is the licence for a worker to leave its loop while jobs
    remain: [False] for the programs of the test files, whose workers
    only leave through the closed and empty intake. *)
Record Inv (abandon : Prop) (cfg : config) (s : state) : Prop := mkInv {
  inv_len : length (workers s) = numWorkers cfg;
  inv_wg : wg s = list_sum (map active (workers s));
  inv_closer : closer s <> CWait -> wg s = 0;
  inv_results_closed :
    closed (results s) = match closer s with CGone => true | _ => false end;
  inv_closes : closes s = if closed (results s) then 1 else 0;
  inv_jobs_closed : closed (jobs s) = sender_done s;
  inv_sender_done : sender_done s = true -> pending s = [];
  inv_left : forall w, In w (workers s) -> left_loop w = true ->
             abandon \/ (closed (jobs s) = true /\ buf (jobs s) = []);
  inv_fifo : map snd (delivered s) ++ buf (jobs s) ++ pending s
             = jobList cfg;
  inv_flow : Permutation
               (collected s ++ buf (results s)
                ++ map double (flat_map held (workers s)))
               (map double (map snd (delivered s)));
  inv_drained : drained s = true ->
                closed (results s) = true /\ buf (results s) = [];
  inv_caps : cap (jobs s) = capJobs cfg /\ cap (results s) = capResults cfg;
  inv_bounds : (capJobs cfg > 0 -> length (buf (jobs s)) <= capJobs cfg)
               /\ (capResults cfg > 0 ->
                   length (buf (results s)) <= capResults cfg);
  inv_who : forall w j, In (w, j) (delivered s) -> w < numWorkers cfg;
  inv_gathering : gathering s = false ->
                  inlineSend cfg = true /\ sender_done s = false
                  /\ closer s = CWait /\ drained s = false
}.

End Pool.

(** ** Contexts: [context.WithCancel], [context.WithTimeout] *)

Module Ctx.

Inductive error : Type := Canceled | DeadlineExceeded.

Definition error_string (e : error) : String.string :=
  match e with
  | Canceled => "context canceled"
  | DeadlineExceeded => "context deadline exceeded"
  end.

(** [err] is [ctx.Err()]; [ctx.Done()] is closed exactly when it is set. *)
Record ctx : Type := mkCtx { err : option error }.

Definition background : ctx := mkCtx None.

(** The cancel function and the deadline timer of a context: the first
    call stores its cause, later calls find the context cancelled and
    return. *)
Definition cancel_with (e : error) (c : ctx) : ctx :=
  match err c with
  | Some _ => c
  | None => mkCtx (Some e)
  end.

Definition cancel : ctx -> ctx := cancel_with Canceled.

Definition done (c : ctx) : bool :=
  match err c with Some _ => true | None => false end.

(** What [log.Println(ctx.Err())] prints. *)
Definition err_line (c : ctx) : String.string :=
  match err c with Some e => error_string e | None => "<nil>" end.

End Ctx.

(** ** 16-context/main.go: [sleepAndTalk] and the default [main] *)

Module Talk.

(** Durations are nanoseconds, as in [time.Duration]. *)
Definition second : Z := 1000000000.

(** Instants are counted from the moment [time.After(d)] is evaluated,
    as the [select] is entered.

    The life of the context handed to [sleepAndTalk]: the instant its
    [Done] channel is closed, by the cancel function or the deadline
    (negative: before that moment), and with which cause; [None]:
    never. *)
Definition life : Type := option (Z * Ctx.error).

Definition ctx_at (l : life) (now : Z) : Ctx.ctx :=
  match l with
  | Some (t, e) =>
      if (t <=? now)%Z then Ctx.cancel_with e Ctx.background
      else Ctx.background
  | None => Ctx.background
  end.

Inductive select_case : Type := CaseTimer | CaseDone.

(** What the run time adds in one run; it is never early, a negative
    entry counts as zero.  [look]: the time between the arming of the
    timer and the moment the goroutine looks at the channels of its
    [select], which is after the channel expressions have been
    evaluated.  [timer]: the time between [d] having elapsed and the
    timer's channel being ready. *)
Record lateness : Type := mkLate {
  look : Z;
  timer : Z
}.

Definition on_time : lateness := mkLate 0 0.

(** [time.After(d)]: ready once [d] has elapsed, a non-positive [d] at
    once. *)
Definition timer_fires (d : Z) (w : lateness) : Z :=
  (Z.max 0 d + Z.max 0 (timer w))%Z.

Definition polls (w : lateness) : Z := Z.max 0 (look w).

(** The first instant one of the two channels is ready. *)
Definition first_ready (l : life) (d : Z) (w : lateness) : Z :=
  match l with
  | Some (t, _) => Z.min (timer_fires d w) t
  | None => timer_fires d w
  end.

(** The instant the [select] takes a case: at its first look when a
    channel is ready by then, otherwise it waits for the first one to
    become ready. *)
Definition wake (l : life) (d : Z) (w : lateness) : Z :=
  Z.max (polls w) (first_ready l d w).

(** The cases that can proceed at that instant; [select] takes any one
    of them. *)
Definition can_proceed (l : life) (d : Z) (w : lateness)
  : list select_case :=
  (if (timer_fires d w <=? wake l d w)%Z then [CaseTimer] else [])
  ++ (if Ctx.done (ctx_at l (wake l d w)) then [CaseDone] else []).

Definition run_case (l : life) (d : Z) (w : lateness)
           (msg : String.string) (c : select_case) : list String.string :=
  match c with
  | CaseTimer => [msg]
  | CaseDone => [Ctx.err_line (ctx_at l (wake l d w))]
  end.

(** Every log [sleepAndTalk] can write. *)
Definition sleepAndTalk (l : life) (d : Z) (w : lateness)
           (msg : String.string) : list (list String.string) :=
  map (run_case l d w msg) (can_proceed l d w).

(** [main]: the server and client paths live in other files; the
    default path logs "started", arms [time.AfterFunc(time.Second,
    cancel)] and calls [sleepAndTalk(ctx, 5*time.Second, "hello")].
    The cancel function runs [second + skew] after the timer inside the
    call is armed: that timer is armed after the one of the cancel
    function ([skew] negative), and the cancel function can run late
    ([skew] positive). *)
Definition main (args : list String.string) (skew : Z) (w : lateness)
  : option (list (list String.string)) :=
  let default :=
    Some (map (cons "started")
              (sleepAndTalk (Some (second + skew, Ctx.Canceled)%Z)
                            (5 * second)%Z w "hello")) in
  match args with
  | _ :: a :: _ =>
      if String.eqb a "server" then None
      else if String.eqb a "client" then None
      else default
  | _ => default
  end.

(** "ctx is cancelled before d elapses". *)
Definition cancelled_before (l : life) (d : Z) : Prop :=
  exists t e, l = Some (t, e) /\ (t < d)%Z.

(** The two-branch reading: cancelled before [d] elapses, only
    [ctx.Err()] is logged, never the message; otherwise the message,
    once. *)
Definition two_branches (l : life) (d : Z) (w : lateness)
           (msg : String.string) : Prop :=
  forall log, In log (sleepAndTalk l d w msg) ->
    (cancelled_before l d ->
       log = [Ctx.err_line (ctx_at l (wake l d w))] /\ ~ In msg log)
    /\ (~ cancelled_before l d -> log = [msg]).

End Talk.

(** ** The pool with the cancellation overlay *)

Module CancelPool.

Import Chan.

Record state : Type := mkState {
  pool : Pool.state;
  token : Ctx.ctx      (* the cancellation token *)
}.

Definition init (cfg : Pool.config) : state :=
  mkState (Pool.init cfg) Ctx.background.

Inductive action : Type :=
| ACancel
| APool (a : Pool.action).

(** Modelled from the spec: Cancel (sections 4.5 and 6); the pools of the
    test files have no cancellation.  It triggers the write-once token. *)
Definition cancel (s : state) : state :=
  mkState (pool s) (Ctx.cancel (token s)).

Definition lift (s : state) (o : outcome Pool.state) : outcome state :=
  p <- o ;; Next (mkState p (token s)).

(** Modelled from the spec: the cancellable Worker loop (sections 4.2,
    4.5 and 9); the workers of the test files only range over the
    intake.  The token is a poll point checked between Jobs: a Worker
    about to dequeue that finds it set leaves its loop and takes nothing
    more from the intake; a Worker holding a Job finishes it. *)
Definition step_worker (i : nat) (s : state) : outcome state :=
  match nth_error (Pool.workers (pool s)) i with
  | Some Pool.WRange =>
      if Ctx.done (token s)
      then Next (mkState (Pool.set_worker i Pool.WDefer (pool s)) (token s))
      else lift s (Pool.step_worker i (pool s))
  | _ => lift s (Pool.step_worker i (pool s))
  end.

(** Modelled from the spec: the pool under the cancellation overlay
    (section 5), which the test files do not have.  Everything but the
    dequeue goes on as in the pool without it; with the token set no Job
    is handed to a Worker any more. *)
Definition step (s : state) (a : action) : outcome state :=
  match a with
  | ACancel => Next (cancel s)
  | APool (Pool.AWorker i) => step_worker i s
  | APool (Pool.AHandJob i) =>
      if Ctx.done (token s) then Blocked
      else lift s (Pool.step_hand_job i (pool s))
  | APool a => lift s (Pool.step (pool s) a)
  end.

Fixpoint exec (s : state) (tr : list action) : outcome state :=
  match tr with
  | [] => Next s
  | a :: tr' => s' <- step s a ;; exec s' tr'
  end.

Definition is_pool_action (a : action) : bool :=
  match a with APool _ => true | ACancel => false end.

Definition candidates (s : state) : list action :=
  map APool (Pool.candidates (pool s)).

Fixpoint first_enabled (s : state) (l : list action)
  : option (action * state) :=
  match l with
  | [] => None
  | a :: l' =>
      match step s a with
      | Next s' => Some (a, s')
      | _ => first_enabled s l'
      end
  end.

Fixpoint schedule (fuel : nat) (s : state) : list action :=
  match fuel with
  | O => []
  | S k => match first_enabled s (candidates s) with
           | Some (a, s') => a :: schedule k s'
           | None => []
           end
  end.

Definition pool_closed (s : state) : Prop := Pool.pool_closed (pool s).

Fixpoint run (fuel : nat) (s : state) : state :=
  match fuel with
  | O => s
  | S k => match first_enabled s (candidates s) with
           | Some (_, s') => run k s'
           | None => s
           end
  end.

(** Ten Jobs submitted to an intake that holds them all, nothing
    dequeued yet. *)
Definition ten_submitted : list action :=
  repeat (APool Pool.ASender) 10.

Definition after_ten : state :=
  Eval vm_compute in
    match exec (init Pool.pattern_config) ten_submitted with
    | Next s => s
    | _ => init Pool.pattern_config
    end.

Definition after_cancel_trace : list action :=
  Eval vm_compute in schedule 200 (cancel after_ten).

Definition Inv (cfg : Pool.config) (s : state) : Prop :=
  Pool.Inv (Ctx.done (token s) = true) cfg (pool s).

End CancelPool.

(** ** The ring-buffer forwarder of TestRingBuffer and BenchmarkRingBuffer *)

Module Ring.

Import Chan.

(** The two copies of the forwarder differ in how the full buffer is
    emptied and in how the producer sends. *)
Inductive variant : Type :=
| TestVariant    (* TestRingBuffer: [<-outCh], blocking producer *)
| BenchVariant.  (* BenchmarkRingBuffer: [select { case <-outCh: default: }],
                    producer that drops when [inCh] is full *)

Record config : Type := mkConfig {
  which : variant;
  input : list Z;    (* what the producer offers, in order *)
  capIn : nat;
  capOut : nat;
  stopAfter : option nat  (* the consumer's [if count >= n { break }] *)
}.

(** [defer close(outCh); for v := range inCh { select { case outCh <- v:
    default: ...; outCh <- v } }]. *)
Inductive forwarder : Type :=
| FRange            (* at [range inCh] *)
| FSelect (v : Z)   (* at [select { case outCh <- v: default: }] *)
| FEvict (v : Z)    (* in [default]: about to remove the oldest *)
| FPut (v : Z)      (* in [default]: at the final [outCh <- v] *)
| FClose            (* loop left, [close(outCh)] pending *)
| FGone.

Record state : Type := mkState {
  inCh : chan;
  outCh : chan;
  offered : list Z;       (* producer: values not yet offered *)
  producer_done : bool;   (* producer: [close(inCh)] has run *)
  fw : forwarder;
  received : list Z;      (* consumer: values in arrival order *)
  consumer_done : bool;
  dropped : list Z;       (* history: values the producer dropped *)
  evicted : list Z        (* history: values the forwarder removed *)
}.

Definition init (cfg : config) : state :=
  mkState (make (capIn cfg)) (make (capOut cfg)) (input cfg) false
          FRange [] false [] [].

Inductive action : Type :=
| AProducer
| AForwarder
| AConsumer
| AHandIn.     (* producer hands a value to the parked forwarder *)

Definition set_in (c : chan) (s : state) : state :=
  mkState c (outCh s) (offered s) (producer_done s) (fw s) (received s)
          (consumer_done s) (dropped s) (evicted s).

Definition set_out (c : chan) (s : state) : state :=
  mkState (inCh s) c (offered s) (producer_done s) (fw s) (received s)
          (consumer_done s) (dropped s) (evicted s).

Definition set_offered (l : list Z) (s : state) : state :=
  mkState (inCh s) (outCh s) l (producer_done s) (fw s) (received s)
          (consumer_done s) (dropped s) (evicted s).

Definition set_producer_done (s : state) : state :=
  mkState (inCh s) (outCh s) (offered s) true (fw s) (received s)
          (consumer_done s) (dropped s) (evicted s).

Definition set_fw (f : forwarder) (s : state) : state :=
  mkState (inCh s) (outCh s) (offered s) (producer_done s) f (received s)
          (consumer_done s) (dropped s) (evicted s).

Definition receive (v : Z) (s : state) : state :=
  mkState (inCh s) (outCh s) (offered s) (producer_done s) (fw s)
          (received s ++ [v]) (consumer_done s) (dropped s) (evicted s).

Definition set_consumer_done (s : state) : state :=
  mkState (inCh s) (outCh s) (offered s) (producer_done s) (fw s)
          (received s) true (dropped s) (evicted s).

Definition log_drop (v : Z) (s : state) : state :=
  mkState (inCh s) (outCh s) (offered s) (producer_done s) (fw s)
          (received s) (consumer_done s) (dropped s ++ [v]) (evicted s).

Definition log_evict (v : Z) (s : state) : state :=
  mkState (inCh s) (outCh s) (offered s) (producer_done s) (fw s)
          (received s) (consumer_done s) (dropped s) (evicted s ++ [v]).

(** The producer: [defer close(inCh)] and, per value, [inCh <- i]
    (TestVariant) or [select { case inCh <- j: default: }]
    (BenchVariant). *)
Definition step_producer (v : variant) (s : state) : outcome state :=
  if producer_done s then Blocked
  else match offered s with
       | x :: rest =>
           match send (inCh s) x, v with
           | Next c, _ => Next (set_offered rest (set_in c s))
           | Blocked, TestVariant => Blocked
           | Blocked, BenchVariant => Next (log_drop x (set_offered rest s))
           | Panic m, _ => Panic m
           end
       | [] => c <- close (inCh s) ;; Next (set_producer_done (set_in c s))
       end.

Definition step_hand_in (s : state) : outcome state :=
  if producer_done s then Blocked
  else match offered s, fw s with
       | x :: rest, FRange =>
           if rendezvous (inCh s)
           then Next (set_fw (FSelect x) (set_offered rest s))
           else Blocked
       | _, _ => Blocked
       end.

Definition step_forwarder (v : variant) (s : state) : outcome state :=
  match fw s with
  | FRange =>
      r <- recv (inCh s) ;;
      match r with
      | (Some x, c) => Next (set_fw (FSelect x) (set_in c s))
      | (None, _) => Next (set_fw FClose s)
      end
  | FSelect x =>
      match send (outCh s) x with
      | Next c => Next (set_fw FRange (set_out c s))
      | Blocked => Next (set_fw (FEvict x) s)
      | Panic m => Panic m
      end
  | FEvict x =>
      match recv (outCh s), v with
      | Next (Some old, c), _ =>
          Next (log_evict old (set_fw (FPut x) (set_out c s)))
      | Next (None, _), _ => Next (set_fw (FPut x) s)
      | Blocked, TestVariant => Blocked
      | Blocked, BenchVariant => Next (set_fw (FPut x) s)
      | Panic m, _ => Panic m
      end
  | FPut x =>
      c <- send (outCh s) x ;; Next (set_fw FRange (set_out c s))
  | FClose => c <- close (outCh s) ;; Next (set_fw FGone (set_out c s))
  | FGone => Blocked
  end.

Definition reached (limit : option nat) (count : nat) : bool :=
  match limit with Some n => n <=? count | None => false end.

(** The consumer: [for result := range outCh { ... }], in the benchmark
    with [count++; if count >= 10 { break }]. *)
Definition step_consumer (limit : option nat) (s : state) : outcome state :=
  if consumer_done s then Blocked
  else r <- recv (outCh s) ;;
       match r with
       | (Some x, c) =>
           let s' := receive x (set_out c s) in
           Next (if reached limit (length (received s'))
                 then set_consumer_done s' else s')
       | (None, _) => Next (set_consumer_done s)
       end.

Definition step (cfg : config) (s : state) (a : action) : outcome state :=
  match a with
  | AProducer => step_producer (which cfg) s
  | AForwarder => step_forwarder (which cfg) s
  | AConsumer => step_consumer (stopAfter cfg) s
  | AHandIn => step_hand_in s
  end.

Fixpoint exec (cfg : config) (s : state) (tr : list action)
  : outcome state :=
  match tr with
  | [] => Next s
  | a :: tr' => s' <- step cfg s a ;; exec cfg s' tr'
  end.

(** TestRingBuffer: unbuffered [inCh], [outCh] of capacity 3, the
    values 0..9, a consumer that ranges to the end. *)
Definition test_config : config :=
  mkConfig TestVariant [0;1;2;3;4;5;6;7;8;9]%Z 0 3 None.

(** BenchmarkRingBuffer/RingBuffer_Small. *)
Definition bench_config : config :=
  mkConfig BenchVariant [0;1;2;3;4;5;6;7;8;9]%Z 1 4 (Some 10).

(** A schedule of TestRingBuffer: the forwarder fills [outCh] with 0, 1
    and 2 and finds it full for 3; the consumer then takes all three
    before the forwarder reaches its [<-outCh]. *)
Definition starving_trace : list action :=
  [AHandIn; AForwarder; AHandIn; AForwarder; AHandIn; AForwarder;
   AHandIn; AForwarder; AConsumer; AConsumer; AConsumer].

(** The same schedule on the benchmark's copy, whose producer goes
    through the buffered [inCh], followed by the forwarder's next two
    steps. *)
Definition bench_trace : list action :=
  [AProducer; AForwarder; AForwarder; AProducer; AForwarder; AForwarder;
   AProducer; AForwarder; AForwarder; AProducer; AForwarder; AForwarder;
   AProducer; AForwarder; AForwarder;
   AConsumer; AConsumer; AConsumer; AConsumer; AForwarder; AForwarder].

Definition measure (s : state) : nat :=
  6 * length (offered s) + 5 * length (buf (inCh s))
  + (if producer_done s then 0 else 1)
  + match fw s with
    | FRange => 2 | FSelect _ => 6 | FEvict _ => 5 | FPut _ => 4
    | FClose => 1 | FGone => 0
    end
  + length (buf (outCh s))
  + (if consumer_done s then 0 else 1).

(** What holds of both copies throughout, [outCh] being buffered. *)
Record Inv (cfg : config) (s : state) : Prop := mkInv {
  inv_cap : cap (outCh s) = capOut cfg;
  inv_bound : length (buf (outCh s)) <= capOut cfg;
  inv_room : forall v, fw s = FPut v -> length (buf (outCh s)) < capOut cfg;
  inv_out_closed :
    closed (outCh s) = match fw s with FGone => true | _ => false end;
  inv_in_closed : closed (inCh s) = producer_done s;
  inv_left : fw s = FClose \/ fw s = FGone ->
             closed (inCh s) = true /\ buf (inCh s) = []
}.

(** Nothing can run although the forwarder has not returned. *)
Definition deadlocked (cfg : config) (s : state) : Prop :=
  fw s <> FGone /\ forall a, step cfg s a = Blocked.

End Ring.

(** ** The fan-in of TestFanIn, TestFanInPattern and
       BenchmarkFanInPattern/SimpleFanIn *)

Module FanIn.

Import Chan.

(** One input channel with its producer.  [prefilled]: the test function
    has sent the values and closed the channel before calling [fanIn]
    (TestFanIn); otherwise a goroutine sends them and closes
    (the benchmark, the generators of TestFanInPattern). *)
Record lane_config : Type := mkLaneConfig {
  src : list Z;
  laneCap : nat;
  prefilled : bool
}.

(** [go func(ch <-chan int) { defer wg.Done(); for val := range ch
    { out <- val } }(input)]. *)
Inductive forwarder : Type :=
| LRange             (* at [range ch] *)
| LSend (val : Z)    (* at [out <- val] *)
| LDefer             (* loop left, [wg.Done()] pending *)
| LGone.

Record lane : Type := mkLane {
  input : chan;
  feed : list Z;       (* producer: values not yet sent *)
  fed : bool;          (* producer: [close] has run *)
  fwd : forwarder
}.

Inductive closer_pc : Type := CWait | CClose | CGone.

Record state : Type := mkState {
  lanes : list lane;
  outClosed : bool;            (* [out], made by [make(chan int)]:
                                  unbuffered, it never holds a value,
                                  and a send completes only together
                                  with a receive ([AHandOut]) *)
  wg : nat;
  closer : closer_pc;          (* [wg.Wait(); close(out)] *)
  merged : list (nat * Z);     (* consumer: values in arrival order,
                                  with the lane they came through as
                                  history *)
  finished : bool              (* consumer: [range merged] has ended *)
}.

(** The set-up of TestFanIn, run by the test function before it calls
    [fanIn]: [ch := make(chan int, cap); ch <- v1; ch <- v2; close(ch)].
    Nobody receives yet, so a send that finds the buffer full waits for
    ever and [fanIn] is never called. *)
Fixpoint fill (c : chan) (vs : list Z) : outcome chan :=
  match vs with
  | [] => Next c
  | v :: rest => c' <- send c v ;; fill c' rest
  end.

Definition prefill (c : lane_config) : outcome chan :=
  ch <- fill (make (laneCap c)) (src c) ;; close ch.

(** The set-up of an input comes through: a pre-filled channel is given
    no more values than it can hold. *)
Definition fits (c : lane_config) : bool :=
  negb (prefilled c) || (length (src c) <=? laneCap c).

(** An input as [fanIn] finds it: pre-filled, the channel [prefill]
    leaves when the values fit, closed and holding them; otherwise an
    empty channel with its producer about to start. *)
Definition init_lane (c : lane_config) : lane :=
  if prefilled c
  then mkLane (mkChan (src c) (laneCap c) true) [] true LRange
  else mkLane (make (laneCap c)) (src c) false LRange.

(** After [fanIn] has returned: one forwarder per input, [wg.Add(1)]
    before each, and the closer. *)
Definition init (cfg : list lane_config) : state :=
  mkState (map init_lane cfg) false (length cfg) CWait [] false.

Inductive action : Type :=
| AFeed (i : nat)      (* producer [i] runs one statement *)
| AHandIn (i : nat)    (* producer [i] hands a value to its parked
                          forwarder *)
| AForward (i : nat)   (* forwarder [i] runs one statement *)
| AHandOut (i : nat)   (* forwarder [i] hands its value to the consumer *)
| ACloser
| AConsumer.

Definition set_lane (i : nat) (l : lane) (s : state) : state :=
  mkState (update i l (lanes s)) (outClosed s) (wg s) (closer s) (merged s)
          (finished s).

Definition close_out (s : state) : state :=
  mkState (lanes s) true (wg s) (closer s) (merged s) (finished s).

Definition set_wg (n : nat) (s : state) : state :=
  mkState (lanes s) (outClosed s) n (closer s) (merged s) (finished s).

Definition set_closer (c : closer_pc) (s : state) : state :=
  mkState (lanes s) (outClosed s) (wg s) c (merged s) (finished s).

Definition take (i : nat) (v : Z) (s : state) : state :=
  mkState (lanes s) (outClosed s) (wg s) (closer s) (merged s ++ [(i, v)])
          (finished s).

Definition set_finished (s : state) : state :=
  mkState (lanes s) (outClosed s) (wg s) (closer s) (merged s) true.

(** A producer goroutine: [defer close(c); for ... { c <- k }]. *)
Definition step_feed (i : nat) (s : state) : outcome state :=
  match nth_error (lanes s) i with
  | None => Blocked
  | Some l =>
      if fed l then Blocked
      else match feed l with
           | v :: rest =>
               c <- send (input l) v ;;
               Next (set_lane i (mkLane c rest false (fwd l)) s)
           | [] =>
               c <- close (input l) ;;
               Next (set_lane i (mkLane c [] true (fwd l)) s)
           end
  end.

Definition step_hand_in (i : nat) (s : state) : outcome state :=
  match nth_error (lanes s) i with
  | None => Blocked
  | Some l =>
      if fed l then Blocked
      else match feed l, fwd l with
           | v :: rest, LRange =>
               if rendezvous (input l)
               then Next (set_lane i (mkLane (input l) rest false (LSend v)) s)
               else Blocked
           | _, _ => Blocked
           end
  end.

Definition step_forward (i : nat) (s : state) : outcome state :=
  match nth_error (lanes s) i with
  | None => Blocked
  | Some l =>
      match fwd l with
      | LRange =>
          r <- recv (input l) ;;
          match r with
          | (Some v, c) =>
              Next (set_lane i (mkLane c (feed l) (fed l) (LSend v)) s)
          | (None, _) =>
              Next (set_lane i (mkLane (input l) (feed l) (fed l) LDefer) s)
          end
      | LSend v =>
          (* no receiver here: the send waits, or finds [out] closed *)
          if outClosed s then Panic "send on closed channel" else Blocked
      | LDefer =>
          match wg s with
          | O => Panic "sync: negative WaitGroup counter"
          | S n =>
              Next (set_lane i (mkLane (input l) (feed l) (fed l) LGone)
                      (set_wg n s))
          end
      | LGone => Blocked
      end
  end.

Definition step_hand_out (i : nat) (s : state) : outcome state :=
  match nth_error (lanes s) i with
  | Some l =>
      match fwd l with
      | LSend v =>
          if negb (finished s) && negb (outClosed s)
          then Next (take i v
                       (set_lane i (mkLane (input l) (feed l) (fed l) LRange)
                          s))
          else Blocked
      | _ => Blocked
      end
  | None => Blocked
  end.

Definition step_closer (s : state) : outcome state :=
  match closer s with
  | CWait => if wg s =? 0 then Next (set_closer CClose s) else Blocked
  | CClose =>
      if outClosed s then Panic "close of closed channel"
      else Next (set_closer CGone (close_out s))
  | CGone => Blocked
  end.

(** [for val := range merged { ... }]: alone, the consumer can only see
    [out] closed. *)
Definition step_consumer (s : state) : outcome state :=
  if finished s then Blocked
  else if outClosed s then Next (set_finished s) else Blocked.

Definition step (s : state) (a : action) : outcome state :=
  match a with
  | AFeed i => step_feed i s
  | AHandIn i => step_hand_in i s
  | AForward i => step_forward i s
  | AHandOut i => step_hand_out i s
  | ACloser => step_closer s
  | AConsumer => step_consumer s
  end.

Fixpoint exec (s : state) (tr : list action) : outcome state :=
  match tr with
  | [] => Next s
  | a :: tr' => s' <- step s a ;; exec s' tr'
  end.

(** What the consumer received through lane [i], in arrival order. *)
Definition through (i : nat) (m : list (nat * Z)) : list Z :=
  map snd (filter (fun p => fst p =? i) m).

(** The values received, as the program sees them. *)
Definition values (s : state) : list Z := map snd (merged s).

Definition candidates (s : state) : list action :=
  AConsumer :: ACloser ::
  map AForward (seq 0 (length (lanes s))) ++
  map AHandOut (seq 0 (length (lanes s))) ++
  map AFeed (seq 0 (length (lanes s))) ++
  map AHandIn (seq 0 (length (lanes s))).

Fixpoint first_enabled (s : state) (l : list action)
  : option (action * state) :=
  match l with
  | [] => None
  | a :: l' =>
      match step s a with
      | Next s' => Some (a, s')
      | _ => first_enabled s l'
      end
  end.

Fixpoint run (fuel : nat) (s : state) : state :=
  match fuel with
  | O => s
  | S k => match first_enabled s (candidates s) with
           | Some (_, s') => run k s'
           | None => s
           end
  end.

Fixpoint schedule (fuel : nat) (s : state) : list action :=
  match fuel with
  | O => []
  | S k => match first_enabled s (candidates s) with
           | Some (a, s') => a :: schedule k s'
           | None => []
           end
  end.

(** TestFanIn: [ch1] holds 1, 2 and [ch2] holds 3, 4, both closed. *)
Definition test_config : list lane_config :=
  [mkLaneConfig [1; 2]%Z 2 true; mkLaneConfig [3; 4]%Z 2 true].

(** Two producer goroutines on unbuffered channels, as the generators of
    TestFanInPattern. *)
Definition generators_config : list lane_config :=
  [mkLaneConfig [10; 11; 12]%Z 0 false; mkLaneConfig [20; 21; 22]%Z 0 false].

Definition test_trace : list action :=
  Eval vm_compute in schedule 200 (init test_config).

Definition generators_trace : list action :=
  Eval vm_compute in schedule 200 (init generators_config).

Definition active (l : lane) : nat :=
  match fwd l with LGone => 0 | _ => 1 end.

Definition held (l : lane) : list Z :=
  match fwd l with LSend v => [v] | _ => [] end.

Definition left_loop (l : lane) : bool :=
  match fwd l with LDefer | LGone => true | _ => false end.

Definition lane_weight (l : lane) : nat :=
  4 * length (feed l) + 3 * length (buf (input l))
  + (if fed l then 0 else 1)
  + match fwd l with LRange => 2 | LSend _ => 4 | LDefer => 1 | LGone => 0 end.

Definition measure (s : state) : nat :=
  list_sum (map lane_weight (lanes s))
  + match closer s with CWait => 2 | CClose => 1 | CGone => 0 end
  + (if finished s then 0 else 1).

(** What lane [i] keeps: its channel is closed exactly when its producer
    is through; a forwarder out of its loop has seen the channel closed
    and empty; and the values received through the lane, the one the
    forwarder holds, those queued and those still to send are the
    lane's values, in order. *)
Record lane_ok (i : nat) (c : lane_config) (l : lane)
       (m : list (nat * Z)) : Prop := mkLaneOk {
  lane_closed : closed (input l) = fed l;
  lane_fed : fed l = true -> feed l = [];
  lane_left : left_loop l = true -> closed (input l) = true
                                    /\ buf (input l) = [];
  lane_order : through i m ++ held l ++ buf (input l) ++ feed l = src c
}.

Record Inv (cfg : list lane_config) (s : state) : Prop := mkInv {
  inv_lanes : length (lanes s) = length cfg;
  inv_lane : forall i c l, nth_error cfg i = Some c ->
             nth_error (lanes s) i = Some l -> lane_ok i c l (merged s);
  inv_wg : wg s = list_sum (map active (lanes s));
  inv_closer : closer s <> CWait -> wg s = 0;
  inv_out : outClosed s
            = match closer s with CGone => true | _ => false end;
  inv_finished : finished s = true -> outClosed s = true;
  inv_tags : forall i v, In (i, v) (merged s) -> i < length cfg
}.

Definition fan_closed (s : state) : Prop :=
  Forall (fun l => fwd l = LGone) (lanes s)
  /\ closer s = CGone /\ outClosed s = true /\ finished s = true.

End FanIn.

(** ** BenchmarkWorkerPool: [workFunc] and the single worker *)

Module Stage.

Import Chan.

(** [sum := 0; for i := 0; i < n; i++ { sum += i }; return sum] on
    64-bit integers. *)
Definition workFunc (n : Z) : Z :=
  fold_left (fun sum i => wrap64 (sum + i))
            (map Z.of_nat (seq 0 (Z.to_nat n))) 0%Z.

Record config : Type := mkConfig {
  jobList : list Z;
  capJobs : nat;
  capResults : nat
}.

(** [go func() { defer close(results); for job := range jobs
    { results <- workFunc(job) } }()]. *)
Inductive worker : Type :=
| SRange            (* at [range jobs] *)
| SSend (val : Z)   (* at [results <- val], [val] being [workFunc(job)] *)
| SClose            (* loop left, [close(results)] pending *)
| SGone.

Record state : Type := mkState {
  jobs : chan;
  results : chan;
  pending : list Z;       (* sender: jobs not yet sent *)
  sender_done : bool;     (* sender: [close(jobs)] has run *)
  wk : worker;
  collected : list Z;     (* consumer: results in arrival order *)
  drained : bool          (* consumer: [range results] has ended *)
}.

Definition init (cfg : config) : state :=
  mkState (make (capJobs cfg)) (make (capResults cfg)) (jobList cfg) false
          SRange [] false.

Inductive action : Type :=
| ASender
| AHandJob       (* sender hands a job to the parked worker *)
| AWorker
| AHandResult    (* worker hands a result to the parked consumer *)
| ACollector.

(** [defer close(jobs); for j := 0; j < 100; j++ { jobs <- j + 1 }]. *)
Definition step_sender (s : state) : outcome state :=
  if sender_done s then Blocked
  else match pending s with
       | j :: rest =>
           c <- send (jobs s) j ;;
           Next (mkState c (results s) rest false (wk s) (collected s)
                         (drained s))
       | [] =>
           c <- close (jobs s) ;;
           Next (mkState c (results s) [] true (wk s) (collected s)
                         (drained s))
       end.

Definition step_hand_job (s : state) : outcome state :=
  if sender_done s then Blocked
  else match pending s, wk s with
       | j :: rest, SRange =>
           if rendezvous (jobs s)
           then Next (mkState (jobs s) (results s) rest false
                              (SSend (workFunc j)) (collected s) (drained s))
           else Blocked
       | _, _ => Blocked
       end.

Definition step_worker (s : state) : outcome state :=
  match wk s with
  | SRange =>
      r <- recv (jobs s) ;;
      match r with
      | (Some j, c) =>
          Next (mkState c (results s) (pending s) (sender_done s)
                        (SSend (workFunc j)) (collected s) (drained s))
      | (None, _) =>
          Next (mkState (jobs s) (results s) (pending s) (sender_done s)
                        SClose (collected s) (drained s))
      end
  | SSend v =>
      c <- send (results s) v ;;
      Next (mkState (jobs s) c (pending s) (sender_done s) SRange
                    (collected s) (drained s))
  | SClose =>
      c <- close (results s) ;;
      Next (mkState (jobs s) c (pending s) (sender_done s) SGone
                    (collected s) (drained s))
  | SGone => Blocked
  end.

Definition step_hand_result (s : state) : outcome state :=
  match wk s with
  | SSend v =>
      if negb (drained s) && rendezvous (results s)
      then Next (mkState (jobs s) (results s) (pending s) (sender_done s)
                         SRange (collected s ++ [v]) (drained s))
      else Blocked
  | _ => Blocked
  end.

(** [for range results { }]. *)
Definition step_collector (s : state) : outcome state :=
  if drained s then Blocked
  else r <- recv (results s) ;;
       match r with
       | (Some v, c) =>
           Next (mkState (jobs s) c (pending s) (sender_done s) (wk s)
                         (collected s ++ [v]) false)
       | (None, _) =>
           Next (mkState (jobs s) (results s) (pending s) (sender_done s)
                         (wk s) (collected s) true)
       end.

Definition step (s : state) (a : action) : outcome state :=
  match a with
  | ASender => step_sender s
  | AHandJob => step_hand_job s
  | AWorker => step_worker s
  | AHandResult => step_hand_result s
  | ACollector => step_collector s
  end.

Fixpoint exec (s : state) (tr : list action) : outcome state :=
  match tr with
  | [] => Next s
  | a :: tr' => s' <- step s a ;; exec s' tr'
  end.

Definition candidates : list action :=
  [ACollector; AWorker; AHandResult; ASender; AHandJob].

Fixpoint first_enabled (s : state) (l : list action)
  : option (action * state) :=
  match l with
  | [] => None
  | a :: l' =>
      match step s a with
      | Next s' => Some (a, s')
      | _ => first_enabled s l'
      end
  end.

Fixpoint run (fuel : nat) (s : state) : state :=
  match fuel with
  | O => s
  | S k => match first_enabled s candidates with
           | Some (_, s') => run k s'
           | None => s
           end
  end.

Fixpoint schedule (fuel : nat) (s : state) : list action :=
  match fuel with
  | O => []
  | S k => match first_enabled s candidates with
           | Some (a, s') => a :: schedule k s'
           | None => []
           end
  end.

(** The benchmark's shape with six jobs and small buffers. *)
Definition small_config : config := mkConfig [1; 2; 3; 4; 5; 6]%Z 2 1.

Definition small_trace : list action :=
  Eval vm_compute in schedule 200 (init small_config).

Definition held (w : worker) : list Z :=
  match w with SSend v => [v] | _ => [] end.

Definition measure (s : state) : nat :=
  6 * length (pending s) + 5 * length (buf (jobs s))
  + (if sender_done s then 0 else 1)
  + match wk s with SRange => 2 | SSend _ => 4 | SClose => 1 | SGone => 0 end
  + length (buf (results s))
  + (if drained s then 0 else 1).

Record Inv (cfg : config) (s : state) : Prop := mkInv {
  inv_jobs_closed : closed (jobs s) = sender_done s;
  inv_sender_done : sender_done s = true -> pending s = [];
  inv_left : wk s = SClose \/ wk s = SGone ->
             closed (jobs s) = true /\ buf (jobs s) = [];
  inv_results_closed :
    closed (results s) = match wk s with SGone => true | _ => false end;
  inv_drained : drained s = true ->
                closed (results s) = true /\ buf (results s) = [];
  inv_flow : collected s ++ buf (results s) ++ held (wk s)
             ++ map workFunc (buf (jobs s) ++ pending s)
             = map workFunc (jobList cfg)
}.

End Stage.

(** ** One producer, one channel, one consumer: BenchmarkChannelTypes,
       BenchmarkBoringPattern/SingleProducerConsumer and
       BenchmarkRingBuffer/SimpleBufferedChannel *)

(** [l1] is [l2] with some elements left out, the order kept. *)
Inductive subseq {A : Type} : list A -> list A -> Prop :=
| sub_nil : subseq [] []
| sub_keep x l1 l2 : subseq l1 l2 -> subseq (x :: l1) (x :: l2)
| sub_skip x l1 l2 : subseq l1 l2 -> subseq l1 (x :: l2).

Module Pipe.

Import Chan.

Record config : Type := mkConfig {
  input : list Z;     (* what the producer sends, in order *)
  capacity : nat;
  dropping : bool     (* [select { case ch <- j: default: }] instead of
                         [ch <- j] *)
}.

Record state : Type := mkState {
  ch : chan;
  offered : list Z;        (* producer: values not yet offered *)
  producer_done : bool;    (* producer: [close(ch)] has run *)
  received : list Z;       (* consumer: values in arrival order *)
  consumer_done : bool;    (* consumer: [range ch] has ended *)
  dropped : list Z         (* history: values the producer dropped *)
}.

Definition init (cfg : config) : state :=
  mkState (make (capacity cfg)) (input cfg) false [] false [].

Inductive action : Type :=
| AProducer
| AHand        (* producer hands a value to the parked consumer *)
| AConsumer.

(** [defer close(ch); for j := ... { ch <- j }], or with the send in a
    [select] with an empty [default]. *)
Definition step_producer (drop : bool) (s : state) : outcome state :=
  if producer_done s then Blocked
  else match offered s with
       | x :: rest =>
           match send (ch s) x, drop with
           | Next c, _ =>
               Next (mkState c rest false (received s) (consumer_done s)
                             (dropped s))
           | Blocked, false => Blocked
           | Blocked, true =>
               Next (mkState (ch s) rest false (received s)
                             (consumer_done s) (dropped s ++ [x]))
           | Panic m, _ => Panic m
           end
       | [] =>
           c <- close (ch s) ;;
           Next (mkState c [] true (received s) (consumer_done s)
                         (dropped s))
       end.

Definition step_hand (s : state) : outcome state :=
  if producer_done s then Blocked
  else match offered s with
       | x :: rest =>
           if negb (consumer_done s) && rendezvous (ch s)
           then Next (mkState (ch s) rest false (received s ++ [x]) false
                              (dropped s))
           else Blocked
       | [] => Blocked
       end.

(** [for range ch { count++ }]. *)
Definition step_consumer (s : state) : outcome state :=
  if consumer_done s then Blocked
  else r <- recv (ch s) ;;
       match r with
       | (Some x, c) =>
           Next (mkState c (offered s) (producer_done s) (received s ++ [x])
                         false (dropped s))
       | (None, _) =>
           Next (mkState (ch s) (offered s) (producer_done s) (received s)
                         true (dropped s))
       end.

Definition step (cfg : config) (s : state) (a : action) : outcome state :=
  match a with
  | AProducer => step_producer (dropping cfg) s
  | AHand => step_hand s
  | AConsumer => step_consumer s
  end.

Fixpoint exec (cfg : config) (s : state) (tr : list action)
  : outcome state :=
  match tr with
  | [] => Next s
  | a :: tr' => s' <- step cfg s a ;; exec cfg s' tr'
  end.

(** A producer that runs as long as it can, then the consumer. *)
Definition eager : list action := [AProducer; AHand; AConsumer].

Fixpoint first_enabled (cfg : config) (s : state) (l : list action)
  : option (action * state) :=
  match l with
  | [] => None
  | a :: l' =>
      match step cfg s a with
      | Next s' => Some (a, s')
      | _ => first_enabled cfg s l'
      end
  end.

Fixpoint run (cfg : config) (fuel : nat) (s : state) : state :=
  match fuel with
  | O => s
  | S k => match first_enabled cfg s eager with
           | Some (_, s') => run cfg k s'
           | None => s
           end
  end.

Fixpoint schedule (cfg : config) (fuel : nat) (s : state) : list action :=
  match fuel with
  | O => []
  | S k => match first_enabled cfg s eager with
           | Some (a, s') => a :: schedule cfg k s'
           | None => []
           end
  end.

(** A blocking producer of five values through an unbuffered channel. *)
Definition blocking_config : config := mkConfig [0; 1; 2; 3; 4]%Z 0 false.

(** A dropping producer of five values into a buffer of two. *)
Definition dropping_config : config := mkConfig [0; 1; 2; 3; 4]%Z 2 true.

Definition blocking_trace : list action :=
  Eval vm_compute in schedule blocking_config 100 (init blocking_config).

Definition dropping_trace : list action :=
  Eval vm_compute in schedule dropping_config 100 (init dropping_config).

Definition measure (s : state) : nat :=
  3 * length (offered s) + 2 * length (buf (ch s))
  + (if producer_done s then 0 else 1)
  + (if consumer_done s then 0 else 1).

Record Inv (cfg : config) (s : state) : Prop := mkInv {
  inv_closed : closed (ch s) = producer_done s;
  inv_producer_done : producer_done s = true -> offered s = [];
  inv_consumer_done : consumer_done s = true ->
                      closed (ch s) = true /\ buf (ch s) = [];
  inv_order : subseq (received s ++ buf (ch s) ++ offered s) (input cfg);
  inv_account : Permutation
                  (received s ++ buf (ch s) ++ offered s ++ dropped s)
                  (input cfg);
  inv_blocking : dropping cfg = false ->
                 received s ++ buf (ch s) ++ offered s = input cfg;
  inv_cap : cap (ch s) = capacity cfg;
  inv_full : dropped s <> [] ->
             capacity cfg <= length (received s ++ buf (ch s))
}.

End Pipe.

(** ** What passes through the ring-buffer forwarder *)

Module RingFlow.

Import Chan Ring.

Definition held (f : forwarder) : list Z :=
  match f with
  | FSelect v | FEvict v | FPut v => [v]
  | _ => []
  end.

(** The values that are the consumer's or still on their way to it,
    oldest first. *)
Definition in_order (s : state) : list Z :=
  received s ++ buf (outCh s) ++ held (fw s) ++ buf (inCh s) ++ offered s.

(** How many values the forwarder has put into [outCh] and not taken
    back. *)
Definition passed (s : state) : nat :=
  length (received s) + length (buf (outCh s)).

Record Flow (cfg : config) (s : state) : Prop := mkFlow {
  flow_order : subseq (in_order s) (input cfg);
  flow_account :
    Permutation (in_order s ++ dropped s ++ evicted s) (input cfg);
  flow_test : which cfg = TestVariant -> dropped s = [];
  flow_producer_done : producer_done s = true -> offered s = [];
  flow_consumer_done :
    consumer_done s = true ->
    reached (stopAfter cfg) (length (received s)) = true
    \/ (closed (outCh s) = true /\ buf (outCh s) = []);
  flow_cap : cap (outCh s) = capOut cfg;
  flow_kept :
    match fw s with
    | FEvict _ => capOut cfg <= passed s
    | FPut _ => capOut cfg <= passed s + 1
    | _ => evicted s <> [] -> capOut cfg <= passed s
    end
}.

(** A schedule of TestRingBuffer on which the consumer lags: the
    forwarder buffers 0, 1 and 2, replaces the oldest element for each
    of 3..9, and the consumer starts when [outCh] has been closed. *)
Definition lagging_trace : list action :=
  concat (repeat [AHandIn; AForwarder] 3)
  ++ concat (repeat [AHandIn; AForwarder; AForwarder; AForwarder] 7)
  ++ [AProducer; AForwarder; AForwarder;
      AConsumer; AConsumer; AConsumer; AConsumer].

(** The benchmark's producer running ahead of its forwarder. *)
Definition hasty_trace : list action :=
  [AProducer; AProducer; AProducer; AForwarder; AForwarder; AProducer].

End RingFlow.

(** ** TestRaceCondition, "Concurrent counter with mutex" *)

Module Counter.

Record config : Type := mkConfig {
  numGoroutines : nat;
  incrementsPerGoroutine : nat
}.

(** [defer wg.Done(); for j := 0; j < incrementsPerGoroutine; j++
    { mu.Lock(); counter++; mu.Unlock() }], with [counter++] as the
    load and the store it is. *)
Inductive goroutine : Type :=
| GLoop (j : nat)             (* at the loop test, then [mu.Lock()] *)
| GLoad (j : nat)             (* lock held, about to read [counter] *)
| GStore (j : nat) (v : Z)    (* lock held, [v] read, about to write *)
| GUnlock (j : nat)           (* at [mu.Unlock()] *)
| GDefer                      (* loop left, [wg.Done()] pending *)
| GGone.

Record state : Type := mkState {
  goroutines : list goroutine;
  counter : Z;
  locked : bool;          (* [mu] *)
  wg : nat;
  waited : bool           (* the test function is past [wg.Wait()] *)
}.

Definition init (cfg : config) : state :=
  mkState (repeat (GLoop 0) (numGoroutines cfg)) 0%Z false
          (numGoroutines cfg) false.

Inductive action : Type :=
| AGo (i : nat)    (* goroutine [i] runs one statement *)
| AMain.           (* the test function's [wg.Wait()] *)

Definition set_goroutine (i : nat) (g : goroutine) (s : state) : state :=
  mkState (update i g (goroutines s)) (counter s) (locked s) (wg s)
          (waited s).

Definition step_go (cfg : config) (i : nat) (s : state) : outcome state :=
  match nth_error (goroutines s) i with
  | None => Blocked
  | Some g =>
      match g with
      | GLoop j =>
          if j <? incrementsPerGoroutine cfg
          then if locked s then Blocked
               else Next (mkState (update i (GLoad j) (goroutines s))
                                  (counter s) true (wg s) (waited s))
          else Next (set_goroutine i GDefer s)
      | GLoad j => Next (set_goroutine i (GStore j (counter s)) s)
      | GStore j v =>
          Next (mkState (update i (GUnlock j) (goroutines s))
                        (wrap64 (v + 1)) (locked s) (wg s) (waited s))
      | GUnlock j =>
          if locked s
          then Next (mkState (update i (GLoop (S j)) (goroutines s))
                             (counter s) false (wg s) (waited s))
          else Panic "sync: unlock of unlocked mutex"
      | GDefer =>
          match wg s with
          | O => Panic "sync: negative WaitGroup counter"
          | S n =>
              Next (mkState (update i GGone (goroutines s)) (counter s)
                            (locked s) n (waited s))
          end
      | GGone => Blocked
      end
  end.

Definition step_main (s : state) : outcome state :=
  if waited s then Blocked
  else if wg s =? 0
       then Next (mkState (goroutines s) (counter s) (locked s) (wg s) true)
       else Blocked.

Definition step (cfg : config) (s : state) (a : action) : outcome state :=
  match a with
  | AGo i => step_go cfg i s
  | AMain => step_main s
  end.

Fixpoint exec (cfg : config) (s : state) (tr : list action)
  : outcome state :=
  match tr with
  | [] => Next s
  | a :: tr' => s' <- step cfg s a ;; exec cfg s' tr'
  end.

(** The check after [wg.Wait()]: [counter != expected] fails the test. *)
Definition expected (cfg : config) : Z :=
  wrap64 (Z.of_nat (numGoroutines cfg) * Z.of_nat (incrementsPerGoroutine cfg)).

(** Round robin: the goroutines take turns, one statement each. *)
Definition candidates (cfg : config) (turn : nat) : list action :=
  map (fun k => AGo ((turn + k) mod (S (numGoroutines cfg))))
      (seq 0 (S (numGoroutines cfg)))
  ++ [AMain].

Fixpoint first_enabled (cfg : config) (s : state) (l : list action)
  : option (action * state) :=
  match l with
  | [] => None
  | a :: l' =>
      match step cfg s a with
      | Next s' => Some (a, s')
      | _ => first_enabled cfg s l'
      end
  end.

Fixpoint run (cfg : config) (fuel turn : nat) (s : state) : state :=
  match fuel with
  | O => s
  | S k => match first_enabled cfg s (candidates cfg turn) with
           | Some (_, s') => run cfg k (S turn) s'
           | None => s
           end
  end.

Fixpoint schedule (cfg : config) (fuel turn : nat) (s : state)
  : list action :=
  match fuel with
  | O => []
  | S k => match first_enabled cfg s (candidates cfg turn) with
           | Some (a, s') => a :: schedule cfg k (S turn) s'
           | None => []
           end
  end.

Definition small_config : config := mkConfig 3 2.

Definition small_trace : list action :=
  Eval vm_compute in schedule small_config 200 0 (init small_config).

Definition active (g : goroutine) : nat :=
  match g with GGone => 0 | _ => 1 end.

(** 1 for a goroutine between [mu.Lock()] and [mu.Unlock()]. *)
Definition holds (g : goroutine) : nat :=
  match g with GLoad _ | GStore _ _ | GUnlock _ => 1 | _ => 0 end.

(** The increments a goroutine has written. *)
Definition written (cfg : config) (g : goroutine) : nat :=
  match g with
  | GLoop j | GLoad j | GStore j _ => j
  | GUnlock j => S j
  | GDefer | GGone => incrementsPerGoroutine cfg
  end.

Definition weight (cfg : config) (g : goroutine) : nat :=
  match g with
  | GLoop j => 4 * (incrementsPerGoroutine cfg - j) + 2
  | GLoad j => 4 * (incrementsPerGoroutine cfg - S j) + 5
  | GStore j _ => 4 * (incrementsPerGoroutine cfg - S j) + 4
  | GUnlock j => 4 * (incrementsPerGoroutine cfg - S j) + 3
  | GDefer => 1
  | GGone => 0
  end.

Definition measure (cfg : config) (s : state) : nat :=
  list_sum (map (weight cfg) (goroutines s))
  + (if waited s then 0 else 1).

(** What one goroutine keeps: its loop variable stays within the bound,
    and the value it has read under the lock is the counter's. *)
Definition goroutine_ok (cfg : config) (c : Z) (g : goroutine) : Prop :=
  match g with
  | GLoop j => j <= incrementsPerGoroutine cfg
  | GLoad j | GUnlock j => j < incrementsPerGoroutine cfg
  | GStore j v => j < incrementsPerGoroutine cfg /\ v = c
  | GDefer | GGone => True
  end.

Record Inv (cfg : config) (s : state) : Prop := mkInv {
  inv_len : length (goroutines s) = numGoroutines cfg;
  inv_wg : wg s = list_sum (map active (goroutines s));
  inv_mutex : list_sum (map holds (goroutines s))
              = if locked s then 1 else 0;
  inv_counter : counter s
                = wrap64 (Z.of_nat
                            (list_sum (map (written cfg) (goroutines s))));
  inv_goroutine : forall i g, nth_error (goroutines s) i = Some g ->
                              goroutine_ok cfg (counter s) g;
  inv_waited : waited s = true -> wg s = 0
}.

End Counter.

(** ** TestChannelBasics, "Buffered Channel" *)

Module Basics.

Import Chan.

(** [ch <- v1; ch <- v2; ...], one goroutine, nobody receiving. *)
Fixpoint send_all (c : chan) (l : list Z) : outcome chan :=
  match l with
  | [] => Next c
  | v :: rest => c' <- send c v ;; send_all c' rest
  end.

(** [val := <-ch], [n] times, nobody sending; a closed and empty
    channel yields the zero value. *)
Fixpoint recv_n (c : chan) (n : nat) : outcome (list Z * chan) :=
  match n with
  | O => Next ([], c)
  | S k =>
      r <- recv c ;;
      let v := match fst r with Some v => v | None => 0%Z end in
      r' <- recv_n (snd r) k ;;
      Next (v :: fst r', snd r')
  end.

(** The subtest: fill a fresh channel, then read everything back. *)
Definition round_trip (capacity : nat) (l : list Z) : outcome (list Z) :=
  c <- send_all (make capacity) l ;;
  r <- recv_n c (length l) ;;
  Next (fst r).

End Basics.

(** ** TestContextPattern: the [sleepAndTalk] that returns an error *)

Module TalkTest.

(** [case <-time.After(d): return nil] and
    [case <-ctx.Done(): return ctx.Err()]. *)
Definition run_case (l : Talk.life) (d : Z) (w : Talk.lateness)
           (c : Talk.select_case) : option Ctx.error :=
  match c with
  | Talk.CaseTimer => None
  | Talk.CaseDone => Ctx.err (Talk.ctx_at l (Talk.wake l d w))
  end.

(** Every value the call can return. *)
Definition sleepAndTalk (l : Talk.life) (d : Z) (w : Talk.lateness)
           (msg : String.string) : list (option Ctx.error) :=
  map (run_case l d w) (Talk.can_proceed l d w).

Definition millisecond : Z := 1000000.

(** "Context cancellation": [time.AfterFunc(50*time.Millisecond,
    cancel)], then [sleepAndTalk(ctx, 100*time.Millisecond, "hello")].
    The cancel function runs [50ms + skew] after the timer inside the
    call is armed. *)
Definition cancellation_subtest (skew : Z) (w : Talk.lateness)
  : list (option Ctx.error) :=
  sleepAndTalk (Some (50 * millisecond + skew, Ctx.Canceled))%Z
               (100 * millisecond)%Z w "hello".

(** "Operation completes before cancellation":
    [time.AfterFunc(100*time.Millisecond, cancel)], then
    [sleepAndTalk(ctx, 50*time.Millisecond, "hello")]; the deferred
    [cancel()] runs after the call has returned. *)
Definition completion_subtest (skew : Z) (w : Talk.lateness)
  : list (option Ctx.error) :=
  sleepAndTalk (Some (100 * millisecond + skew, Ctx.Canceled))%Z
               (50 * millisecond)%Z w "hello".

End TalkTest.

(** ** The worker pool, while it runs *)

Module PoolBounds.

Import Chan.

(** Neither queue holds more than its capacity. *)
Definition within_capacity (s : Pool.state) : Prop :=
  length (buf (Pool.jobs s)) <= cap (Pool.jobs s)
  /\ length (buf (Pool.results s)) <= cap (Pool.results s).

End PoolBounds.

(** ** Many senders into one channel: TestRaceCondition, "Channel-based
       synchronization", and BenchmarkBoringPattern/MultipleProducers *)

Module Gather.

Import Chan.

Record config : Type := mkConfig {
  numSenders : nat;
  messagesPerSender : nat;
  capacity : nat;
  inlineWait : bool   (* the test function itself runs
                         [wg.Wait(); close(ch)] and ranges over [ch]
                         afterwards (TestRaceCondition); otherwise a
                         goroutine does, and the consumer ranges
                         meanwhile (MultipleProducers) *)
}.

(** [senderID*messagesPerSender + j], on 64-bit integers. *)
Definition message (cfg : config) (senderID j : nat) : Z :=
  wrap64 (wrap64 (Z.of_nat senderID * Z.of_nat (messagesPerSender cfg))
          + Z.of_nat j).

(** [go func(senderID int) { defer wg.Done(); for j := 0;
    j < messagesPerSender; j++ { ch <- ... } }(i)]. *)
Inductive sender_pc : Type :=
| PLoop (j : nat)    (* at the loop test, then [ch <- ...] *)
| PDefer             (* loop left, [wg.Done()] pending *)
| PGone.

Record sender : Type := mkSender {
  senderID : nat;
  pc : sender_pc
}.

Inductive closer_pc : Type := CWait | CClose | CGone.

Record state : Type := mkState {
  senders : list sender;
  ch : chan;
  wg : nat;
  closer : closer_pc;     (* [wg.Wait(); close(ch)] *)
  received : list Z;      (* consumer: messages in arrival order *)
  finished : bool         (* consumer: [range ch] has ended *)
}.

Definition init (cfg : config) : state :=
  mkState (map (fun i => mkSender i (PLoop 0)) (seq 0 (numSenders cfg)))
          (make (capacity cfg)) (numSenders cfg) CWait [] false.

(** The consumer's [range ch] is running: from the start next to a
    closer goroutine, after [close(ch)] in the test function. *)
Definition ranging (cfg : config) (s : state) : bool :=
  negb (inlineWait cfg)
  || match closer s with CGone => true | _ => false end.

Inductive action : Type :=
| ASender (i : nat)
| AHand (i : nat)     (* sender [i] hands a message to the parked
                         consumer *)
| ACloser
| AConsumer.

Definition step_sender (cfg : config) (i : nat) (s : state)
  : outcome state :=
  match nth_error (senders s) i with
  | None => Blocked
  | Some p =>
      match pc p with
      | PLoop j =>
          if j <? messagesPerSender cfg
          then c <- send (ch s) (message cfg (senderID p) j) ;;
               Next (mkState
                       (update i (mkSender (senderID p) (PLoop (S j)))
                               (senders s))
                       c (wg s) (closer s) (received s) (finished s))
          else Next (mkState
                       (update i (mkSender (senderID p) PDefer) (senders s))
                       (ch s) (wg s) (closer s) (received s) (finished s))
      | PDefer =>
          match wg s with
          | O => Panic "sync: negative WaitGroup counter"
          | S n =>
              Next (mkState
                      (update i (mkSender (senderID p) PGone) (senders s))
                      (ch s) n (closer s) (received s) (finished s))
          end
      | PGone => Blocked
      end
  end.

Definition step_hand (cfg : config) (i : nat) (s : state) : outcome state :=
  match nth_error (senders s) i with
  | None => Blocked
  | Some p =>
      match pc p with
      | PLoop j =>
          if (j <? messagesPerSender cfg) && ranging cfg s
             && negb (finished s) && rendezvous (ch s)
          then Next (mkState
                       (update i (mkSender (senderID p) (PLoop (S j)))
                               (senders s))
                       (ch s) (wg s) (closer s)
                       (received s ++ [message cfg (senderID p) j])
                       (finished s))
          else Blocked
      | _ => Blocked
      end
  end.

Definition step_closer (s : state) : outcome state :=
  match closer s with
  | CWait =>
      if wg s =? 0
      then Next (mkState (senders s) (ch s) (wg s) CClose (received s)
                         (finished s))
      else Blocked
  | CClose =>
      c <- close (ch s) ;;
      Next (mkState (senders s) c (wg s) CGone (received s) (finished s))
  | CGone => Blocked
  end.

(** [for msg := range ch { received[msg] = true }]. *)
Definition step_consumer (cfg : config) (s : state) : outcome state :=
  if negb (ranging cfg s) || finished s then Blocked
  else r <- recv (ch s) ;;
       match r with
       | (Some v, c) =>
           Next (mkState (senders s) c (wg s) (closer s) (received s ++ [v])
                         false)
       | (None, _) =>
           Next (mkState (senders s) (ch s) (wg s) (closer s) (received s)
                         true)
       end.

Definition step (cfg : config) (s : state) (a : action) : outcome state :=
  match a with
  | ASender i => step_sender cfg i s
  | AHand i => step_hand cfg i s
  | ACloser => step_closer s
  | AConsumer => step_consumer cfg s
  end.

Fixpoint exec (cfg : config) (s : state) (tr : list action)
  : outcome state :=
  match tr with
  | [] => Next s
  | a :: tr' => s' <- step cfg s a ;; exec cfg s' tr'
  end.

(** Round robin over the senders, then closer and consumer. *)
Definition candidates (cfg : config) (turn : nat) : list action :=
  map (fun k => ASender ((turn + k) mod (S (numSenders cfg))))
      (seq 0 (S (numSenders cfg)))
  ++ map AHand (seq 0 (numSenders cfg))
  ++ [ACloser; AConsumer].

Fixpoint first_enabled (cfg : config) (s : state) (l : list action)
  : option (action * state) :=
  match l with
  | [] => None
  | a :: l' =>
      match step cfg s a with
      | Next s' => Some (a, s')
      | _ => first_enabled cfg s l'
      end
  end.

Fixpoint run (cfg : config) (fuel turn : nat) (s : state) : state :=
  match fuel with
  | O => s
  | S k => match first_enabled cfg s (candidates cfg turn) with
           | Some (_, s') => run cfg k (S turn) s'
           | None => s
           end
  end.

Fixpoint schedule (cfg : config) (fuel turn : nat) (s : state)
  : list action :=
  match fuel with
  | O => []
  | S k => match first_enabled cfg s (candidates cfg turn) with
           | Some (a, s') => a :: schedule cfg k (S turn) s'
           | None => []
           end
  end.

(** The test's shape, three senders of two messages: the channel holds
    all six. *)
Definition test_config : config := mkConfig 3 2 6 true.

(** The same with a channel of four. *)
Definition tight_config : config := mkConfig 3 2 4 true.

(** The benchmark's shape: a closer goroutine, a small channel. *)
Definition bench_config : config := mkConfig 3 2 1 false.

Definition test_trace : list action :=
  Eval vm_compute in schedule test_config 200 0 (init test_config).

Definition tight_trace : list action :=
  Eval vm_compute in schedule tight_config 200 0 (init tight_config).

Definition bench_trace : list action :=
  Eval vm_compute in schedule bench_config 200 0 (init bench_config).

(** Every message of every sender, sender by sender. *)
Definition all_messages (cfg : config) : list Z :=
  flat_map (fun i => map (message cfg i) (seq 0 (messagesPerSender cfg)))
           (seq 0 (numSenders cfg)).

Definition active (p : sender) : nat :=
  match pc p with PGone => 0 | _ => 1 end.

(** How many messages a sender has sent. *)
Definition progress (cfg : config) (p : sender) : nat :=
  match pc p with
  | PLoop j => j
  | PDefer | PGone => messagesPerSender cfg
  end.

Definition sent (cfg : config) (p : sender) : list Z :=
  map (message cfg (senderID p)) (seq 0 (progress cfg p)).

Definition weight (cfg : config) (p : sender) : nat :=
  match pc p with
  | PLoop j => 2 * (messagesPerSender cfg - j) + 2
  | PDefer => 1
  | PGone => 0
  end.

Definition measure (cfg : config) (s : state) : nat :=
  list_sum (map (weight cfg) (senders s)) + length (buf (ch s))
  + match closer s with CWait => 2 | CClose => 1 | CGone => 0 end
  + (if finished s then 0 else 1).

Record Inv (cfg : config) (s : state) : Prop := mkInv {
  inv_ids : map senderID (senders s) = seq 0 (numSenders cfg);
  inv_wg : wg s = list_sum (map active (senders s));
  inv_closer : closer s <> CWait -> wg s = 0;
  inv_closed :
    closed (ch s) = match closer s with CGone => true | _ => false end;
  inv_cap : cap (ch s) = capacity cfg;
  inv_room : length (buf (ch s)) <= capacity cfg;
  inv_flow : Permutation (received s ++ buf (ch s))
                         (flat_map (sent cfg) (senders s));
  inv_bound : forall i p, nth_error (senders s) i = Some p ->
                          progress cfg p <= messagesPerSender cfg;
  inv_finished : finished s = true ->
                 closed (ch s) = true /\ buf (ch s) = [];
  inv_idle : ranging cfg s = false -> received s = []
}.

(** Every action that can be enabled at all. *)
Definition all_actions (cfg : config) : list action :=
  map ASender (seq 0 (numSenders cfg)) ++ map AHand (seq 0 (numSenders cfg))
  ++ [ACloser; AConsumer].

(** Nothing can run although the consumer's [range] has not ended. *)
Definition stuck (cfg : config) (s : state) : Prop :=
  finished s = false /\ forall a, step cfg s a = Blocked.

End Gather.

(** ** BenchmarkFanInPattern/SelectBasedFanIn: [fanInSelect] *)

Module SelectFanIn.

Import Chan.

Inductive side : Type := C1 | C2.

(** One input: its channel, its producer
    ([defer close(ch); for j ... { ch <- ... }]) and whether the merger
    has set its variable to [nil]. *)
Record source : Type := mkSource {
  input : chan;
  feed : list Z;       (* producer: values not yet sent *)
  fed : bool;          (* producer: [close] has run *)
  isNil : bool         (* merger: [c = nil] has run *)
}.

Record config : Type := mkConfig {
  src1 : list Z;
  src2 : list Z;
  cap1 : nat;
  cap2 : nat
}.

(** [defer close(out); for { select { ... }; if c1 == nil && c2 == nil
    { break } }]. *)
Inductive merger : Type :=
| MSelect                     (* at the [select] *)
| MSend (from : side) (val : Z)   (* at [out <- val] *)
| MCheck                      (* at [if c1 == nil && c2 == nil] *)
| MClose                      (* loop left, [close(out)] pending *)
| MGone.

Record state : Type := mkState {
  in1 : source;
  in2 : source;
  outClosed : bool;             (* [out], made by [make(chan int)]:
                                   unbuffered, it never holds a value,
                                   and a send completes only together
                                   with a receive ([AHandOut]) *)
  mg : merger;
  merged : list (side * Z);     (* consumer: values in arrival order,
                                   with the input they came from as
                                   history *)
  finished : bool               (* consumer: [range merged] has ended *)
}.

Definition init (cfg : config) : state :=
  mkState (mkSource (make (cap1 cfg)) (src1 cfg) false false)
          (mkSource (make (cap2 cfg)) (src2 cfg) false false)
          false MSelect [] false.

Definition get (d : side) (s : state) : source :=
  match d with C1 => in1 s | C2 => in2 s end.

Definition set (d : side) (x : source) (s : state) : state :=
  match d with
  | C1 => mkState x (in2 s) (outClosed s) (mg s) (merged s) (finished s)
  | C2 => mkState (in1 s) x (outClosed s) (mg s) (merged s) (finished s)
  end.

Definition set_mg (m : merger) (s : state) : state :=
  mkState (in1 s) (in2 s) (outClosed s) m (merged s) (finished s).

Definition close_out (s : state) : state :=
  mkState (in1 s) (in2 s) true (mg s) (merged s) (finished s).

Definition take (d : side) (v : Z) (s : state) : state :=
  mkState (in1 s) (in2 s) (outClosed s) (mg s) (merged s ++ [(d, v)])
          (finished s).

Definition set_finished (s : state) : state :=
  mkState (in1 s) (in2 s) (outClosed s) (mg s) (merged s) true.

Inductive action : Type :=
| AFeed (d : side)      (* producer [d] runs one statement *)
| AHandIn (d : side)    (* producer [d] hands a value to the merger
                           parked in its [select] *)
| ASelect (d : side)    (* the [select] takes the case of input [d] *)
| AMerger               (* the merger runs one other statement *)
| AHandOut              (* the merger hands its value to the consumer *)
| AConsumer.

Definition step_feed (d : side) (s : state) : outcome state :=
  let x := get d s in
  if fed x then Blocked
  else match feed x with
       | v :: rest =>
           c <- send (input x) v ;;
           Next (set d (mkSource c rest false (isNil x)) s)
       | [] =>
           c <- close (input x) ;;
           Next (set d (mkSource c [] true (isNil x)) s)
       end.

Definition step_hand_in (d : side) (s : state) : outcome state :=
  let x := get d s in
  if fed x || isNil x then Blocked
  else match feed x, mg s with
       | v :: rest, MSelect =>
           if rendezvous (input x)
           then Next (set_mg (MSend d v)
                        (set d (mkSource (input x) rest false false) s))
           else Blocked
       | _, _ => Blocked
       end.

(** [case val, ok := <-c: if !ok { c = nil } else { out <- val }]; a
    [nil] channel is never ready. *)
Definition step_select (d : side) (s : state) : outcome state :=
  let x := get d s in
  match mg s with
  | MSelect =>
      if isNil x then Blocked
      else r <- recv (input x) ;;
           match r with
           | (Some v, c) =>
               Next (set_mg (MSend d v)
                       (set d (mkSource c (feed x) (fed x) false) s))
           | (None, _) =>
               Next (set_mg MCheck
                       (set d (mkSource (input x) (feed x) (fed x) true) s))
           end
  | _ => Blocked
  end.

Definition step_merger (s : state) : outcome state :=
  match mg s with
  | MSelect => Blocked
  | MSend _ v =>
      (* no receiver here: the send waits, or finds [out] closed *)
      if outClosed s then Panic "send on closed channel" else Blocked
  | MCheck =>
      if isNil (in1 s) && isNil (in2 s)
      then Next (set_mg MClose s)
      else Next (set_mg MSelect s)
  | MClose =>
      if outClosed s then Panic "close of closed channel"
      else Next (set_mg MGone (close_out s))
  | MGone => Blocked
  end.

Definition step_hand_out (s : state) : outcome state :=
  match mg s with
  | MSend d v =>
      if negb (finished s) && negb (outClosed s)
      then Next (take d v (set_mg MCheck s))
      else Blocked
  | _ => Blocked
  end.

(** [for range merged { count++ }]: alone, the consumer can only see
    [out] closed. *)
Definition step_consumer (s : state) : outcome state :=
  if finished s then Blocked
  else if outClosed s then Next (set_finished s) else Blocked.

Definition step (s : state) (a : action) : outcome state :=
  match a with
  | AFeed d => step_feed d s
  | AHandIn d => step_hand_in d s
  | ASelect d => step_select d s
  | AMerger => step_merger s
  | AHandOut => step_hand_out s
  | AConsumer => step_consumer s
  end.

Fixpoint exec (s : state) (tr : list action) : outcome state :=
  match tr with
  | [] => Next s
  | a :: tr' => s' <- step s a ;; exec s' tr'
  end.

(** The [select] alternates its preference between the inputs. *)
Definition candidates (turn : nat) : list action :=
  [AConsumer; AHandOut; AMerger]
  ++ (if Nat.even turn then [ASelect C1; ASelect C2]
      else [ASelect C2; ASelect C1])
  ++ [AFeed C1; AFeed C2; AHandIn C1; AHandIn C2].

Fixpoint first_enabled (s : state) (l : list action)
  : option (action * state) :=
  match l with
  | [] => None
  | a :: l' =>
      match step s a with
      | Next s' => Some (a, s')
      | _ => first_enabled s l'
      end
  end.

Fixpoint run (fuel turn : nat) (s : state) : state :=
  match fuel with
  | O => s
  | S k => match first_enabled s (candidates turn) with
           | Some (_, s') => run k (S turn) s'
           | None => s
           end
  end.

Fixpoint schedule (fuel turn : nat) (s : state) : list action :=
  match fuel with
  | O => []
  | S k => match first_enabled s (candidates turn) with
           | Some (a, s') => a :: schedule k (S turn) s'
           | None => []
           end
  end.

(** The benchmark's shape with three values a side. *)
Definition small_config : config :=
  mkConfig [0; 1; 2]%Z [100; 101; 102]%Z 2 2.

Definition small_trace : list action :=
  Eval vm_compute in schedule 200 0 (init small_config).

Definition src (cfg : config) (d : side) : list Z :=
  match d with C1 => src1 cfg | C2 => src2 cfg end.

Definition same_side (a b : side) : bool :=
  match a, b with C1, C1 | C2, C2 => true | _, _ => false end.

(** What the consumer received from input [d], in arrival order. *)
Definition through (d : side) (m : list (side * Z)) : list Z :=
  map snd (filter (fun p => same_side (fst p) d) m).

Definition values (s : state) : list Z := map snd (merged s).

Definition held (d : side) (m : merger) : list Z :=
  match m with
  | MSend e v => if same_side e d then [v] else []
  | _ => []
  end.

Definition source_weight (x : source) : nat :=
  4 * length (feed x) + 3 * length (buf (input x))
  + (if fed x then 0 else 1) + (if isNil x then 0 else 2).

Definition measure (s : state) : nat :=
  source_weight (in1 s) + source_weight (in2 s)
  + match mg s with
    | MSelect => 2 | MSend _ _ => 4 | MCheck => 3 | MClose => 1 | MGone => 0
    end
  + (if finished s then 0 else 1).

Record source_ok (l : list Z) (x : source) (got hold : list Z) : Prop :=
  mkSourceOk {
  source_closed : closed (input x) = fed x;
  source_fed : fed x = true -> feed x = [];
  source_nil : isNil x = true ->
               closed (input x) = true /\ buf (input x) = [];
  source_order : got ++ hold ++ buf (input x) ++ feed x = l
}.

Record Inv (cfg : config) (s : state) : Prop := mkInv {
  inv_source : forall d,
    source_ok (src cfg d) (get d s) (through d (merged s))
              (held d (mg s));
  inv_out : outClosed s = match mg s with MGone => true | _ => false end;
  inv_select : mg s = MSelect ->
               isNil (in1 s) = false \/ isNil (in2 s) = false;
  inv_left : mg s = MClose \/ mg s = MGone ->
             isNil (in1 s) = true /\ isNil (in2 s) = true;
  inv_finished : finished s = true -> outClosed s = true
}.

End SelectFanIn.

(** ** TestPingPongPattern *)

Module PingPong.

Import Chan.

(** Both players are started with the same [maxHits]. *)
Record config : Type := mkConfig {
  maxHits : Z
}.

Inductive who : Type := Ping | Pong.

(** [player]: [for { select { case ball, ok := <-table: ...
    case <-time.After(100 * time.Millisecond): done <- true; return } }]. *)
Inductive player : Type :=
| PSelect        (* at the [select] *)
| PGot           (* ball received, at [ball.hits++] *)
| PTest          (* at [if ball.hits >= maxHits] *)
| PCloseTable    (* at [close(table)] *)
| PSendBack      (* at [table <- ball] *)
| PDone          (* at [done <- true], then [return] *)
| PGone.

(** The test function. *)
Inductive tester : Type :=
| TServe         (* at [table <- &Ball{}] *)
| TSelect        (* at [select { case <-done: case <-time.After(...): }] *)
| TCloseTable    (* timeout taken, at [close(table)] *)
| TDrain         (* at [select { case <-done: default: }] *)
| TGone.

(** The address of the one [Ball] of the test. *)
Definition ball : Z := 1.

Record state : Type := mkState {
  table : chan;          (* [make(chan *Ball, 1)] *)
  done : chan;           (* [make(chan bool, 2)] *)
  hits : Z;              (* the [hits] field of the one [Ball], shared by
                            whoever holds its address *)
  ping : player;
  pong : player;
  test : tester;
  player_timeouts : nat; (* history: [time.After] cases the players
                            have taken *)
  test_timed_out : bool  (* history: the test function has taken its
                            [time.After] case *)
}.

Definition init : state :=
  mkState (make 1) (make 2) 0 PSelect PSelect TServe 0 false.

Definition get (w : who) (s : state) : player :=
  match w with Ping => ping s | Pong => pong s end.

Definition set (w : who) (p : player) (s : state) : state :=
  match w with
  | Ping => mkState (table s) (done s) (hits s) p (pong s) (test s)
                    (player_timeouts s) (test_timed_out s)
  | Pong => mkState (table s) (done s) (hits s) (ping s) p (test s)
                    (player_timeouts s) (test_timed_out s)
  end.

Definition set_table (c : chan) (s : state) : state :=
  mkState c (done s) (hits s) (ping s) (pong s) (test s)
          (player_timeouts s) (test_timed_out s).

Definition set_done (c : chan) (s : state) : state :=
  mkState (table s) c (hits s) (ping s) (pong s) (test s)
          (player_timeouts s) (test_timed_out s).

Definition set_hits (h : Z) (s : state) : state :=
  mkState (table s) (done s) h (ping s) (pong s) (test s)
          (player_timeouts s) (test_timed_out s).

Definition set_test (t : tester) (s : state) : state :=
  mkState (table s) (done s) (hits s) (ping s) (pong s) t
          (player_timeouts s) (test_timed_out s).

Definition log_timeout (s : state) : state :=
  mkState (table s) (done s) (hits s) (ping s) (pong s) (test s)
          (S (player_timeouts s)) (test_timed_out s).

Definition log_test_timeout (s : state) : state :=
  mkState (table s) (done s) (hits s) (ping s) (pong s) (test s)
          (player_timeouts s) true.

Inductive action : Type :=
| APlayer (w : who)     (* player [w] runs one statement; at the
                           [select], the case of [table] *)
| ATimeout (w : who)    (* the [select] of player [w] takes the case of
                           [time.After] *)
| ATest                 (* the test function runs one statement; at its
                           first [select], the case of [done] *)
| ATestTimeout.         (* the first [select] of the test function takes
                           the case of [time.After] *)

Definition step_player (cfg : config) (w : who) (s : state)
  : outcome state :=
  match get w s with
  | PSelect =>
      r <- recv (table s) ;;
      match r with
      | (Some _, c) => Next (set w PGot (set_table c s))
      | (None, _) => Next (set w PDone s)
      end
  | PGot => Next (set w PTest (set_hits (wrap64 (hits s + 1)) s))
  | PTest =>
      if (maxHits cfg <=? hits s)%Z
      then Next (set w PCloseTable s)
      else Next (set w PSendBack s)
  | PCloseTable => c <- close (table s) ;; Next (set w PDone (set_table c s))
  | PSendBack => c <- send (table s) ball ;; Next (set w PSelect (set_table c s))
  | PDone => c <- send (done s) 1%Z ;; Next (set w PGone (set_done c s))
  | PGone => Blocked
  end.

(** The timer of a [select] is modelled as able to fire whenever the
    goroutine is at that [select]. *)
Definition step_timeout (w : who) (s : state) : outcome state :=
  match get w s with
  | PSelect => Next (log_timeout (set w PDone s))
  | _ => Blocked
  end.

Definition step_test (s : state) : outcome state :=
  match test s with
  | TServe => c <- send (table s) ball ;; Next (set_test TSelect (set_table c s))
  | TSelect =>
      r <- recv (done s) ;;
      match r with
      | (_, c) => Next (set_test TDrain (set_done c s))
      end
  | TCloseTable => c <- close (table s) ;; Next (set_test TDrain (set_table c s))
  | TDrain =>
      match recv (done s) with
      | Next (_, c) => Next (set_test TGone (set_done c s))
      | Blocked => Next (set_test TGone s)
      | Panic m => Panic m
      end
  | TGone => Blocked
  end.

Definition step_test_timeout (s : state) : outcome state :=
  match test s with
  | TSelect => Next (log_test_timeout (set_test TCloseTable s))
  | _ => Blocked
  end.

Definition step (cfg : config) (s : state) (a : action) : outcome state :=
  match a with
  | APlayer w => step_player cfg w s
  | ATimeout w => step_timeout w s
  | ATest => step_test s
  | ATestTimeout => step_test_timeout s
  end.

Fixpoint exec (cfg : config) (s : state) (tr : list action)
  : outcome state :=
  match tr with
  | [] => Next s
  | a :: tr' => s' <- step cfg s a ;; exec cfg s' tr'
  end.

(** The actions other than timeouts, the players taking turns. *)
Definition candidates (turn : nat) : list action :=
  if Nat.even (turn / 4) then [ATest; APlayer Ping; APlayer Pong]
  else [ATest; APlayer Pong; APlayer Ping].

Fixpoint first_enabled (cfg : config) (s : state) (l : list action)
  : option (action * state) :=
  match l with
  | [] => None
  | a :: l' =>
      match step cfg s a with
      | Next s' => Some (a, s')
      | _ => first_enabled cfg s l'
      end
  end.

Fixpoint run (cfg : config) (fuel turn : nat) (s : state) : state :=
  match fuel with
  | O => s
  | S k => match first_enabled cfg s (candidates turn) with
           | Some (_, s') => run cfg k (S turn) s'
           | None => s
           end
  end.

Fixpoint schedule (cfg : config) (fuel turn : nat) (s : state)
  : list action :=
  match fuel with
  | O => []
  | S k => match first_enabled cfg s (candidates turn) with
           | Some (a, s') => a :: schedule cfg k (S turn) s'
           | None => []
           end
  end.

(** The test's players: [maxHits] is 10. *)
Definition test_config : config := mkConfig 10.

Definition test_trace : list action :=
  Eval vm_compute in schedule test_config 400 0 init.

(** 1 for a player that has the ball. *)
Definition holding (p : player) : nat :=
  match p with
  | PGot | PTest | PSendBack | PCloseTable => 1
  | _ => 0
  end.

(** 1 for a player that has not yet sent on [done]. *)
Definition pending (p : player) : nat :=
  match p with PGone => 0 | _ => 1 end.

Definition unserved (t : tester) : nat :=
  match t with TServe => 1 | _ => 0 end.

(** The largest value [hits] can take. *)
Definition top (cfg : config) : Z := Z.max 1 (maxHits cfg).

(** What the position of a player says about the ball's [hits]. *)
Definition player_ok (cfg : config) (h : Z) (p : player) : Prop :=
  match p with
  | PGot => (h < top cfg)%Z
  | PSendBack => (h < maxHits cfg)%Z
  | PCloseTable => (maxHits cfg <= h)%Z
  | _ => True
  end.

Definition left_loop (p : player) : bool :=
  match p with PDone | PGone => true | _ => false end.

Definition player_weight (p : player) : nat :=
  match p with
  | PSelect => 2 | PGot => 2 | PTest => 5 | PCloseTable => 2
  | PSendBack => 4 | PDone => 1 | PGone => 0
  end.

Definition test_weight (t : tester) : nat :=
  match t with
  | TServe => 5 | TSelect => 3 | TCloseTable => 2 | TDrain => 1 | TGone => 0
  end.

Definition measure (cfg : config) (s : state) : nat :=
  5 * Z.to_nat (top cfg - hits s) + length (buf (table s))
  + player_weight (ping s) + player_weight (pong s) + test_weight (test s).

Record Inv (cfg : config) (s : state) : Prop := mkInv {
  inv_table_cap : cap (table s) = 1;
  inv_done_cap : cap (done s) = 2;
  inv_done_open : closed (done s) = false;
  inv_one : unserved (test s) + length (buf (table s))
            + holding (ping s) + holding (pong s) <= 1;
  inv_hits : (0 <= hits s <= top cfg)%Z;
  inv_ping : player_ok cfg (hits s) (ping s);
  inv_pong : player_ok cfg (hits s) (pong s);
  inv_buffered : buf (table s) <> [] -> (hits s < top cfg)%Z;
  inv_serve : test s = TServe -> closed (table s) = false /\ hits s = 0%Z;
  inv_done_room : length (buf (done s)) + pending (ping s)
                  + pending (pong s) <= 2;
  inv_done_all :
    match test s with
    | TServe | TSelect | TCloseTable =>
        length (buf (done s)) + pending (ping s) + pending (pong s) = 2
    | _ => True
    end;
  inv_ball :
    test_timed_out s = false ->
    unserved (test s) + length (buf (table s)) + holding (ping s)
    + holding (pong s) + (if closed (table s) then 1 else 0) = 1;
  inv_closed :
    test_timed_out s = false -> closed (table s) = true ->
    (maxHits cfg <= hits s)%Z;
  inv_timed : test_timed_out s = false -> test s <> TCloseTable;
  inv_left :
    player_timeouts s = 0 -> test_timed_out s = false ->
    left_loop (ping s) = true \/ left_loop (pong s) = true ->
    closed (table s) = true
}.

(** Every goroutine has returned. *)
Definition over (s : state) : Prop :=
  ping s = PGone /\ pong s = PGone /\ test s = TGone.

Definition is_timeout (a : action) : bool :=
  match a with ATimeout _ | ATestTimeout => true | _ => false end.

End PingPong.

(** ** TestQuitSignalPattern *)

Module Quit.

(** [boring]: [defer close(ch); for i := 0; ; i++ { select {
    case ch <- fmt.Sprintf("%s %d", msg, i): ...  case <-quit: return } }].
    A message is represented by its number [i]. *)
Inductive generator : Type :=
| GSelect (i : Z)    (* at the [select] *)
| GClose             (* returning, [close(ch)] pending *)
| GGone.

(** The test function. *)
Inductive tester : Type :=
| TFirst (k : nat)   (* first loop, [k] iterations done, at its [select] *)
| TQuit              (* at [close(quit)] *)
| TSecond            (* second loop, at its [select] *)
| TDone.             (* at the label [done] *)

Record state : Type := mkState {
  gen : generator;
  test : tester;
  chClosed : bool;       (* [ch], unbuffered *)
  quitClosed : bool;     (* [quit], unbuffered: nothing is ever sent *)
  count : nat;
  received : list Z;     (* history: the messages received, in order *)
  failed : bool          (* [t.Error] has been called *)
}.

Definition init : state :=
  mkState (GSelect 0) (TFirst 0) false false 0 [] false.

Inductive action : Type :=
| AHand          (* the generator's [ch <- ...] case and the test
                    function's [<-ch] case meet *)
| AQuitSeen      (* the generator's [select] takes [<-quit] *)
| AGen           (* the generator runs one other statement *)
| ATest          (* the test function runs one statement; at the second
                    [select], the case of [ch] when [ch] is closed *)
| ATestTimeout.  (* a [select] of the test function takes its
                    [time.After] case *)

(** After an iteration of the first loop. *)
Definition next_first (k : nat) : tester :=
  if S k <? 3 then TFirst (S k) else TQuit.

Definition step_hand (s : state) : outcome state :=
  match gen s, test s with
  | GSelect i, TFirst k =>
      if chClosed s then Blocked
      else Next (mkState (GSelect (wrap64 (i + 1))) (next_first k)
                         (chClosed s) (quitClosed s) (S (count s))
                         (received s ++ [i]) (failed s))
  | GSelect i, TSecond =>
      if chClosed s then Blocked
      else Next (mkState (GSelect (wrap64 (i + 1))) TSecond
                         (chClosed s) (quitClosed s) (count s)
                         (received s ++ [i]) (failed s))
  | _, _ => Blocked
  end.

Definition step_quit_seen (s : state) : outcome state :=
  match gen s with
  | GSelect _ =>
      if quitClosed s
      then Next (mkState GClose (test s) (chClosed s) (quitClosed s)
                         (count s) (received s) (failed s))
      else Blocked
  | _ => Blocked
  end.

Definition step_gen (s : state) : outcome state :=
  match gen s with
  | GSelect i =>
      (* alone, the send case waits, or finds [ch] closed *)
      if chClosed s then Panic "send on closed channel" else Blocked
  | GClose =>
      if chClosed s then Panic "close of closed channel"
      else Next (mkState GGone (test s) true (quitClosed s) (count s)
                         (received s) (failed s))
  | GGone => Blocked
  end.

Definition step_test (s : state) : outcome state :=
  match test s with
  | TFirst k =>
      (* alone, [<-ch] waits, or sees [ch] closed: the empty message
         is counted and reported *)
      if chClosed s
      then Next (mkState (gen s) (next_first k) (chClosed s) (quitClosed s)
                         (S (count s)) (received s) true)
      else Blocked
  | TQuit =>
      if quitClosed s then Panic "close of closed channel"
      else Next (mkState (gen s) TSecond (chClosed s) true (count s)
                         (received s) (failed s))
  | TSecond =>
      if chClosed s
      then Next (mkState (gen s) TDone (chClosed s) (quitClosed s)
                         (count s) (received s) (failed s))
      else Blocked
  | TDone => Blocked
  end.

(** The timers are modelled as able to fire whenever the test function
    is at the [select]; both branches call [t.Error]. *)
Definition step_test_timeout (s : state) : outcome state :=
  match test s with
  | TFirst k =>
      Next (mkState (gen s) (next_first k) (chClosed s) (quitClosed s)
                    (count s) (received s) true)
  | TSecond =>
      Next (mkState (gen s) TDone (chClosed s) (quitClosed s) (count s)
                    (received s) true)
  | _ => Blocked
  end.

Definition step (s : state) (a : action) : outcome state :=
  match a with
  | AHand => step_hand s
  | AQuitSeen => step_quit_seen s
  | AGen => step_gen s
  | ATest => step_test s
  | ATestTimeout => step_test_timeout s
  end.

Fixpoint exec (s : state) (tr : list action) : outcome state :=
  match tr with
  | [] => Next s
  | a :: tr' => s' <- step s a ;; exec s' tr'
  end.

(** The check at the label [done]: [count != 3] fails the test. *)
Definition passes (s : state) : Prop :=
  test s = TDone /\ failed s = false /\ count s = 3.

(** The run on which the generator sees [quit] at once. *)
Definition prompt_trace : list action :=
  [AHand; AHand; AHand; ATest; AQuitSeen; AGen; ATest].

(** A run on which two more messages arrive after [close(quit)]. *)
Definition late_trace : list action :=
  [AHand; AHand; AHand; ATest; AHand; AHand; AQuitSeen; AGen; ATest].

(** The numbers [0 .. n-1] as the generator counts them. *)
Definition numbers (n : nat) : list Z :=
  map (fun k => wrap64 (Z.of_nat k)) (seq 0 n).

Definition is_timeout (a : action) : bool :=
  match a with ATestTimeout => true | _ => false end.

Record Inv (s : state) : Prop := mkInv {
  inv_numbers : received s = numbers (length (received s));
  inv_next : forall i, gen s = GSelect i ->
                       i = wrap64 (Z.of_nat (length (received s)));
  inv_ch : chClosed s = match gen s with GGone => true | _ => false end;
  inv_left : gen s = GClose \/ gen s = GGone -> quitClosed s = true;
  inv_quit : quitClosed s
             = match test s with TSecond | TDone => true | _ => false end;
  inv_first : forall k, test s = TFirst k -> k < 3;
  inv_count : count s <= match test s with TFirst k => k | _ => 3 end;
  inv_clean :
    failed s = false ->
    match test s with
    | TFirst k => count s = k /\ length (received s) = k
    | _ => count s = 3 /\ 3 <= length (received s)
    end
}.

End Quit.

(** * Proofs *)

(** ** Lists updated by index *)

Lemma update_split {A} (l : list A) i old x :
  nth_error l i = Some old ->
  exists l1 l2, l = l1 ++ old :: l2 /\ update i x l = l1 ++ x :: l2
                /\ length l1 = i.
Proof.
  revert i; induction l as [|h t IH]; intros [|i] H; simpl in *;
    try discriminate.
  - inversion H; subst. exists [], t. auto.
  - destruct (IH _ H) as (l1 & l2 & -> & E & L).
    exists (h :: l1), l2. simpl. rewrite E, L. auto.
Qed.

Lemma obind_next {A B} (o : outcome A) (k : A -> outcome B) b :
  obind o k = Next b -> exists a, o = Next a /\ k a = Next b.
Proof. destruct o; simpl; intros; try discriminate; eauto. Qed.

Lemma obind_panic {A B} (o : outcome A) (k : A -> outcome B) m :
  obind o k = Panic m -> o = Panic m \/ exists a, o = Next a /\ k a = Panic m.
Proof.
  destruct o; simpl; intros H; [right; eauto | discriminate | left; congruence].
Qed.

Lemma list_sum_zero_all (l : list nat) :
  list_sum l = 0 -> Forall (fun n => n = 0) l.
Proof.
  induction l as [|n t IH]; simpl; intros H; constructor.
  - lia.
  - apply IH; lia.
Qed.

Create Rewrite HintDb pool_lists.
#[local] Hint Rewrite @map_app list_sum_app @flat_map_app @length_app
  : pool_lists.

Lemma list_sum_all_zero (l : list nat) :
  Forall (fun n => n = 0) l -> list_sum l = 0.
Proof. induction 1; simpl; lia. Qed.

Section PermFacts.
Variable A : Type.
Implicit Types c r b a X : list A.

Lemma perm_take c r b a x X :
  Permutation (c ++ r ++ b ++ a) X ->
  Permutation (c ++ r ++ b ++ x :: a) (X ++ [x]).
Proof.
  intros H. rewrite <- H. rewrite !app_assoc.
  rewrite <- Permutation_middle. apply Permutation_cons_append.
Qed.

Lemma perm_send c r b a x X :
  Permutation (c ++ r ++ b ++ x :: a) X ->
  Permutation (c ++ (r ++ [x]) ++ b ++ a) X.
Proof.
  intros H. rewrite <- H. apply Permutation_app_head.
  rewrite <- app_assoc. apply Permutation_app_head. simpl.
  apply Permutation_middle.
Qed.

Lemma perm_hand c r b a x X :
  Permutation (c ++ r ++ b ++ x :: a) X ->
  Permutation ((c ++ [x]) ++ r ++ b ++ a) X.
Proof.
  intros H. rewrite <- H. rewrite <- app_assoc. apply Permutation_app_head.
  simpl. rewrite !app_assoc. apply Permutation_middle.
Qed.

End PermFacts.

(** ** Channels *)

Section ChanFacts.
Import Chan.

Lemma send_next c v c' :
  send c v = Next c' ->
  closed c = false /\ length (buf c) < cap c
  /\ c' = mkChan (buf c ++ [v]) (cap c) false.
Proof.
  unfold send. destruct (closed c); [discriminate|].
  destruct (Nat.ltb_spec (length (buf c)) (cap c)) as [L|L]; [|discriminate].
  intros E; inversion E; auto.
Qed.

Lemma recv_some c v c' :
  recv c = Next (Some v, c') ->
  exists rest, buf c = v :: rest /\ c' = mkChan rest (cap c) (closed c).
Proof.
  unfold recv. destruct (buf c) as [|x r].
  - destruct (closed c); discriminate.
  - intros H; inversion H; subst. eauto.
Qed.

Lemma recv_none c c' :
  recv c = Next (None, c') -> buf c = [] /\ closed c = true /\ c' = c.
Proof.
  unfold recv. destruct (buf c) as [|x r]; [|discriminate].
  destruct (closed c); [|discriminate]. intros H; inversion H; auto.
Qed.

Lemma recv_no_panic c m : recv c <> Panic m.
Proof.
  unfold recv. destruct (buf c); [destruct (closed c)|]; discriminate.
Qed.

Lemma close_next c c' :
  close c = Next c' ->
  closed c = false /\ c' = mkChan (buf c) (cap c) true.
Proof.
  unfold close. destruct (closed c); [discriminate|].
  intros H; inversion H; auto.
Qed.

Lemma send_panic c v m : send c v = Panic m -> closed c = true.
Proof.
  unfold send. destruct (closed c); [reflexivity|].
  destruct (length (buf c) <? cap c); discriminate.
Qed.

Lemma close_panic c m : close c = Panic m -> closed c = true.
Proof. unfold close. destruct (closed c); [reflexivity|discriminate]. Qed.

Lemma recv_blocked c : recv c = Blocked -> buf c = [] /\ closed c = false.
Proof.
  unfold recv. destruct (buf c); [|discriminate].
  destruct (closed c); [discriminate|auto].
Qed.

Lemma send_blocked c v :
  send c v = Blocked -> cap c <= length (buf c) /\ closed c = false.
Proof.
  unfold send. destruct (closed c); [discriminate|].
  destruct (Nat.ltb_spec (length (buf c)) (cap c)); [discriminate|auto].
Qed.

Lemma rendezvous_true c :
  rendezvous c = true -> closed c = false /\ buf c = [].
Proof.
  unfold rendezvous. destruct (closed c), (buf c); simpl;
    intros; try discriminate; auto.
Qed.

End ChanFacts.

(** ** The worker pool *)

Section PoolFacts.
Import Chan Pool.

Variable abandon : Prop.
Variable cfg : config.

Ltac crack :=
  repeat match goal with
  | H : obind _ _ = Next _ |- _ =>
      let E := fresh "E" in
      let a := fresh "a" in
      apply obind_next in H; destruct H as (a & E & H)
  | H : ?lhs = Next _ |- _ =>
      match lhs with
      | context [match ?x with _ => _ end] =>
          let E := fresh "E" in destruct x eqn:E; try discriminate H
      end
  end.

Lemma init_inv : Inv abandon cfg (init cfg).
Proof.
  constructor; simpl; auto; try discriminate; try tauto.
  - apply repeat_length.
  - induction (numWorkers cfg); simpl; auto.
  - intros w Hw. apply repeat_spec in Hw. subst. discriminate.
  - induction (numWorkers cfg); simpl; auto.
  - lia.
  - destruct (inlineSend cfg); [auto|discriminate].
Qed.

Ltac chan_facts :=
  repeat match goal with
  | H : send _ _ = Next _ |- _ =>
      apply send_next in H; destruct H as (? & ? & ?)
  | H : recv _ = Next (Some _, _) |- _ =>
      apply recv_some in H; destruct H as (? & ? & ?)
  | H : recv _ = Next (None, _) |- _ =>
      apply recv_none in H; destruct H as (? & ? & ?)
  | H : close _ = Next _ |- _ =>
      apply close_next in H; destruct H as (? & ?)
  | H : rendezvous _ = true |- _ =>
      apply rendezvous_true in H; destruct H as (? & ?)
  | H : (_ =? _) = true |- _ => apply Nat.eqb_eq in H
  | H : Next _ = Next _ |- _ => inversion H; clear H
  | H : (_ && _) = true |- _ => apply andb_prop in H; destruct H as (? & ?)
  | H : negb _ = true |- _ => apply negb_true_iff in H
  | H : negb _ = false |- _ => apply negb_false_iff in H
  | H : (_ || _) = false |- _ =>
      apply orb_false_elim in H; destruct H as (? & ?)
  end.

Ltac open_step s I :=
  destruct I; destruct s; simpl in *;
  crack; chan_facts; simpl in *; subst;
  unfold log_delivery, log_close, set_drained, collect, set_closer, set_wg,
    set_worker, set_sender_done, set_pending, set_results, set_jobs in *;
  simpl in *.

Ltac split_workers :=
  match goal with
  | E : nth_error ?l ?i = Some ?old |- context [update ?i ?x ?l] =>
      let l1 := fresh "before" in
      let l2 := fresh "after" in
      let Hu := fresh "Hu" in
      destruct (@update_split _ l i old x E) as (l1 & l2 & ? & Hu & ?);
      rewrite Hu in *; clear Hu; subst l;
      autorewrite with pool_lists in *; simpl in *
  end.

Lemma sender_inv s s' :
  Inv abandon cfg s -> step_sender s = Next s' -> Inv abandon cfg s'.
Proof.
  intros I H. unfold step_sender, submit, close_intake in H.
  open_step s I.
  all: constructor; simpl in *; auto; try congruence.
  - intros w Hw Hl. destruct (inv_left0 w Hw Hl) as [?|[? ?]]; [tauto|].
    congruence.
  - intros w Hw Hl. destruct (inv_left0 w Hw Hl) as [?|[? ?]]; [tauto|].
    congruence.
  - rewrite <- inv_fifo0, <- app_assoc. reflexivity.
  - rewrite length_app; simpl. destruct inv_caps0. lia.
Qed.

Ltac norm :=
  autorewrite with pool_lists in *; simpl in *;
  autorewrite with pool_lists in *; simpl in *.

Ltac left_case inv_left0 :=
  let w := fresh "w" in
  let Hw := fresh "Hw" in
  let Hl := fresh "Hl" in
  intros w Hw Hl; rewrite in_app_iff in Hw; simpl in Hw;
  destruct Hw as [Hw | [Hw | Hw]];
  try (subst w; discriminate Hl);
  try (destruct (inv_left0 w) as [? | [? ?]];
       [rewrite in_app_iff; simpl; tauto | assumption | tauto | ];
       right; split; congruence).

Lemma worker_inv i s s' :
  Inv abandon cfg s -> step_worker i s = Next s' -> Inv abandon cfg s'.
Proof.
  intros I H. unfold step_worker in H.
  open_step s I.
  all: split_workers.
  all: constructor; norm; auto; try congruence; try lia;
  try (intros; congruence).
  - left_case inv_left0.
  - rewrite <- inv_fifo0, H0, <- app_assoc. reflexivity.
  - apply perm_take. exact inv_flow0.
  - rewrite H0 in inv_bounds0. simpl in inv_bounds0. lia.
  - intros w j Hin. apply in_app_iff in Hin. destruct Hin as [Hin|Hin].
    + eauto.
    + simpl in Hin. destruct Hin as [Hin|[]]. inversion Hin; subst.
      clear - inv_len0. lia.
  - destruct (closed results0); congruence.
  - left_case inv_left0.
  - apply perm_send. exact inv_flow0.
  - intros Hd. destruct (inv_drained0 Hd). congruence.
  - intros Hc. specialize (inv_closer0 Hc). lia.
  - left_case inv_left0.
    apply (inv_left0 WDefer); [|reflexivity].
    rewrite in_app_iff; simpl; tauto.
Qed.

Lemma closer_inv s s' :
  Inv abandon cfg s -> step_closer s = Next s' -> Inv abandon cfg s'.
Proof.
  intros I H. unfold step_closer in H.
  open_step s I.
  all: constructor; norm; auto; try congruence; try lia;
  try (intros; congruence).
  - intros _. apply inv_closer0. discriminate.
  - destruct (closed results0); congruence.
  - intros Hd. destruct (inv_drained0 Hd). congruence.
Qed.

Lemma collector_inv s s' :
  Inv abandon cfg s -> step_collector s = Next s' -> Inv abandon cfg s'.
Proof.
  intros I H. unfold step_collector in H.
  open_step s I.
  all: constructor; norm; auto; try congruence; try lia;
  try (intros; congruence).
  - rewrite <- app_assoc. simpl. rewrite H0 in inv_flow0. exact inv_flow0.
  - rewrite H0 in inv_bounds0. simpl in inv_bounds0. lia.
Qed.

Lemma hand_job_inv i s s' :
  Inv abandon cfg s -> step_hand_job i s = Next s' -> Inv abandon cfg s'.
Proof.
  intros I H. unfold step_hand_job in H.
  open_step s I.
  all: split_workers.
  all: constructor; norm; auto; try congruence; try lia;
  try (intros; congruence).
  - left_case inv_left0.
  - match goal with Hb : buf jobs0 = [] |- _ => rewrite Hb in * end.
    rewrite <- inv_fifo0, <- app_assoc. reflexivity.
  - apply perm_take. exact inv_flow0.
  - intros w j Hin. apply in_app_iff in Hin. destruct Hin as [Hin|Hin].
    + eauto.
    + simpl in Hin. destruct Hin as [Hin|[]]. inversion Hin; subst.
      clear - inv_len0. lia.
Qed.

Lemma hand_result_inv i s s' :
  Inv abandon cfg s -> step_hand_result i s = Next s' -> Inv abandon cfg s'.
Proof.
  intros I H. unfold step_hand_result in H.
  open_step s I.
  all: split_workers.
  all: constructor; norm; auto; try congruence; try lia;
  try (intros; congruence).
  - left_case inv_left0.
  - apply perm_hand. exact inv_flow0.
Qed.

Lemma step_inv s a s' :
  Inv abandon cfg s -> step s a = Next s' -> Inv abandon cfg s'.
Proof.
  destruct a; simpl;
    eauto using sender_inv, worker_inv, closer_inv, collector_inv,
                hand_job_inv, hand_result_inv.
Qed.

Lemma exec_inv tr : forall s s',
  Inv abandon cfg s -> exec s tr = Next s' -> Inv abandon cfg s'.
Proof.
  induction tr as [|a tr IH]; simpl; intros s s' I H.
  - inversion H; subst; assumption.
  - apply obind_next in H. destruct H as (s1 & H1 & H2).
    eapply IH; [eapply step_inv|]; eauto.
Qed.

Lemma reachable_inv tr s : exec (init cfg) tr = Next s -> Inv abandon cfg s.
Proof. apply exec_inv, init_inv. Qed.


(** No statement of the pool panics: nobody sends on or closes a closed
    channel, and the WaitGroup counter never goes negative. *)
Lemma active_sum_zero ws :
  list_sum (map active ws) = 0 -> Forall (fun w => w = WGone) ws.
Proof.
  induction ws as [|w ws IH]; simpl; intros H; constructor.
  - destruct w; simpl in H; try discriminate; reflexivity.
  - apply IH. lia.
Qed.

Lemma all_gone_nth ws i w :
  Forall (fun w => w = WGone) ws -> nth_error ws i = Some w -> w = WGone.
Proof.
  intros F H. apply nth_error_In in H.
  rewrite Forall_forall in F. auto.
Qed.

Lemma results_closed_all_gone s :
  Inv abandon cfg s -> closed (results s) = true ->
  Forall (fun w => w = WGone) (workers s).
Proof.
  intros I H. apply active_sum_zero. rewrite <- (inv_wg I).
  apply (inv_closer I). rewrite (inv_results_closed I) in H.
  destruct (closer s); discriminate.
Qed.

Lemma step_no_panic s a m : Inv abandon cfg s -> step s a <> Panic m.
Proof.
  intros I H.
  destruct a; simpl in H;
    unfold step_sender, submit, close_intake, step_worker, step_closer,
      step_collector, step_hand_job, step_hand_result in H.
  all: repeat match goal with
       | H : obind _ _ = Panic _ |- _ =>
           apply obind_panic in H; destruct H as [H | (? & ? & H)]
       | H : ?lhs = Panic _ |- _ =>
           match lhs with
           | context [match ?x with _ => _ end] =>
               let E := fresh "E" in destruct x eqn:E; try discriminate H
           end
       | H : send _ _ = Panic _ |- _ => apply send_panic in H
       | H : close _ = Panic _ |- _ => apply close_panic in H
       | H : recv _ = Panic _ |- _ =>
           exfalso; revert H; apply recv_no_panic
       end.
  all: try discriminate.
  all: try (pose proof (inv_jobs_closed I); congruence).
  all: try (pose proof (inv_results_closed I) as R;
            match goal with E : closer _ = _ |- _ => rewrite E in R end;
            congruence).
  - pose proof (all_gone_nth _ (results_closed_all_gone I H) E).
    discriminate.
  - assert (G : Forall (fun w => w = WGone) (workers s)).
    { apply active_sum_zero. rewrite <- (inv_wg I). assumption. }
    pose proof (all_gone_nth _ G E). discriminate.
Qed.

Lemma exec_no_panic tr : forall s m, Inv abandon cfg s -> exec s tr <> Panic m.
Proof.
  induction tr as [|a tr IH]; simpl; intros s m I H; [discriminate|].
  apply obind_panic in H. destruct H as [H | (s1 & H1 & H2)].
  - exact (step_no_panic _ I H).
  - exact (IH _ _ (step_inv _ I H1) H2).
Qed.

(** Every step consumes part of the remaining work. *)
Lemma step_measure s a s' : step s a = Next s' -> measure s' < measure s.
Proof.
  intros H.
  destruct a; simpl in H;
    unfold step_sender, submit, close_intake, step_worker, step_closer,
      step_collector, step_hand_job, step_hand_result in H.
  all: destruct s; simpl in *; crack; chan_facts; simpl in *; subst;
    unfold log_delivery, log_close, set_drained, collect, set_closer,
      set_wg, set_worker, set_sender_done, set_pending, set_results,
      set_jobs, measure in *;
    simpl in *; try split_workers.
  all: norm; try lia.
  all: match goal with Hb : buf _ = _ :: _ |- _ => rewrite Hb end;
    simpl; lia.
Qed.

Lemma exec_measure tr : forall s s',
  exec s tr = Next s' -> length tr + measure s' <= measure s.
Proof.
  induction tr as [|a tr IH]; simpl; intros s s' H.
  - inversion H; subst; lia.
  - apply obind_next in H. destruct H as (s1 & H1 & H2).
    apply step_measure in H1. apply IH in H2. lia.
Qed.

(** What the collector has seen at the end of the stream. *)
Lemma held_all_gone ws :
  Forall (fun w => w = WGone) ws -> flat_map held ws = [].
Proof. induction 1; simpl; subst; auto. Qed.

Lemma drained_closed s :
  Inv abandon cfg s -> drained s = true -> pool_closed s.
Proof.
  intros I D. destruct (inv_drained I D) as [RC RB].
  pose proof (results_closed_all_gone I RC) as G.
  assert (CG : closer s = CGone).
  { pose proof (inv_results_closed I) as R. rewrite RC in R.
    destruct (closer s); congruence. }
  repeat split; assumption.
Qed.

Lemma all_gone_intake_empty s :
  Inv abandon cfg s -> ~ abandon -> numWorkers cfg >= 1 ->
  Forall (fun w => w = WGone) (workers s) ->
  closed (jobs s) = true /\ buf (jobs s) = [] /\ pending s = [].
Proof.
  intros I NA W G. pose proof (inv_len I) as L.
  destruct (workers s) as [|w ws] eqn:E; simpl in L; [lia|].
  inversion G; subst.
  destruct (inv_left I WGone) as [C | [C B]];
    [rewrite E; left; reflexivity | reflexivity | contradiction |].
  repeat split; try assumption.
  apply (inv_sender_done I). rewrite <- (inv_jobs_closed I). assumption.
Qed.

Lemma drained_results s :
  Inv abandon cfg s -> ~ abandon -> numWorkers cfg >= 1 ->
  drained s = true ->
  map snd (delivered s) = jobList cfg
  /\ Permutation (collected s) (map double (jobList cfg)).
Proof.
  intros I NA W D. destruct (drained_closed I D) as (G & _ & _ & _).
  destruct (all_gone_intake_empty I NA W G) as (_ & B & P).
  destruct (inv_drained I D) as [_ RB].
  pose proof (inv_fifo I) as F. rewrite B, P, !app_nil_r in F.
  split; [assumption|].
  pose proof (inv_flow I) as Fl.
  rewrite RB, (held_all_gone G), F in Fl. simpl in Fl.
  rewrite app_nil_r in Fl. assumption.
Qed.

(** The collector never holds more than what was submitted. *)
Lemma collected_bound s :
  Inv abandon cfg s -> length (collected s) <= length (jobList cfg).
Proof.
  intros I. pose proof (inv_flow I) as Fl. pose proof (inv_fifo I) as F.
  apply Permutation_length in Fl.
  apply (f_equal (@length Z)) in F.
  autorewrite with pool_lists in *.
  rewrite !length_map in *. lia.
Qed.

Lemma active_worker ws :
  list_sum (map active ws) <> 0 ->
  exists i w, nth_error ws i = Some w /\ w <> WGone.
Proof.
  induction ws as [|w ws IH]; simpl; intros H; [lia|].
  destruct w; try (exists 0; eexists; split; [reflexivity|discriminate]).
  destruct (IH H) as (i & w & Hi & Hw). exists (S i), w. auto.
Qed.

Ltac fire a :=
  exists a; eexists; simpl;
  unfold step_sender, submit, close_intake, step_worker, step_closer,
    step_collector, step_hand_job, step_hand_result, send, recv, close,
    rendezvous;
  repeat match goal with
         | H : _ = _ |- _ => rewrite H
         end; simpl; try reflexivity.

(** Deadlock freedom: as long as the collector has not seen the end of
    the stream some goroutine can run. *)
Lemma progress s :
  Inv abandon cfg s -> gathering s = true -> drained s = false ->
  exists a s', step s a = Next s'.
Proof.
  intros I G D.
  destruct (buf (results s)) as [|v r] eqn:RB; [|fire ACollector].
  destruct (closed (results s)) eqn:RC; [fire ACollector|].
  pose proof (inv_results_closed I) as R. rewrite RC in R.
  destruct (closer s) eqn:CL; [|clear R; fire ACloser|discriminate].
  destruct (wg s) as [|n] eqn:WG; [clear R; fire ACloser|].
  destruct (@active_worker (workers s)) as (i & w & Hi & Hw).
  { rewrite <- (inv_wg I). lia. }
  clear R. destruct w as [|job| |]; [| | |congruence].
  - (* a worker at [range jobs] *)
    destruct (buf (jobs s)) as [|j q] eqn:JB; [|fire (AWorker i)].
    destruct (closed (jobs s)) eqn:JC; [fire (AWorker i)|].
    pose proof (inv_jobs_closed I) as SD. rewrite JC in SD. symmetry in SD.
    destruct (pending s) as [|j rest] eqn:P; [fire ASender|].
    destruct (cap (jobs s)) as [|c] eqn:CJ;
      [fire (AHandJob i) | fire ASender].
  - (* a worker at [results <- job * 2] *)
    destruct (cap (results s)) as [|c] eqn:CR;
      [fire (AHandResult i) | fire (AWorker i)].
  - (* a worker about to run [wg.Done()] *)
    fire (AWorker i).
Qed.

(** With [inlineSend] the test function sends before anybody collects:
    it gets through when the intake can hold every job, as in
    TestWorkerPool. *)
Lemma progress_roomy s :
  Inv abandon cfg s -> length (jobList cfg) <= capJobs cfg ->
  drained s = false -> exists a s', step s a = Next s'.
Proof.
  intros I R D. destruct (gathering s) eqn:G; [apply progress; assumption|].
  destruct (inv_gathering I G) as (_ & SD & _).
  pose proof (inv_jobs_closed I) as JC. rewrite SD in JC.
  pose proof (inv_fifo I) as F. apply (f_equal (@length Z)) in F.
  rewrite !length_app in F. destruct (inv_caps I) as [CJ _].
  destruct (pending s) as [|j rest] eqn:P; [fire ASender|].
  simpl in F.
  assert (L : (length (buf (jobs s)) <? cap (jobs s)) = true)
    by (apply Nat.ltb_lt; lia).
  fire ASender.
Qed.

Lemma gathering_stays s a s' :
  gathering s = true -> step s a = Next s' -> gathering s' = true.
Proof.
  intros G H.
  destruct a; simpl in H;
    unfold step_sender, submit, close_intake, step_worker, step_closer,
      step_collector, step_hand_job, step_hand_result in H;
    destruct s; simpl in *; crack; chan_facts; subst; simpl in *;
    congruence.
Qed.

Lemma closed_intake_gathering s :
  Inv abandon cfg s -> closed (jobs s) = true -> gathering s = true.
Proof.
  intros I C. destruct (gathering s) eqn:G; [reflexivity|].
  destruct (inv_gathering I G) as (_ & SD & _).
  rewrite (inv_jobs_closed I) in C. congruence.
Qed.

Lemma intake_stays_closed s a s' :
  Inv abandon cfg s -> closed (jobs s) = true -> step s a = Next s' ->
  closed (jobs s') = true.
Proof.
  intros I C H. pose proof (inv_jobs_closed I) as SD. rewrite C in SD.
  destruct a; simpl in H;
    unfold step_sender, submit, close_intake, step_worker, step_closer,
      step_collector, step_hand_job, step_hand_result in H;
    rewrite <- ?SD in H; try discriminate;
    destruct s; simpl in *; crack; chan_facts; subst; simpl in *;
    congruence.
Qed.

Lemma intake_stays_closed_exec tr : forall s s',
  Inv abandon cfg s -> closed (jobs s) = true -> exec s tr = Next s' ->
  closed (jobs s') = true.
Proof.
  induction tr as [|a tr IH]; simpl; intros s s' I C H.
  - inversion H; subst; assumption.
  - apply obind_next in H. destruct H as (s1 & H1 & H2).
    eapply IH; [eapply step_inv | eapply intake_stays_closed |]; eauto.
Qed.

Lemma can_finish n : forall s,
  measure s <= n -> Inv abandon cfg s ->
  gathering s = true \/ length (jobList cfg) <= capJobs cfg ->
  exists tr s', exec s tr = Next s' /\ drained s' = true.
Proof.
  induction n as [|n IH]; intros s M I G.
  - destruct (drained s) eqn:D; [exists [], s; auto|].
    unfold measure in M. rewrite D in M. lia.
  - destruct (drained s) eqn:D; [exists [], s; auto|].
    assert (P : exists a s1, step s a = Next s1).
    { destruct G as [G|G]; [apply progress | apply progress_roomy];
        assumption. }
    destruct P as (a & s1 & H1).
    pose proof (step_measure _ _ H1) as M1.
    destruct (IH s1) as (tr & s' & H2 & D2);
      [lia | eapply step_inv; eauto | |].
    + destruct G as [G|G]; [left; eapply gathering_stays; eauto | auto].
    + exists (a :: tr), s'. simpl. rewrite H1. simpl. auto.
Qed.

Lemma exec_app tr1 : forall tr2 s s1,
  exec s tr1 = Next s1 -> exec s (tr1 ++ tr2) = exec s1 tr2.
Proof.
  induction tr1 as [|a tr1 IH]; simpl; intros tr2 s s1 H.
  - inversion H; reflexivity.
  - apply obind_next in H. destruct H as (s2 & H1 & H2).
    rewrite H1. simpl. eauto.
Qed.



End PoolFacts.

Section PoolProperties.
Import Chan Pool.

Variable cfg : config.

Lemma reachable tr s : exec (init cfg) tr = Next s -> Inv False cfg s.
Proof. apply reachable_inv. Qed.


(** C2. Join before close: in every execution [close(results)] runs at
    most once, exactly once by the end of the drain; the step that
    closes the outtake is the closer's, taken when every worker has
    returned; no worker step changes the closed flag; and no step
    panics, so nobody sends on the closed outtake or closes it again.
    And the close does happen: every continuation is finite, and with a
    sending goroutine (or an intake that holds every job) an execution
    that can go no further has closed the outtake, once, with every
    worker returned, and from every state a continuation to such a
    close exists. *)
Theorem outtake_closed_once_after_join tr s :
  exec (init cfg) tr = Next s ->
  closes s <= 1
  /\ (closed (results s) = true ->
      Forall (fun w => w = WGone) (workers s))
  /\ (forall a s', step s a = Next s' -> closes_outtake s s' ->
      a = ACloser /\ Forall (fun w => w = WGone) (workers s)
      /\ closes s = 0 /\ closes s' = 1)
  /\ (forall i s', step s (AWorker i) = Next s'
                   \/ step s (AHandResult i) = Next s'
                   \/ step s (AHandJob i) = Next s' ->
      closed (results s') = closed (results s))
  /\ (forall a m, step s a <> Panic m)
  /\ (drained s = true -> closes s = 1)
  /\ (forall tr' s', exec s tr' = Next s' ->
        length tr' + measure s' <= measure s)
  /\ (inlineSend cfg = false \/ length (jobList cfg) <= capJobs cfg ->
      ((forall a, step s a = Blocked) ->
       closes s = 1 /\ closed (results s) = true
       /\ Forall (fun w => w = WGone) (workers s))
      /\ (exists tr' s', exec s tr' = Next s'
                         /\ closes s' = 1 /\ closed (results s') = true
                         /\ Forall (fun w => w = WGone) (workers s'))).
Proof.
  intros H. pose proof (reachable _ H) as I.
  split; [|split; [|split; [|split; [|split; [|split; [|split]]]]]].
  - rewrite (inv_closes I). destruct (closed (results s)); lia.
  - apply results_closed_all_gone with (1 := I).
  - intros a s' St [C0 C1].
    pose proof (step_inv a I St) as I'.
    assert (A : a = ACloser).
    { destruct a; auto; simpl in St;
        unfold step_sender, submit, close_intake, step_worker,
          step_collector, step_hand_job, step_hand_result in St;
        exfalso; destruct s; simpl in *;
        repeat match goal with
        | H : obind _ _ = Next _ |- _ =>
            apply obind_next in H; destruct H as (? & ? & H)
        | H : ?lhs = Next _ |- _ =>
            match lhs with
            | context [match ?x with _ => _ end] =>
                destruct x eqn:?; try discriminate H
            end
        | H : send _ _ = Next _ |- _ =>
            apply send_next in H; destruct H as (? & ? & ?)
        | H : recv _ = Next (Some _, _) |- _ =>
            apply recv_some in H; destruct H as (? & ? & ?)
        | H : recv _ = Next (None, _) |- _ =>
            apply recv_none in H; destruct H as (? & ? & ?)
        | H : close _ = Next _ |- _ =>
            apply close_next in H; destruct H as (? & ?)
        | H : Next _ = Next _ |- _ => inversion H; clear H
        end; subst; simpl in *; congruence. }
    subst a. split; [reflexivity|].
    simpl in St. unfold step_closer in St.
    destruct (gathering s); simpl in St; [|discriminate].
    destruct (closer s) eqn:CL.
    + destruct (wg s =? 0); [|discriminate].
      inversion St; subst; simpl in C1; congruence.
    + split.
      * apply active_sum_zero. rewrite <- (inv_wg I).
        apply (inv_closer I). congruence.
      * rewrite (inv_closes I), (inv_closes I'), C0, C1. auto.
    + discriminate.
  - intros i s' [St | [St | St]]; simpl in St;
      unfold step_worker, step_hand_result, step_hand_job in St;
      destruct s; simpl in *;
      repeat match goal with
      | H : obind _ _ = Next _ |- _ =>
          apply obind_next in H; destruct H as (? & ? & H)
      | H : ?lhs = Next _ |- _ =>
          match lhs with
          | context [match ?x with _ => _ end] =>
              destruct x eqn:?; try discriminate H
          end
      | H : send _ _ = Next _ |- _ =>
          apply send_next in H; destruct H as (? & ? & ?)
      | H : Next _ = Next _ |- _ => inversion H; clear H
      end; subst; simpl in *; congruence.
  - intros a m. apply step_no_panic with (1 := I).
  - intros D. destruct (inv_drained I D) as [C _].
    rewrite (inv_closes I), C. reflexivity.
  - intros tr' s' H'. apply exec_measure. assumption.
  - intros R.
    assert (G : gathering s = true
                \/ length (jobList cfg) <= capJobs cfg).
    { destruct R as [R|R]; [left|right; exact R].
      destruct (gathering s) eqn:G; [reflexivity|].
      destruct (inv_gathering I G) as (Y & _). congruence. }
    split.
    + intros B. destruct (drained s) eqn:D.
      * destruct (inv_drained I D) as [C _].
        rewrite (inv_closes I), C. split; [reflexivity|].
        split; [reflexivity|].
        apply results_closed_all_gone with (1 := I). assumption.
      * assert (P : exists a s1, step s a = Next s1).
        { destruct G as [G|G];
            [apply progress with (1 := I)
            | apply progress_roomy with (1 := I)]; assumption. }
        destruct P as (a & s1 & St). rewrite B in St. discriminate.
    + destruct (can_finish (le_n (measure s)) I G) as (tr' & s' & H' & D).
      pose proof (exec_inv _ I H') as I'.
      destruct (inv_drained I' D) as [C _].
      exists tr', s'. split; [assumption|].
      rewrite (inv_closes I'), C. split; [reflexivity|].
      split; [reflexivity|].
      apply results_closed_all_gone with (1 := I'). assumption.
Qed.


(** C5. Liveness: with at least one worker and the intake closed, every
    continuation of the execution is finite (at most [measure s]
    steps), no continuation panics, some goroutine can run as long as
    the collector has not seen the end of the stream, a worker is out
    of its loop only with the intake closed and empty, and a
    continuation that can go no further has every worker returned and
    the join completed; such a continuation exists. *)
Theorem wait_terminates_after_close tr s :
  numWorkers cfg >= 1 ->
  exec (init cfg) tr = Next s ->
  closed (jobs s) = true ->
  (forall tr' s', exec s tr' = Next s' ->
     length tr' + measure s' <= measure s
     /\ (drained s' = false -> exists a s'', step s' a = Next s'')
     /\ (forall i w, nth_error (workers s') i = Some w ->
           left_loop w = true ->
           closed (jobs s') = true /\ buf (jobs s') = [])
     /\ (forall i, nth_error (workers s') i = Some WRange ->
           buf (jobs s') = [] ->
           exists s'', step s' (AWorker i) = Next s''
                       /\ nth_error (workers s'') i = Some WDefer)
     /\ ((forall a, step s' a = Blocked) -> pool_closed s'))
  /\ (forall tr' m, exec s tr' <> Panic m)
  /\ (exists tr' s', exec s tr' = Next s' /\ pool_closed s').
Proof.
  intros W H C. pose proof (reachable _ H) as I.
  split; [|split].
  - intros tr' s' H'. pose proof (exec_inv _ I H') as I'.
    pose proof (intake_stays_closed_exec _ I C H') as C'.
    pose proof (closed_intake_gathering I' C') as G'.
    split; [apply exec_measure; assumption|].
    split; [apply progress with (1 := I'); assumption|].
    split; [|split].
    + intros i w Hi L. apply nth_error_In in Hi.
      destruct (inv_left I' _ Hi L) as [[]|]. assumption.
    + intros i Hi B.
      eexists. simpl. unfold step_worker, recv. rewrite Hi, B, C'. simpl.
      split; [reflexivity|]. simpl.
      destruct (@update_split _ _ _ _ WDefer Hi) as (l1 & l2 & _ & -> & L).
      rewrite nth_error_app2, L, Nat.sub_diag by lia. reflexivity.
    + intros B. destruct (drained s') eqn:D.
      * apply drained_closed with (1 := I'). assumption.
      * destruct (progress I' G' D) as (a & s'' & St).
        rewrite B in St. discriminate.
  - intros tr' m. apply exec_no_panic with (1 := I).
  - destruct (can_finish (le_n (measure s)) I) as (tr' & s' & H' & D);
      [left; apply closed_intake_gathering with (1 := I); assumption|].
    exists tr', s'. split; [assumption|].
    apply drained_closed with (1 := exec_inv _ I H'). assumption.
Qed.

(** X17. The pool never deadlocks.  Both shapes of the test run to
    completion from the start: with a sending goroutine for every
    capacity, with [inlineSend] when the intake holds every job
    (TestWorkerPool: 10 jobs, capacity 10).  From every reachable state
    some goroutine can run as long as the collector's loop has not
    ended, and a continuation to the Closed state exists. *)
Lemma pool_never_deadlocks tr s :
  inlineSend cfg = false \/ length (jobList cfg) <= capJobs cfg ->
  exec (init cfg) tr = Next s ->
  (drained s = false -> exists a s', step s a = Next s')
  /\ (exists tr' s', exec s tr' = Next s' /\ pool_closed s').
Proof.
  intros R H. pose proof (reachable _ H) as I.
  assert (G : gathering s = true \/ length (jobList cfg) <= capJobs cfg).
  { destruct R as [R|R]; [left|right; exact R].
    destruct (gathering s) eqn:G; [reflexivity|].
    destruct (inv_gathering I G) as (Y & _). congruence. }
  split.
  - intros D. destruct G as [G|G];
      [apply progress with (1 := I) | apply progress_roomy with (1 := I)];
      assumption.
  - destruct (can_finish (le_n (measure s)) I G) as (tr' & s' & H' & D).
    exists tr', s'. split; [assumption|].
    apply drained_closed with (1 := exec_inv _ I H'). assumption.
Qed.

End PoolProperties.

Lemma pool_never_deadlocks_witness :
  exists s, Pool.exec (Pool.init Pool.unbuffered_config)
              (firstn 4 Pool.unbuffered_trace) = Next s
            /\ exists a s', Pool.step s a = Next s'.
Proof.
  eexists. split; [vm_compute; reflexivity|].
  apply (@pool_never_deadlocks Pool.unbuffered_config
           (firstn 4 Pool.unbuffered_trace)).
  - left; reflexivity.
  - vm_compute; reflexivity.
  - reflexivity.
Defined.


Lemma outtake_closed_once_after_join_witness :
  exists s, Pool.exec (Pool.init Pool.unbuffered_config)
                      Pool.unbuffered_trace = Next s
            /\ Pool.closes s <= 1
            /\ Pool.closes s = 1
            /\ exists tr' s', Pool.exec s tr' = Next s'
                               /\ Pool.closes s' = 1.
Proof.
  exists (Pool.run 200 (Pool.init Pool.unbuffered_config)).
  split; [vm_compute; reflexivity|].
  destruct (@outtake_closed_once_after_join Pool.unbuffered_config
              Pool.unbuffered_trace
              (Pool.run 200 (Pool.init Pool.unbuffered_config)))
    as (B & _ & _ & _ & _ & D & _ & L).
  - vm_compute; reflexivity.
  - split; [exact B|]. split; [apply D; vm_compute; reflexivity|].
    destruct L as [_ (tr' & s' & H' & C & _)]; [left; reflexivity|].
    exists tr', s'. split; assumption.
Defined.


Lemma wait_terminates_after_close_witness :
  exists s, Pool.exec (Pool.init Pool.small_config)
                      (firstn 20 Pool.small_trace) = Next s
            /\ Chan.closed (Pool.jobs s) = true
            /\ forall tr' m, Pool.exec s tr' <> Panic m.
Proof.
  exists (Pool.run 20 (Pool.init Pool.small_config)).
  split; [vm_compute; reflexivity|]. split; [vm_compute; reflexivity|].
  apply (@wait_terminates_after_close Pool.small_config
           (firstn 20 Pool.small_trace)).
  - simpl; lia.
  - vm_compute; reflexivity.
  - vm_compute; reflexivity.
Defined.

(** C6. Jobs 1..5, doubling, two workers, capacities 2 and 2: whatever
    the schedule, once the drain loop has ended the collector holds
    2, 4, 6, 8 and 10, each once, in some order, and [wg.Wait()] has
    returned. *)
Theorem five_jobs_doubled tr s :
  Pool.exec (Pool.init Pool.small_config) tr = Next s ->
  Pool.drained s = true ->
  Permutation (Pool.collected s) [2; 4; 6; 8; 10]%Z
  /\ NoDup (Pool.collected s)
  /\ Pool.closer s = Pool.CGone.
Proof.
  intros H D. pose proof (reachable _ tr H) as I.
  assert (W : Pool.numWorkers Pool.small_config >= 1) by (simpl; lia).
  destruct (drained_results I (fun f => f) W D) as [_ P].
  change (map double (Pool.jobList Pool.small_config))
    with [2; 4; 6; 8; 10]%Z in P.
  split; [exact P|]. split.
  - apply Permutation_NoDup with (l := [2; 4; 6; 8; 10]%Z).
    + symmetry. exact P.
    + repeat constructor; simpl; intuition discriminate.
  - destruct (drained_closed I D) as (_ & CG & _). exact CG.
Qed.



Lemma five_jobs_doubled_witness :
  exists s, Pool.exec (Pool.init Pool.small_config) Pool.small_trace = Next s
            /\ Pool.drained s = true
            /\ Permutation (Pool.collected s) [2; 4; 6; 8; 10]%Z.
Proof.
  exists (Pool.run 200 (Pool.init Pool.small_config)).
  split; [vm_compute; reflexivity|]. split; [vm_compute; reflexivity|].
  apply (@five_jobs_doubled Pool.small_trace).
  - vm_compute; reflexivity.
  - vm_compute; reflexivity.
Defined.

(** The order of the Results is the scheduler's: on another schedule of
    the same pool 4 arrives before 2. *)
Lemma results_order_is_the_schedulers :
  exists s1 s2,
    Pool.exec (Pool.init Pool.small_config) Pool.small_trace = Next s1
    /\ Pool.exec (Pool.init Pool.small_config) Pool.overtaking_trace
       = Next s2
    /\ Pool.drained s1 = true /\ Pool.drained s2 = true
    /\ Pool.collected s1 = [2; 4; 6; 8; 10]%Z
    /\ Pool.collected s2 = [4; 2; 6; 8; 10]%Z.
Proof.
  do 2 eexists. split; [vm_compute; reflexivity|].
  split; [vm_compute; reflexivity|]. repeat split; reflexivity.
Qed.

(** What TestWorkerPool checks after its drain loop holds on every
    schedule: each of 2, 4, ..., 20 has been received and the map of
    received values has ten keys. *)
Lemma test_worker_pool_passes tr s :
  Pool.exec (Pool.init Pool.test_config) tr = Next s ->
  Pool.drained s = true ->
  (forall i, (1 <= i <= 10)%Z -> In (i * 2)%Z (Pool.collected s))
  /\ NoDup (Pool.collected s)
  /\ length (Pool.collected s) = 10.
Proof.
  intros H D. pose proof (reachable _ tr H) as I.
  assert (W : Pool.numWorkers Pool.test_config >= 1) by (simpl; lia).
  destruct (drained_results I (fun f => f) W D) as [_ P].
  change (map double (Pool.jobList Pool.test_config))
    with [2; 4; 6; 8; 10; 12; 14; 16; 18; 20]%Z in P.
  split; [|split].
  - intros i R. apply Permutation_in with (1 := Permutation_sym P).
    assert (i = 1 \/ i = 2 \/ i = 3 \/ i = 4 \/ i = 5 \/ i = 6 \/ i = 7
            \/ i = 8 \/ i = 9 \/ i = 10)%Z as E by lia.
    simpl. intuition (subst; auto).
  - apply Permutation_NoDup with (1 := Permutation_sym P).
    repeat constructor; simpl; intuition discriminate.
  - apply (Permutation_length P).
Qed.

(** C4, as stated, fails: on the pool whose intake has just been closed,
    [jobs <- 7] panics; it does not come back with an error value. *)
Lemma submit_after_close_not_recoverable :
  exists s, Pool.exec (Pool.init Pool.idle_config) [Pool.ASender] = Next s
            /\ Chan.closed (Pool.jobs s) = true
            /\ Pool.submit 7 s = Panic "send on closed channel"
            /\ ~ Pool.recoverable s (Pool.submit 7 s).
Proof.
  eexists. split; [vm_compute; reflexivity|].
  split; [reflexivity|]. split; [reflexivity|].
  intros (s' & H & _). vm_compute in H. discriminate.
Qed.

(** C4, amended. For every Job, a Submit ([jobs <- j]) after CloseIntake
    ([close(jobs)]) fails with the run-time panic "send on closed
    channel": no state to continue from is produced, and the failure is
    not a recoverable result. *)
Theorem submit_after_close_panics (s : Pool.state) (j : Z) :
  Chan.closed (Pool.jobs s) = true ->
  Pool.submit j s = Panic "send on closed channel"
  /\ ~ Pool.recoverable s (Pool.submit j s).
Proof.
  intros C.
  assert (E : Pool.submit j s = Panic "send on closed channel").
  { unfold Pool.submit, Chan.send. rewrite C. reflexivity. }
  split; [exact E|]. intros (s' & H & _). rewrite E in H. discriminate.
Qed.

Lemma submit_after_close_panics_witness :
  Chan.closed (Pool.jobs (Pool.run 1 (Pool.init Pool.idle_config))) = true
  /\ Pool.submit 7 (Pool.run 1 (Pool.init Pool.idle_config))
     = Panic "send on closed channel".
Proof.
  split; [reflexivity|].
  apply (@submit_after_close_panics
           (Pool.run 1 (Pool.init Pool.idle_config)) 7).
  reflexivity.
Defined.

(** The senders of the test files never get there: their [close(jobs)]
    runs after the last send. *)
Lemma sender_never_sends_after_close cfg tr s m :
  Pool.exec (Pool.init cfg) tr = Next s -> Pool.step s Pool.ASender <> Panic m.
Proof. intros H. apply step_no_panic with (1 := reachable _ _ H). Qed.

(** ** Contexts *)

Section CtxFacts.
Import Ctx.

Lemma cancel_with_done e c : done (cancel_with e c) = true.
Proof. unfold cancel_with, done. destruct (err c) eqn:E; simpl; auto.
       rewrite E. reflexivity. Qed.

Lemma cancel_with_cancelled e c :
  done c = true -> cancel_with e c = c.
Proof. unfold cancel_with, done. destruct (err c); [auto|discriminate]. Qed.

Lemma cancel_with_twice e1 e2 c :
  cancel_with e2 (cancel_with e1 c) = cancel_with e1 c.
Proof. apply cancel_with_cancelled, cancel_with_done. Qed.

Lemma cancel_iter n c : Nat.iter (S n) cancel c = cancel c.
Proof.
  induction n as [|n IH]; [reflexivity|].
  change (Nat.iter (S (S n)) cancel c)
    with (cancel (Nat.iter (S n) cancel c)).
  rewrite IH. apply cancel_with_twice.
Qed.

(** TestContextCancellation, "Context timeout": the deadline cancels the
    context and the deferred [cancel()] then finds it cancelled;
    [ctx.Err()] stays [DeadlineExceeded]. *)
Lemma deferred_cancel_after_timeout :
  cancel (cancel_with DeadlineExceeded background)
  = cancel_with DeadlineExceeded background
  /\ err (cancel (cancel_with DeadlineExceeded background))
     = Some DeadlineExceeded.
Proof. split; reflexivity. Qed.

End CtxFacts.

(** ** The pool with the cancellation overlay *)

Section CancelPoolFacts.
Import Chan CancelPool.

Variable cfg : Pool.config.

Lemma inv_weaken (P Q : Prop) s :
  (P -> Q) -> Pool.Inv P cfg s -> Pool.Inv Q cfg s.
Proof.
  intros PQ [ ]. constructor; auto.
  intros w Hw Hl. destruct (inv_left w Hw Hl); tauto.
Qed.

Lemma lift_next s o s' :
  lift s o = Next s' -> exists p, o = Next p /\ s' = mkState p (token s).
Proof.
  unfold lift. intros H. apply obind_next in H.
  destruct H as (p & H1 & H2). inversion H2. eauto.
Qed.

Lemma lift_panic s o m : lift s o = Panic m -> o = Panic m.
Proof.
  unfold lift. intros H. apply obind_panic in H.
  destruct H as [H | (p & _ & H)]; [assumption|discriminate].
Qed.

Lemma init_cinv : Inv cfg (init cfg).
Proof. apply init_inv. Qed.

Lemma abandon_inv (P : Prop) i s :
  P -> Pool.Inv P cfg s ->
  nth_error (Pool.workers s) i = Some Pool.WRange ->
  Pool.Inv P cfg (Pool.set_worker i Pool.WDefer s).
Proof.
  intros HP I E. destruct I; destruct s; simpl in *.
  unfold Pool.set_worker; simpl.
  destruct (@update_split _ _ _ _ Pool.WDefer E)
    as (l1 & l2 & -> & -> & L).
  autorewrite with pool_lists in *; simpl in *.
  constructor; simpl; autorewrite with pool_lists; simpl; auto.
Qed.

Ltac via_pool H I lem :=
  let p := fresh "p" in
  apply lift_next in H; destruct H as (p & H & ->); simpl;
  eapply lem; [exact I | exact H].

Lemma step_cinv s a s' : Inv cfg s -> step s a = Next s' -> Inv cfg s'.
Proof.
  unfold Inv. intros I H. destruct a as [|a]; simpl in H.
  - inversion H; subst; simpl.
    apply inv_weaken with (2 := I). intros _. apply cancel_with_done.
  - destruct a; simpl in H.
    + via_pool H I sender_inv.
    + unfold step_worker in H.
      destruct (nth_error (Pool.workers (pool s)) i) as [[ | | | ]|] eqn:E;
        try (via_pool H I worker_inv).
      destruct (Ctx.done (token s)) eqn:D.
      * inversion H; subst; simpl. rewrite D.
        apply abandon_inv; [reflexivity | exact I | assumption].
      * apply lift_next in H; destruct H as (p & H & ->); simpl.
        rewrite D. eapply worker_inv; [exact I | exact H].
    + via_pool H I closer_inv.
    + via_pool H I collector_inv.
    + destruct (Ctx.done (token s)) eqn:D; [discriminate|].
      apply lift_next in H; destruct H as (p & H & ->); simpl.
      rewrite D. eapply hand_job_inv; [exact I | exact H].
    + via_pool H I hand_result_inv.
Qed.

Lemma exec_cinv tr : forall s s',
  Inv cfg s -> exec s tr = Next s' -> Inv cfg s'.
Proof.
  induction tr as [|a tr IH]; simpl; intros s s' I H.
  - inversion H; subst; assumption.
  - apply obind_next in H. destruct H as (s1 & H1 & H2).
    eapply IH; [eapply step_cinv|]; eauto.
Qed.

Lemma step_c_no_panic s a m : Inv cfg s -> step s a <> Panic m.
Proof.
  unfold Inv. intros I H. destruct a as [|a]; simpl in H; [discriminate|].
  destruct a; simpl in H;
    try (apply lift_panic in H; revert H;
         first [ apply (step_no_panic Pool.ASender I)
               | apply (step_no_panic Pool.ACloser I)
               | apply (step_no_panic Pool.ACollector I)
               | apply (step_no_panic (Pool.AHandResult i) I) ]).
  - unfold step_worker in H.
    destruct (nth_error (Pool.workers (pool s)) i) as [[ | | | ]|] eqn:E;
      try (apply lift_panic in H; revert H;
           apply (step_no_panic (Pool.AWorker i) I)).
    destruct (Ctx.done (token s)); [discriminate|].
    apply lift_panic in H; revert H.
    apply (step_no_panic (Pool.AWorker i) I).
  - destruct (Ctx.done (token s)); [discriminate|].
    apply lift_panic in H; revert H.
    apply (step_no_panic (Pool.AHandJob i) I).
Qed.

Lemma exec_c_no_panic tr : forall s m, Inv cfg s -> exec s tr <> Panic m.
Proof.
  induction tr as [|a tr IH]; simpl; intros s m I H; [discriminate|].
  apply obind_panic in H. destruct H as [H | (s1 & H1 & H2)].
  - exact (step_c_no_panic _ I H).
  - exact (IH _ _ (step_cinv _ I H1) H2).
Qed.

Lemma lift_eq s p : lift s (Next p) = Next (mkState p (token s)).
Proof. reflexivity. Qed.

(** While the token is not set the overlay changes nothing. *)
Lemma step_not_cancelled s a :
  Ctx.done (token s) = false ->
  step s (APool a) = lift s (Pool.step (pool s) a).
Proof.
  intros D. destruct a; simpl; try reflexivity.
  - unfold step_worker. rewrite D.
    destruct (nth_error (Pool.workers (pool s)) i) as [[ | | | ]|];
      reflexivity.
  - rewrite D. reflexivity.
Qed.

Ltac cfire a :=
  exists a; eexists; simpl;
  unfold step_worker, lift, Pool.step_sender, Pool.submit,
    Pool.close_intake, Pool.step_worker, Pool.step_closer,
    Pool.step_collector, Pool.step_hand_job, Pool.step_hand_result,
    send, recv, close, rendezvous;
  repeat match goal with
         | H : _ = _ |- _ => rewrite H
         end; simpl; try reflexivity.

Lemma c_progress s :
  Inv cfg s -> Pool.gathering (pool s) = true ->
  Pool.drained (pool s) = false ->
  exists a s', step s (APool a) = Next s'.
Proof.
  intros I G D. destruct (Ctx.done (token s)) eqn:T.
  - unfold Inv in I. rewrite T in I.
    destruct (buf (Pool.results (pool s))) as [|v r] eqn:RB;
      [|cfire Pool.ACollector].
    destruct (closed (Pool.results (pool s))) eqn:RC;
      [cfire Pool.ACollector|].
    pose proof (Pool.inv_results_closed I) as R. rewrite RC in R.
    destruct (Pool.closer (pool s)) eqn:CL;
      [|clear R; cfire Pool.ACloser|discriminate].
    destruct (Pool.wg (pool s)) as [|n] eqn:WG;
      [clear R; cfire Pool.ACloser|].
    destruct (@active_worker (Pool.workers (pool s)))
      as (i & w & Hi & Hw).
    { rewrite <- (Pool.inv_wg I). lia. }
    clear R. destruct w as [|job| |]; [| | |congruence].
    + cfire (Pool.AWorker i).
    + destruct (cap (Pool.results (pool s))) as [|c] eqn:CR;
        [cfire (Pool.AHandResult i) | cfire (Pool.AWorker i)].
    + cfire (Pool.AWorker i).
  - destruct (progress I G D) as (a & p & H).
    exists a, (mkState p (token s)).
    rewrite (@step_not_cancelled _ a T), H. reflexivity.
Qed.

Lemma abandon_measure i s :
  nth_error (Pool.workers s) i = Some Pool.WRange ->
  Pool.measure (Pool.set_worker i Pool.WDefer s) < Pool.measure s.
Proof.
  intros E. destruct s; simpl in *. unfold Pool.measure; simpl.
  destruct (@update_split _ _ _ _ Pool.WDefer E)
    as (l1 & l2 & -> & -> & L).
  autorewrite with pool_lists; simpl. lia.
Qed.

Lemma step_c_measure s a s' :
  step s (APool a) = Next s' ->
  Pool.measure (pool s') < Pool.measure (pool s).
Proof.
  intros H. destruct (Ctx.done (token s)) eqn:T.
  - destruct a; simpl in H;
      try (apply lift_next in H; destruct H as (p & H & ->); simpl;
           first [ apply (step_measure _ Pool.ASender H)
                 | apply (step_measure _ Pool.ACloser H)
                 | apply (step_measure _ Pool.ACollector H)
                 | apply (step_measure _ (Pool.AHandResult i) H) ]).
    + unfold step_worker in H. rewrite T in H.
      destruct (nth_error (Pool.workers (pool s)) i) as [[ | | | ]|] eqn:E;
        try (apply lift_next in H; destruct H as (p & H & ->); simpl;
             apply (step_measure _ (Pool.AWorker i) H)).
      inversion H; subst; simpl. apply abandon_measure. assumption.
    + rewrite T in H. discriminate.
  - rewrite (@step_not_cancelled _ a T) in H.
    apply lift_next in H; destruct H as (p & H & ->); simpl.
    apply (step_measure _ _ H).
Qed.

Lemma exec_c_measure tr : forall s s',
  exec s tr = Next s' ->
  length (filter is_pool_action tr) + Pool.measure (pool s')
  <= Pool.measure (pool s).
Proof.
  induction tr as [|a tr IH]; simpl; intros s s' H.
  - inversion H; subst; lia.
  - apply obind_next in H. destruct H as (s1 & H1 & H2).
    apply IH in H2. destruct a as [|a]; simpl.
    + inversion H1; subst; simpl in *. lia.
    + apply step_c_measure in H1. lia.
Qed.

(** Once the token is set it stays as it is, nothing is dequeued any
    more and what sits in the intake stays there. *)
Lemma cancelled_step s a s' :
  Ctx.done (token s) = true -> step s a = Next s' ->
  token s' = token s
  /\ Pool.delivered (pool s') = Pool.delivered (pool s)
  /\ exists more,
       buf (Pool.jobs (pool s')) = buf (Pool.jobs (pool s)) ++ more.
Proof.
  intros T H. destruct a as [|a]; simpl in H.
  - inversion H; subst; unfold cancel; simpl.
    split; [apply cancel_with_cancelled; assumption|].
    split; [reflexivity|]. exists []. rewrite app_nil_r. reflexivity.
  - destruct a; simpl in H; unfold step_worker in H; rewrite ?T in H;
      try discriminate.
    all: try match type of H with
         | context [nth_error ?l ?i] =>
             destruct (nth_error l i) as [[ | | | ]|] eqn:?
         end.
    all: try (inversion H; subst; simpl;
              split; [reflexivity|]; split; [reflexivity|];
              exists []; rewrite app_nil_r; reflexivity).
    all: apply lift_next in H; destruct H as (p & H & ->); simpl;
      split; [reflexivity|].
    all: unfold Pool.step_sender, Pool.submit, Pool.close_intake,
           Pool.step_worker, Pool.step_closer, Pool.step_collector,
           Pool.step_hand_result in H;
      destruct (pool s); simpl in *;
      repeat match goal with
      | H : obind _ _ = Next _ |- _ =>
          apply obind_next in H; destruct H as (? & ? & H)
      | H : ?lhs = Next _ |- _ =>
          match lhs with
          | context [match ?x with _ => _ end] =>
              destruct x eqn:?; try discriminate H
          end
      | H : send _ _ = Next _ |- _ =>
          apply send_next in H; destruct H as (? & ? & ?)
      | H : close _ = Next _ |- _ =>
          apply close_next in H; destruct H as (? & ?)
      | H : Next _ = Next _ |- _ => inversion H; clear H
      end; subst; simpl in *; try congruence.
    all: split; [reflexivity|]; eauto using app_nil_r.
Qed.

Lemma cancelled_exec tr : forall s s',
  Ctx.done (token s) = true -> exec s tr = Next s' ->
  token s' = token s
  /\ Pool.delivered (pool s') = Pool.delivered (pool s)
  /\ exists more,
       buf (Pool.jobs (pool s')) = buf (Pool.jobs (pool s)) ++ more.
Proof.
  induction tr as [|a tr IH]; simpl; intros s s' T H.
  - inversion H; subst. repeat split. exists []. symmetry. apply app_nil_r.
  - apply obind_next in H. destruct H as (s1 & H1 & H2).
    destruct (@cancelled_step s a s1 T H1) as (T1 & D1 & m1 & B1).
    destruct (IH _ _ (eq_trans (f_equal Ctx.done T1) T) H2)
      as (T2 & D2 & m2 & B2).
    split; [congruence|]. split; [congruence|].
    exists (m1 ++ m2). rewrite B2, B1, app_assoc. reflexivity.
Qed.

Lemma sender_goroutine_gathering s :
  Pool.inlineSend cfg = false -> Inv cfg s ->
  Pool.gathering (pool s) = true.
Proof.
  intros N I. destruct (Pool.gathering (pool s)) eqn:G; [reflexivity|].
  destruct (Pool.inv_gathering I G) as (Y & _). congruence.
Qed.

Lemma c_can_finish n : forall s,
  Pool.inlineSend cfg = false ->
  Pool.measure (pool s) <= n -> Inv cfg s ->
  exists tr s', exec s tr = Next s' /\ Pool.drained (pool s') = true.
Proof.
  induction n as [|n IH]; intros s N M I.
  - destruct (Pool.drained (pool s)) eqn:D; [exists [], s; auto|].
    unfold Pool.measure in M. rewrite D in M. lia.
  - destruct (Pool.drained (pool s)) eqn:D; [exists [], s; auto|].
    destruct (c_progress I (sender_goroutine_gathering N I) D)
      as (a & s1 & H1).
    pose proof (step_c_measure _ _ H1) as M1.
    destruct (IH s1) as (tr & s' & H2 & D2);
      [assumption | lia | eapply step_cinv; eauto |].
    exists (APool a :: tr), s'. simpl in *. rewrite H1. simpl. auto.
Qed.

(** Results only come from dequeued Jobs. *)
Lemma results_from_deliveries (P : Prop) s :
  Pool.Inv P cfg s ->
  length (Pool.collected s) <= length (Pool.delivered s)
  /\ length (Pool.delivered s) <= length (Pool.jobList cfg).
Proof.
  intros I. pose proof (Pool.inv_flow I) as Fl.
  pose proof (Pool.inv_fifo I) as F.
  apply Permutation_length in Fl. apply (f_equal (@length Z)) in F.
  autorewrite with pool_lists in *. rewrite !length_map in *. lia.
Qed.

End CancelPoolFacts.

(** C7. Cancel is idempotent: from every state of the pool, one or more
    calls leave the state one call leaves, with the token set; every
    later step of the pool then behaves the same; and no execution
    resets the token once it is set. *)
Theorem cancel_idempotent (s : CancelPool.state) (n : nat) :
  n >= 1 ->
  Nat.iter n CancelPool.cancel s = CancelPool.cancel s
  /\ CancelPool.exec s (repeat CancelPool.ACancel n)
     = Next (CancelPool.cancel s)
  /\ Ctx.done (CancelPool.token (CancelPool.cancel s)) = true
  /\ (forall a, CancelPool.step (Nat.iter n CancelPool.cancel s) a
                = CancelPool.step (CancelPool.cancel s) a)
  /\ (forall tr s', CancelPool.exec (CancelPool.cancel s) tr = Next s' ->
        CancelPool.token s' = CancelPool.token (CancelPool.cancel s)).
Proof.
  intros N.
  assert (It : forall k, Nat.iter (S k) CancelPool.cancel s
                         = CancelPool.cancel s).
  { induction k as [|k IH]; [reflexivity|].
    change (Nat.iter (S (S k)) CancelPool.cancel s)
      with (CancelPool.cancel (Nat.iter (S k) CancelPool.cancel s)).
    rewrite IH. unfold CancelPool.cancel; simpl. f_equal.
    apply cancel_with_twice. }
  assert (Ex : forall k t, CancelPool.exec t (repeat CancelPool.ACancel k)
                           = Next (Nat.iter k CancelPool.cancel t)).
  { induction k as [|k IH]; intros t; [reflexivity|].
    simpl. rewrite IH. f_equal.
    clear. induction k as [|k IH]; [reflexivity|]. simpl. f_equal. exact IH. }
  destruct n as [|k]; [lia|].
  split; [apply It|]. split; [rewrite Ex; f_equal; apply It|].
  split; [apply cancel_with_done|]. split; [intros a; rewrite It; auto|].
  intros tr s' H.
  assert (T : Ctx.done (CancelPool.token (CancelPool.cancel s)) = true)
    by apply cancel_with_done.
  apply (cancelled_exec tr _ T H).
Qed.

Lemma cancel_idempotent_witness :
  Nat.iter 3 CancelPool.cancel (CancelPool.init Pool.test_config)
  = CancelPool.cancel (CancelPool.init Pool.test_config).
Proof.
  apply (@cancel_idempotent (CancelPool.init Pool.test_config) 3). lia.
Defined.

(** C8. Ten Jobs handed to the pool, whose Source and Collector are tasks
    of their own, and Cancel called before any dequeue
    has completed: whatever happens next, the collector holds between 0
    and 10 Results, nothing is dequeued any more and the Jobs sitting in
    the intake stay there, no step panics, the pool's steps are bounded
    and some goroutine of the pool can run until the drain has ended,
    and the end of the drain is the Closed state, which can be reached. *)
Theorem cancel_before_any_dequeue cfg tr1 s1 tr2 s2 :
  Pool.inlineSend cfg = false ->
  length (Pool.jobList cfg) = 10 ->
  CancelPool.exec (CancelPool.init cfg) tr1 = Next s1 ->
  Pool.delivered (CancelPool.pool s1) = [] ->
  CancelPool.exec (CancelPool.cancel s1) tr2 = Next s2 ->
  (0 <= length (Pool.collected (CancelPool.pool s2)) <= 10)
  /\ Pool.delivered (CancelPool.pool s2) = []
  /\ (exists more,
        Chan.buf (Pool.jobs (CancelPool.pool s2))
        = Chan.buf (Pool.jobs (CancelPool.pool s1)) ++ more)
  /\ (forall tr m, CancelPool.exec s2 tr <> Panic m)
  /\ length (filter CancelPool.is_pool_action tr2)
     + Pool.measure (CancelPool.pool s2)
     <= Pool.measure (CancelPool.pool s1)
  /\ (Pool.drained (CancelPool.pool s2) = false ->
      exists a s3, CancelPool.step s2 (CancelPool.APool a) = Next s3)
  /\ (Pool.drained (CancelPool.pool s2) = true -> CancelPool.pool_closed s2)
  /\ (exists tr3 s3, CancelPool.exec s2 tr3 = Next s3
                     /\ CancelPool.pool_closed s3).
Proof.
  intros G N H1 D1 H2.
  pose proof (exec_cinv _ (init_cinv cfg) H1) as I1.
  assert (Ic : CancelPool.Inv cfg (CancelPool.cancel s1)).
  { apply step_cinv with (s := s1) (a := CancelPool.ACancel);
      [exact I1 | reflexivity]. }
  pose proof (exec_cinv _ Ic H2) as I2.
  assert (Tc : Ctx.done (CancelPool.token (CancelPool.cancel s1)) = true)
    by apply cancel_with_done.
  destruct (cancelled_exec tr2 _ Tc H2) as (T & D & B).
  simpl in D, B. rewrite D1 in D.
  destruct (results_from_deliveries I2) as [R1 R2].
  split; [lia|]. split; [exact D|]. split; [exact B|].
  split; [intros tr m; apply exec_c_no_panic with (1 := I2)|].
  split; [apply (exec_c_measure _ _ H2)|].
  split; [apply c_progress with (1 := I2);
          apply sender_goroutine_gathering with (cfg := cfg); assumption|].
  split; [apply drained_closed with (1 := I2)|].
  destruct (c_can_finish G (le_n _) I2) as (tr3 & s3 & H3 & D3).
  exists tr3, s3. split; [exact H3|].
  apply drained_closed with (1 := exec_cinv _ I2 H3). exact D3.
Qed.

Lemma cancel_before_any_dequeue_witness :
  exists s2,
    CancelPool.exec (CancelPool.cancel CancelPool.after_ten)
                    CancelPool.after_cancel_trace = Next s2
    /\ Pool.drained (CancelPool.pool s2) = true
    /\ Pool.delivered (CancelPool.pool s2) = []
    /\ 0 <= length (Pool.collected (CancelPool.pool s2)) <= 10.
Proof.
  exists (CancelPool.run 200 (CancelPool.cancel CancelPool.after_ten)).
  split; [vm_compute; reflexivity|]. split; [vm_compute; reflexivity|].
  destruct (@cancel_before_any_dequeue Pool.pattern_config
              CancelPool.ten_submitted CancelPool.after_ten
              CancelPool.after_cancel_trace
              (CancelPool.run 200 (CancelPool.cancel CancelPool.after_ten)))
    as (R & D & _).
  - reflexivity.
  - reflexivity.
  - vm_compute; reflexivity.
  - reflexivity.
  - vm_compute; reflexivity.
  - split; [exact D | exact R].
Defined.

(** ** sleepAndTalk *)

Section TalkFacts.
Import Talk.

Ltac talk_open :=
  unfold can_proceed, wake, polls, first_ready, timer_fires, ctx_at in *.

Ltac talk_split :=
  repeat match goal with
         | |- context [(?a <=? ?b)%Z] => destruct (Z.leb_spec a b)
         end;
  simpl; try reflexivity; try lia.

Lemma can_proceed_cases l d w c :
  In c (can_proceed l d w) ->
  (c = CaseTimer /\ (timer_fires d w <= wake l d w)%Z)
  \/ (c = CaseDone
      /\ exists t e, l = Some (t, e) /\ (t <= wake l d w)%Z).
Proof.
  unfold can_proceed. intros H.
  apply in_app_iff in H. destruct H as [H | H].
  - destruct (Z.leb_spec (timer_fires d w) (wake l d w)) as [L|L];
      [|contradiction].
    destruct H as [<- | []]. left. auto.
  - destruct l as [[t e]|]; [|simpl in H; contradiction].
    unfold ctx_at in H.
    destruct (Z.leb_spec t (wake (Some (t, e)) d w)) as [L|L];
      [|simpl in H; contradiction].
    simpl in H. destruct H as [<- | []].
    right. split; [reflexivity|]. exists t, e. auto.
Qed.

(** The [select] always finds a case to take. *)
Lemma can_proceed_returns l d w : can_proceed l d w <> [].
Proof.
  destruct l as [[t e]|]; talk_open; talk_split; discriminate.
Qed.

(** Cancelled before [d] elapses, and the [select] reached before [d]
    elapses: only [ctx.Done()] is ready, however late the timer. *)
Lemma only_done t e d w :
  (t < d)%Z -> (0 < d)%Z -> (look w < d)%Z ->
  can_proceed (Some (t, e)) d w = [CaseDone].
Proof. intros T D L. talk_open; talk_split. Qed.

(** The timer's channel ready before the cancellation, and the [select]
    reached before the cancellation: only the timer is ready. *)
Lemma only_timer l d w :
  l = None
  \/ (exists t e, l = Some (t, e)
                  /\ (timer_fires d w < t)%Z /\ (polls w < t)%Z) ->
  can_proceed l d w = [CaseTimer].
Proof.
  intros [-> | (t & e & -> & D & L)]; talk_open; talk_split.
Qed.

(** Both channels ready as the [select] looks at them, or becoming ready
    at the same instant. *)
Lemma both_ready t e d w :
  ((timer_fires d w <= polls w)%Z /\ (t <= polls w)%Z)
  \/ t = timer_fires d w ->
  can_proceed (Some (t, e)) d w = [CaseTimer; CaseDone].
Proof.
  intros [[D T] | ->]; talk_open; talk_split.
Qed.

Lemma done_line t e d w msg :
  (t <= wake (Some (t, e)) d w)%Z ->
  run_case (Some (t, e)) d w msg CaseDone = [Ctx.error_string e].
Proof.
  intros L. unfold run_case, ctx_at. apply Z.leb_le in L. rewrite L.
  reflexivity.
Qed.

Lemma wake_after_cancel t e d w :
  In CaseDone (can_proceed (Some (t, e)) d w) ->
  (t <= wake (Some (t, e)) d w)%Z.
Proof.
  intros H. apply can_proceed_cases in H.
  destruct H as [[H _] | (_ & t' & e' & E & L)]; [discriminate|].
  inversion E; subst. assumption.
Qed.

Lemma sleepAndTalk_cases l d w msg log :
  In log (sleepAndTalk l d w msg) ->
  (log = [msg] /\ In CaseTimer (can_proceed l d w))
  \/ (exists t e, l = Some (t, e) /\ log = [Ctx.error_string e]
                  /\ In CaseDone (can_proceed l d w)).
Proof.
  unfold sleepAndTalk. intros H.
  apply in_map_iff in H. destruct H as (c & <- & H).
  destruct (can_proceed_cases _ _ _ _ H)
    as [[-> _] | (-> & t & e & -> & L)].
  - left. auto.
  - right. exists t, e. split; [reflexivity|].
    split; [apply done_line; assumption | assumption].
Qed.

Lemma sleepAndTalk_returns l d w msg : sleepAndTalk l d w msg <> [].
Proof.
  unfold sleepAndTalk. pose proof (can_proceed_returns l d w) as R.
  destruct (can_proceed l d w); [contradiction | discriminate].
Qed.

Lemma sleepAndTalk_done t e d w msg :
  can_proceed (Some (t, e)) d w = [CaseDone] ->
  sleepAndTalk (Some (t, e)) d w msg = [[Ctx.error_string e]].
Proof.
  intros C. unfold sleepAndTalk. rewrite C. cbn [map]. f_equal.
  apply done_line. apply wake_after_cancel. rewrite C. left. reflexivity.
Qed.

Lemma sleepAndTalk_both t e d w msg :
  can_proceed (Some (t, e)) d w = [CaseTimer; CaseDone] ->
  sleepAndTalk (Some (t, e)) d w msg = [[msg]; [Ctx.error_string e]].
Proof.
  intros C. unfold sleepAndTalk. rewrite C. cbn [map]. do 2 f_equal.
  apply done_line. apply wake_after_cancel. rewrite C. right. left.
  reflexivity.
Qed.

End TalkFacts.

(** C10, as stated, fails: with a context cancelled before the call both
    channels are ready when the [select] looks at them, for a zero
    duration and also for a positive one that has elapsed by then (one
    nanosecond, the [select] reached one nanosecond after the timer was
    armed); the run that takes the timer case logs the message. *)
Lemma already_cancelled_zero_sleep_may_talk :
  (Talk.cancelled_before (Some ((-1)%Z, Ctx.Canceled)) 0
   /\ In ["hello"]
         (Talk.sleepAndTalk (Some ((-1)%Z, Ctx.Canceled)) 0
                            Talk.on_time "hello")
   /\ ~ Talk.two_branches (Some ((-1)%Z, Ctx.Canceled)) 0
                          Talk.on_time "hello")
  /\ (Talk.cancelled_before (Some ((-1)%Z, Ctx.Canceled)) 1
      /\ In ["hello"]
            (Talk.sleepAndTalk (Some ((-1)%Z, Ctx.Canceled)) 1
                               (Talk.mkLate 1 0) "hello")
      /\ ~ Talk.two_branches (Some ((-1)%Z, Ctx.Canceled)) 1
                             (Talk.mkLate 1 0) "hello").
Proof.
  split.
  - assert (B : Talk.cancelled_before (Some ((-1)%Z, Ctx.Canceled)) 0).
    { exists (-1)%Z, Ctx.Canceled. split; [reflexivity|lia]. }
    split; [exact B|]. split; [left; reflexivity|].
    intros C. destruct (C ["hello"]) as [C1 _]; [left; reflexivity|].
    destruct (C1 B) as [_ N]. apply N. left. reflexivity.
  - assert (B : Talk.cancelled_before (Some ((-1)%Z, Ctx.Canceled)) 1).
    { exists (-1)%Z, Ctx.Canceled. split; [reflexivity|lia]. }
    split; [exact B|]. split; [left; reflexivity|].
    intros C. destruct (C ["hello"]) as [C1 _]; [left; reflexivity|].
    destruct (C1 B) as [_ N]. apply N. left. reflexivity.
Qed.

(** C10, amended. [sleepAndTalk] returns, through exactly one of its two
    branches: it logs one line, the message or [ctx.Err()].  The timer
    is armed as the [select] is entered, and the goroutine looks at the
    two channels some time later.  A context cancelled before [d]
    elapses gives [ctx.Err()] and never the message when [d] is
    positive and the [select] is reached before [d] has elapsed; a
    context never cancelled, or cancelled only after the timer's
    channel is ready and after the [select] has been reached, gives the
    message, once.  When both channels are ready as the [select] looks
    at them, or become ready at the same instant, either line can be
    the one logged.  The default [main], cancelling after one second a
    five second sleep, takes the cancellation branch when the cancel
    function runs less than four seconds late and the [select] is
    reached within the five seconds; with the [select] reached after
    both, it can log either line. *)
Theorem sleepAndTalk_one_branch l d w msg :
  Talk.sleepAndTalk l d w msg <> []
  /\ (forall log, In log (Talk.sleepAndTalk l d w msg) ->
        (log = [msg]
         \/ exists t e, l = Some (t, e) /\ log = [Ctx.error_string e])
        /\ (forall t e, l = Some (t, e) ->
              (t < d)%Z -> (0 < d)%Z -> (Talk.look w < d)%Z ->
              log = [Ctx.error_string e])
        /\ (l = None
            \/ (exists t e, l = Some (t, e)
                            /\ (Talk.timer_fires d w < t)%Z
                            /\ (Talk.polls w < t)%Z) ->
            log = [msg]))
  /\ (forall t e, l = Some (t, e) ->
        ((Talk.timer_fires d w <= Talk.polls w)%Z
         /\ (t <= Talk.polls w)%Z)
        \/ t = Talk.timer_fires d w ->
        In [msg] (Talk.sleepAndTalk l d w msg)
        /\ In [Ctx.error_string e] (Talk.sleepAndTalk l d w msg))
  /\ (forall prog skew,
        (skew < 4 * Talk.second)%Z -> (Talk.look w < 5 * Talk.second)%Z ->
        Talk.main [prog] skew w
        = Some [["started"; "context canceled"]])
  /\ (forall prog skew,
        (Talk.timer_fires (5 * Talk.second) w <= Talk.polls w)%Z ->
        (Talk.second + skew <= Talk.polls w)%Z ->
        Talk.main [prog] skew w
        = Some [["started"; "hello"]; ["started"; "context canceled"]])
  /\ (forall prog, Talk.main [prog] 0 Talk.on_time
                   = Some [["started"; "context canceled"]]).
Proof.
  split; [apply sleepAndTalk_returns|].
  split; [|split; [|split; [|split; [|reflexivity]]]].
  - intros log H. apply sleepAndTalk_cases in H.
    split; [|split].
    + destruct H as [[-> _] | (t & e & -> & -> & _)]; eauto.
    + intros t e -> T D L.
      destruct H as [[_ C] | (t' & e' & E & -> & _)].
      * rewrite only_done in C by assumption.
        destruct C as [C | []]. discriminate.
      * inversion E; subst. reflexivity.
    + intros N. destruct H as [[-> _] | (t' & e' & E & -> & C)];
        [reflexivity|].
      rewrite only_timer in C by assumption.
      destruct C as [C | []]. discriminate.
  - intros t e -> B.
    rewrite (@sleepAndTalk_both t e d w msg (@both_ready t e d w B)).
    split; [left | right; left]; reflexivity.
  - intros prog skew S L. unfold Talk.main.
    rewrite sleepAndTalk_done; [reflexivity|].
    apply only_done; unfold Talk.second in *; lia.
  - intros prog skew F P. unfold Talk.main.
    rewrite sleepAndTalk_both; [reflexivity|].
    apply both_ready. left. auto.
Qed.

(** ** The ring-buffer forwarder *)

Section RingFacts.
Import Chan Ring.

Variable cfg : config.
Hypothesis buffered : capOut cfg >= 1.

Ltac ring_crack :=
  repeat match goal with
  | H : obind _ _ = Next _ |- _ =>
      let E := fresh "E" in
      let a := fresh "a" in
      apply obind_next in H; destruct H as (a & E & H)
  | H : ?lhs = Next _ |- _ =>
      match lhs with
      | context [match ?x with _ => _ end] =>
          let E := fresh "E" in destruct x eqn:E; try discriminate H
      end
  | H : send _ _ = Next _ |- _ =>
      apply send_next in H; destruct H as (? & ? & ?)
  | H : recv _ = Next (Some _, _) |- _ =>
      apply recv_some in H; destruct H as (? & ? & ?)
  | H : recv _ = Next (None, _) |- _ =>
      apply recv_none in H; destruct H as (? & ? & ?)
  | H : close _ = Next _ |- _ =>
      apply close_next in H; destruct H as (? & ?)
  | H : rendezvous _ = true |- _ =>
      apply rendezvous_true in H; destruct H as (? & ?)
  | H : recv _ = Blocked |- _ =>
      apply recv_blocked in H; destruct H as (? & ?)
  | H : send _ _ = Blocked |- _ =>
      apply send_blocked in H; destruct H as (? & ?)
  | H : Next _ = Next _ |- _ => inversion H; clear H
  end.

Lemma ring_init_inv : Inv cfg (init cfg).
Proof.
  constructor; simpl; auto; try lia; try discriminate.
  intros [H|H]; discriminate.
Qed.

Lemma ring_step_inv s a s' :
  Inv cfg s -> step cfg s a = Next s' -> Inv cfg s'.
Proof.
  intros I H. destruct a; simpl in H; destruct (which cfg);
    unfold step_producer, step_forwarder, step_consumer, step_hand_in
      in H;
    destruct I; destruct s; simpl in *; ring_crack; subst; simpl in *.
  all: unfold set_in, set_out, set_offered, set_producer_done, set_fw,
         receive, set_consumer_done, log_drop, log_evict in *;
    simpl in *.
  all: constructor; simpl in *; auto; try congruence; try lia.
  all: try (intros F; assert (L := inv_left0 F); destruct L;
            split; congruence).
  all: try (intros [F|F]; discriminate F).
  all: repeat match goal with
       | Hb : buf _ = _ |- _ => rewrite Hb in *; clear Hb
       end; simpl in *;
    rewrite ?length_app; simpl; try intros ? ?; try lia.
Qed.

Lemma ring_exec_inv tr : forall s s',
  Inv cfg s -> exec cfg s tr = Next s' -> Inv cfg s'.
Proof.
  induction tr as [|a tr IH]; simpl; intros s s' I H.
  - inversion H; subst; assumption.
  - apply obind_next in H. destruct H as (s1 & H1 & H2).
    eapply IH; [eapply ring_step_inv|]; eauto.
Qed.

Lemma ring_step_no_panic s a m : Inv cfg s -> step cfg s a <> Panic m.
Proof.
  intros I H. destruct a; simpl in H; destruct (which cfg);
    unfold step_producer, step_forwarder, step_consumer, step_hand_in
      in H.
  all: repeat match goal with
       | H : obind _ _ = Panic _ |- _ =>
           apply obind_panic in H; destruct H as [H | (? & ? & H)]
       | H : ?lhs = Panic _ |- _ =>
           match lhs with
           | context [match ?x with _ => _ end] =>
               let E := fresh "E" in destruct x eqn:E; try discriminate H
           end
       | H : send _ _ = Panic _ |- _ => apply send_panic in H
       | H : close _ = Panic _ |- _ => apply close_panic in H
       | H : recv _ = Panic _ |- _ =>
           exfalso; revert H; apply recv_no_panic
       end.
  all: try discriminate.
  all: try (pose proof (inv_in_closed I); congruence).
  all: pose proof (inv_out_closed I) as R;
    match goal with E : fw _ = _ |- _ => rewrite E in R end; congruence.
Qed.

Lemma ring_step_measure s a s' :
  step cfg s a = Next s' -> measure s' < measure s.
Proof.
  intros H. destruct a; simpl in H; destruct (which cfg);
    unfold step_producer, step_forwarder, step_consumer, step_hand_in
      in H;
    destruct s; simpl in *; ring_crack; subst; simpl in *.
  all: unfold set_in, set_out, set_offered, set_producer_done, set_fw,
         receive, set_consumer_done, log_drop, log_evict, measure in *;
    simpl in *.
  all: repeat match goal with
       | Hb : buf _ = _ |- _ => rewrite Hb in *; clear Hb
       | |- context [if ?b then _ else _] => destruct b
       end; simpl in *; rewrite ?length_app; simpl; try lia.
Qed.

Lemma ring_exec_measure tr : forall s s',
  exec cfg s tr = Next s' -> length tr + measure s' <= measure s.
Proof.
  induction tr as [|a tr IH]; simpl; intros s s' H.
  - inversion H; subst; lia.
  - apply obind_next in H. destruct H as (s1 & H1 & H2).
    apply ring_step_measure in H1. apply IH in H2. lia.
Qed.

Ltac rfire a :=
  exists a; eexists; simpl;
  unfold step_producer, step_forwarder, step_consumer, step_hand_in,
    send, recv, close, rendezvous;
  repeat match goal with
         | H : _ = _ |- _ => rewrite H
         end; simpl; try reflexivity.

(** The benchmark's forwarder never waits on [outCh], and its producer
    never waits at all. *)
Lemma bench_progress s :
  which cfg = BenchVariant -> Inv cfg s ->
  fw s <> FGone \/ consumer_done s = false ->
  exists a s', step cfg s a = Next s'.
Proof.
  intros B I N.
  pose proof (inv_out_closed I) as OC. pose proof (inv_in_closed I) as IC.
  destruct (fw s) as [|v|v|v| |] eqn:F.
  - destruct (buf (inCh s)) as [|x q] eqn:IB; [|rfire AForwarder].
    destruct (closed (inCh s)) eqn:C; [rfire AForwarder|].
    symmetry in IC.
    destruct (offered s) as [|x rest] eqn:O; [rfire AProducer|].
    exists AProducer. simpl. unfold step_producer, send.
    rewrite IC, O, B, C. destruct (_ <? _); eexists; reflexivity.
  - exists AForwarder. simpl. unfold step_forwarder. rewrite F.
    unfold send. rewrite OC. destruct (_ <? _); eexists; reflexivity.
  - exists AForwarder. simpl. unfold step_forwarder. rewrite F, B.
    unfold recv. destruct (buf (outCh s)); [|eexists; reflexivity].
    rewrite OC. eexists; reflexivity.
  - exists AForwarder. simpl. unfold step_forwarder. rewrite F.
    unfold send. rewrite OC.
    pose proof (inv_room I F) as R. rewrite <- (inv_cap I) in R.
    apply Nat.ltb_lt in R. rewrite R. eexists; reflexivity.
  - rfire AForwarder.
  - destruct N as [N|N]; [congruence|].
    exists AConsumer. simpl. unfold step_consumer, recv. rewrite N.
    destruct (buf (outCh s)); [rewrite OC|]; eexists; reflexivity.
Qed.

End RingFacts.

(** X18. Both copies of the forwarder keep the bounded buffer: [outCh] never
    holds more than its capacity; a forwarder that found it full takes
    the oldest element out, if one is still there, and then appends the
    new one without waiting; [outCh] is closed only after [inCh];
    nothing panics and every run is finite. *)
Lemma forwarder_keeps_bound (cfg : Ring.config) tr s :
  Ring.capOut cfg >= 1 ->
  Ring.exec cfg (Ring.init cfg) tr = Next s ->
  length (Chan.buf (Ring.outCh s)) <= Ring.capOut cfg
  /\ (forall v old rest,
        Ring.fw s = Ring.FEvict v ->
        Chan.buf (Ring.outCh s) = old :: rest ->
        exists s', Ring.step cfg s Ring.AForwarder = Next s'
                   /\ Ring.fw s' = Ring.FPut v
                   /\ Chan.buf (Ring.outCh s') = rest
                   /\ Ring.evicted s' = Ring.evicted s ++ [old])
  /\ (forall v, Ring.fw s = Ring.FPut v ->
        exists s', Ring.step cfg s Ring.AForwarder = Next s'
                   /\ Chan.buf (Ring.outCh s')
                      = Chan.buf (Ring.outCh s) ++ [v])
  /\ (Chan.closed (Ring.outCh s) = true ->
      Chan.closed (Ring.inCh s) = true)
  /\ (forall a m, Ring.step cfg s a <> Panic m)
  /\ length tr + Ring.measure s <= Ring.measure (Ring.init cfg).
Proof.
  intros C H.
  assert (I : Ring.Inv cfg s).
  { eapply ring_exec_inv; [exact C | | exact H].
    apply ring_init_inv; exact C. }
  split; [apply (Ring.inv_bound I)|].
  split; [|split; [|split; [|split]]].
  - intros v old rest F E. eexists. simpl.
    unfold Ring.step_forwarder, Chan.recv. rewrite F, E.
    split; [destruct (Ring.which cfg); reflexivity|]. simpl. auto.
  - intros v F. pose proof (Ring.inv_room I F) as R.
    pose proof (Ring.inv_out_closed I) as OC. rewrite F in OC.
    rewrite <- (Ring.inv_cap I) in R. apply Nat.ltb_lt in R.
    eexists. simpl. unfold Ring.step_forwarder, Chan.send.
    rewrite F, OC, R. simpl. split; reflexivity.
  - intros OC. pose proof (Ring.inv_out_closed I) as E. rewrite OC in E.
    apply (Ring.inv_left I). destruct (Ring.fw s); try discriminate. auto.
  - intros a m. eapply ring_step_no_panic; eassumption.
  - eapply ring_exec_measure; eassumption.
Qed.

(** X19. The benchmark's copy, which empties the full buffer with
    [select { case <-outCh: default: }], never waits on [outCh]: some
    goroutine can run until the forwarder has closed [outCh] and the
    consumer has seen it. *)
Lemma bench_forwarder_never_waits (cfg : Ring.config) tr s :
  Ring.which cfg = Ring.BenchVariant ->
  Ring.capOut cfg >= 1 ->
  Ring.exec cfg (Ring.init cfg) tr = Next s ->
  Ring.fw s <> Ring.FGone \/ Ring.consumer_done s = false ->
  exists a s', Ring.step cfg s a = Next s'.
Proof.
  intros B C H.
  assert (I : Ring.Inv cfg s).
  { eapply ring_exec_inv; [exact C | | exact H].
    apply ring_init_inv; exact C. }
  eapply bench_progress; eassumption.
Qed.

Lemma forwarder_keeps_bound_witness :
  exists s, Ring.exec Ring.test_config (Ring.init Ring.test_config)
              Ring.starving_trace = Next s
            /\ length (Chan.buf (Ring.outCh s)) <= 3.
Proof.
  eexists. split; [vm_compute; reflexivity|].
  apply (@forwarder_keeps_bound Ring.test_config Ring.starving_trace).
  - simpl; lia.
  - vm_compute; reflexivity.
Defined.

Lemma bench_forwarder_never_waits_witness :
  exists s, Ring.exec Ring.bench_config (Ring.init Ring.bench_config)
              Ring.bench_trace = Next s
            /\ exists a s', Ring.step Ring.bench_config s a = Next s'.
Proof.
  eexists. split; [vm_compute; reflexivity|].
  apply (@bench_forwarder_never_waits Ring.bench_config Ring.bench_trace).
  - reflexivity.
  - simpl; lia.
  - vm_compute; reflexivity.
  - left; discriminate.
Defined.

Lemma bench_forwarder_survives_starving :
  exists s, Ring.exec Ring.bench_config (Ring.init Ring.bench_config)
                      Ring.bench_trace = Next s
            /\ Chan.buf (Ring.outCh s) = [4]%Z
            /\ Ring.evicted s = []
            /\ Ring.fw s = Ring.FRange.
Proof.
  eexists. split; [vm_compute; reflexivity|]. repeat split; reflexivity.
Qed.

(** C9 does not hold of TestRingBuffer's copy of the forwarder.  Under
    the schedule [starving_trace] the forwarder has found [outCh] full
    and taken the [default] branch, the consumer has emptied [outCh]
    meanwhile, and the forwarder's [<-outCh] waits for an element nobody
    will send: no goroutine can run, the producer still has 4..9 to hand
    over, and neither channel is ever closed. *)
Theorem test_forwarder_starves :
  exists s,
    Ring.exec Ring.test_config (Ring.init Ring.test_config)
              Ring.starving_trace = Next s
    /\ Ring.deadlocked Ring.test_config s
    /\ Ring.fw s = Ring.FEvict 3
    /\ Chan.buf (Ring.outCh s) = []
    /\ Ring.offered s = [4; 5; 6; 7; 8; 9]%Z
    /\ Ring.received s = [0; 1; 2]%Z
    /\ Chan.closed (Ring.inCh s) = false
    /\ Chan.closed (Ring.outCh s) = false.
Proof.
  eexists. split; [vm_compute; reflexivity|].
  split; [|repeat split; reflexivity].
  split; [discriminate|]. intros a. destruct a; reflexivity.
Qed.

(** ** Lists updated by index, continued *)

Lemma update_length {A} i (x : A) l : length (update i x l) = length l.
Proof.
  revert i; induction l as [|h t IH]; intros [|i]; simpl; auto.
Qed.

Lemma update_nth_same {A} i (x old : A) l :
  nth_error l i = Some old -> nth_error (update i x l) i = Some x.
Proof.
  revert i; induction l as [|h t IH]; intros [|i] H; simpl in *;
    try discriminate; auto.
Qed.

Lemma update_nth_other {A} i j (x : A) l :
  i <> j -> nth_error (update i x l) j = nth_error l j.
Proof.
  revert i j; induction l as [|h t IH]; intros [|i] [|j] H; simpl; auto.
  contradiction.
Qed.

Lemma update_sum {A} (f : A -> nat) i x old l :
  nth_error l i = Some old ->
  list_sum (map f (update i x l)) + f old = list_sum (map f l) + f x.
Proof.
  intros H. destruct (@update_split _ l i old x H) as (l1 & l2 & -> & -> & _).
  rewrite !map_app, !list_sum_app. simpl. lia.
Qed.

Lemma sum_zero_nth {A} (f : A -> nat) l i x :
  list_sum (map f l) = 0 -> nth_error l i = Some x -> f x = 0.
Proof.
  intros H E. apply list_sum_zero_all in H.
  rewrite Forall_forall in H. apply H. apply in_map.
  eapply nth_error_In; eauto.
Qed.

(** ** The fan-in *)

Ltac ocrack :=
  repeat match goal with
  | H : obind _ _ = Next _ |- _ =>
      let E := fresh "E" in
      let a := fresh "a" in
      apply obind_next in H; destruct H as (a & E & H)
  | H : ?lhs = Next _ |- _ =>
      match lhs with
      | context [match ?x with _ => _ end] =>
          let E := fresh "E" in destruct x eqn:E; try discriminate H
      end
  end.

Ltac chan_crack :=
  repeat match goal with
  | H : Chan.send _ _ = Next _ |- _ =>
      apply send_next in H; destruct H as (? & ? & ?)
  | H : Chan.recv _ = Next (Some _, _) |- _ =>
      apply recv_some in H; destruct H as (? & ? & ?)
  | H : Chan.recv _ = Next (None, _) |- _ =>
      apply recv_none in H; destruct H as (? & ? & ?)
  | H : Chan.close _ = Next _ |- _ =>
      apply close_next in H; destruct H as (? & ?)
  | H : Chan.rendezvous _ = true |- _ =>
      apply rendezvous_true in H; destruct H as (? & ?)
  | H : (_ =? _) = true |- _ => apply Nat.eqb_eq in H
  | H : Next _ = Next _ |- _ => inversion H; clear H
  | H : (_ && _) = true |- _ => apply andb_prop in H; destruct H as (? & ?)
  | H : negb _ = true |- _ => apply negb_true_iff in H
  | H : negb _ = false |- _ => apply negb_false_iff in H
  | H : (_ || _) = false |- _ =>
      apply orb_false_elim in H; destruct H as (? & ?)
  end.

Section FanInFacts.
Import Chan FanIn.

Variable cfg : list lane_config.

Lemma through_app i m1 m2 :
  through i (m1 ++ m2) = through i m1 ++ through i m2.
Proof. unfold through. rewrite filter_app, map_app. reflexivity. Qed.

Lemma through_one i j v :
  through i [(j, v)] = if j =? i then [v] else [].
Proof. unfold through. simpl. destruct (j =? i); reflexivity. Qed.

Lemma fan_init_inv : Inv cfg (init cfg).
Proof.
  constructor; simpl; auto; try discriminate.
  - apply length_map.
  - intros i c l Hc Hl. rewrite nth_error_map, Hc in Hl. simpl in Hl.
    inversion Hl; subst l. unfold init_lane.
    destruct (prefilled c); constructor; simpl; auto; try discriminate.
    rewrite app_nil_r; reflexivity.
  - rewrite map_map. induction cfg as [|c t IH]; simpl; auto.
    rewrite IH. unfold init_lane, active. destruct (prefilled c); reflexivity.
  - contradiction.
  - intros ? ? [].
Qed.

(** Changing lane [i] alone. *)
Lemma lane_frame s i l l' m' :
  Inv cfg s ->
  nth_error (lanes s) i = Some l ->
  (forall c, nth_error cfg i = Some c -> lane_ok i c l (merged s) ->
             lane_ok i c l' m') ->
  (forall j, j <> i -> through j m' = through j (merged s)) ->
  forall j c l0, nth_error cfg j = Some c ->
                 nth_error (update i l' (lanes s)) j = Some l0 ->
                 lane_ok j c l0 m'.
Proof.
  intros I E Hi Hj j c l0 Hc Hl.
  destruct (Nat.eq_dec i j) as [<-|N].
  - erewrite update_nth_same in Hl by eassumption. inversion Hl; subst l0.
    apply Hi; auto. eapply inv_lane; eauto.
  - rewrite update_nth_other in Hl by assumption.
    destruct (@inv_lane _ _ I _ _ _ Hc Hl) as [a b c0 d].
    constructor; auto. rewrite Hj by auto. exact d.
Qed.

Lemma lane_in_range s i l :
  Inv cfg s -> nth_error (lanes s) i = Some l -> i < length cfg.
Proof.
  intros I E. rewrite <- (inv_lanes I). apply nth_error_Some. congruence.
Qed.

Lemma lane_has_config s i l :
  Inv cfg s -> nth_error (lanes s) i = Some l ->
  exists c, nth_error cfg i = Some c.
Proof.
  intros I E. destruct (nth_error cfg i) eqn:C; eauto.
  apply nth_error_None in C. pose proof (@lane_in_range _ _ _ I E). lia.
Qed.

Ltac fan_open s :=
  destruct s; simpl in *; ocrack; chan_crack; simpl in *; subst;
  unfold take, set_finished, set_closer, set_wg, close_out, set_lane in *;
  simpl in *;
  try match goal with
      | H : _ < 0 |- _ => inversion H
      | H : [] = _ :: _ |- _ => discriminate H
      end.

Ltac lane_goal Hl Ho :=
  try solve
    [ congruence
    | discriminate
    | let L := fresh "L" in
      intros L; try discriminate L; destruct (Hl L); split; congruence
    | intros; split; congruence
    | repeat match goal with
             | E : feed _ = _ |- _ => rewrite E in Ho
             | E : buf _ = _ |- _ => rewrite E in Ho
             | E : fwd _ = _ |- _ => rewrite E in Ho
             end;
      repeat match goal with
             | E : buf _ = _ |- _ => rewrite E
             end;
      simpl in *; rewrite ?through_app, ?through_one, ?Nat.eqb_refl;
      rewrite <- Ho; simpl; rewrite <- ?app_assoc; simpl;
      rewrite ?app_nil_r; reflexivity ].

Ltac fan_lane I E :=
  eapply (@lane_frame _ _ _ _ _ I E); simpl; auto;
  [ let c := fresh "c" in
    let Hc := fresh "Hc" in
    let Ha := fresh "Ha" in
    let Hb := fresh "Hb" in
    let Hl := fresh "Hl" in
    let Ho := fresh "Ho" in
    intros c Hc [Ha Hb Hl Ho]; unfold held, left_loop in *; simpl in *;
    repeat match goal with
           | F : fwd _ = _ |- _ => rewrite F in Hl
           end;
    constructor; unfold held, left_loop; simpl; auto;
    lane_goal Hl Ho
  | try (let j := fresh "j" in
         let N := fresh "N" in
         intros j N; rewrite through_app, through_one;
         match goal with
         | |- context [?a =? ?b] => destruct (Nat.eqb_spec a b)
         end; [congruence | apply app_nil_r]) .. ].

Ltac fan_sum I E :=
  let W := fresh "W" in
  pose proof (inv_wg I) as W; simpl in W;
  match goal with
  | |- context [update ?i ?x _] =>
      let U := fresh "U" in
      pose proof (@update_sum _ active i x _ _ E) as U;
      unfold active in U at 2 4; simpl in U;
      repeat match goal with
             | F : fwd _ = _ |- _ => rewrite F in U
             end;
      simpl in U; try lia
  end.

Ltac fan_rest I :=
  rewrite ?update_length;
  try apply (inv_closer I); try apply (inv_out I);
  try apply (inv_finished I); try apply (inv_tags I);
  try apply (inv_lanes I); try apply (inv_lane I); try apply (inv_wg I).

Lemma fan_step_inv s a s' :
  Inv cfg s -> step s a = Next s' -> Inv cfg s'.
Proof.
  intros I H. pose proof (inv_out I) as O.
  destruct a as [i|i|i|i| |]; simpl in H;
    unfold step_feed, step_hand_in, step_forward, step_hand_out,
      step_closer, step_consumer in H.
  - (* producer *)
    fan_open s.
    all: constructor; simpl; fan_rest I.
    all: try solve [fan_lane I E].
    all: try solve [fan_sum I E].
  - fan_open s.
    all: constructor; simpl; fan_rest I.
    all: try solve [fan_lane I E].
    all: try solve [fan_sum I E].
  - fan_open s.
    all: constructor; simpl; fan_rest I.
    all: try solve [fan_lane I E].
    all: try solve [fan_sum I E].
    intros C. pose proof (inv_closer I C). discriminate.
  - fan_open s.
    all: constructor; simpl; fan_rest I.
    all: try solve [fan_lane I E].
    all: try solve [fan_sum I E].
    intros j v Hin. apply in_app_iff in Hin. destruct Hin as [Hin|[Hin|[]]].
    + apply (inv_tags I _ _ Hin).
    + inversion Hin; subst. apply (lane_in_range _ I E).
  - fan_open s.
    all: constructor; simpl; fan_rest I.
    all: try (intros; congruence).
    intros _. apply (inv_closer I). discriminate.
  - fan_open s.
    all: constructor; simpl; fan_rest I.
    all: try (intros; congruence).
Qed.

Lemma fan_exec_inv tr : forall s s',
  Inv cfg s -> exec s tr = Next s' -> Inv cfg s'.
Proof.
  induction tr as [|a tr IH]; simpl; intros s s' I H.
  - inversion H; subst; assumption.
  - apply obind_next in H. destruct H as (s1 & H1 & H2).
    eapply IH; [|eassumption]. eapply fan_step_inv; eassumption.
Qed.

Lemma fan_reachable_inv tr s :
  exec (init cfg) tr = Next s -> Inv cfg s.
Proof. apply fan_exec_inv, fan_init_inv. Qed.

(** An open [out] has been closed by nobody: a forwarder still in its
    loop keeps the WaitGroup counter positive. *)
Lemma fan_busy s i l :
  Inv cfg s -> nth_error (lanes s) i = Some l -> fwd l <> LGone ->
  wg s > 0 /\ outClosed s = false.
Proof.
  intros I E N.
  assert (W : wg s > 0).
  { destruct (Nat.eq_dec (wg s) 0) as [Z|]; [|lia].
    rewrite (inv_wg I) in Z.
    pose proof (sum_zero_nth active _ _ Z E) as A. unfold active in A.
    destruct (fwd l); congruence || discriminate. }
  split; [exact W|]. rewrite (inv_out I). simpl.
  destruct (closer s) eqn:C; auto.
  assert (wg s = 0) by (apply (inv_closer I); congruence). lia.
Qed.

Lemma fan_step_no_panic s a m :
  Inv cfg s -> step s a <> Panic m.
Proof.
  intros I H.
  destruct a as [i|i|i|i| |]; simpl in H;
    unfold step_feed, step_hand_in, step_forward, step_hand_out,
      step_closer, step_consumer in H.
  - destruct (nth_error (lanes s) i) as [l|] eqn:E; [|discriminate].
    destruct (lane_has_config _ I E) as (c & Hc).
    destruct (inv_lane I _ Hc E) as [Ha _ _ _].
    destruct (fed l) eqn:F; [discriminate|].
    destruct (feed l); apply obind_panic in H;
      destruct H as [H|(? & _ & H)]; try discriminate.
    + apply close_panic in H. congruence.
    + apply send_panic in H. congruence.
  - destruct (nth_error (lanes s) i) as [l|]; [|discriminate].
    destruct (fed l); [discriminate|].
    destruct (feed l), (fwd l); try discriminate.
    destruct (rendezvous (input l)); discriminate.
  - destruct (nth_error (lanes s) i) as [l|] eqn:E; [|discriminate].
    destruct (fwd l) eqn:F.
    + apply obind_panic in H. destruct H as [H|((r & c) & _ & H)].
      * exact (recv_no_panic _ H).
      * destruct r; discriminate.
    + destruct (@fan_busy s i l I E) as (_ & O); [congruence|].
      rewrite O in H. discriminate.
    + destruct (@fan_busy s i l I E) as [W _]; [congruence|].
      destruct (wg s); [lia|discriminate].
    + discriminate.
  - destruct (nth_error (lanes s) i) as [l|]; [|discriminate].
    destruct (fwd l); try discriminate.
    destruct (negb (finished s) && negb (outClosed s)); discriminate.
  - destruct (closer s) eqn:C; try discriminate.
    + destruct (wg s =? 0); discriminate.
    + rewrite (inv_out I), C in H. discriminate.
  - destruct (finished s); [discriminate|].
    destruct (outClosed s); discriminate.
Qed.

Lemma fan_exec_no_panic tr : forall s m,
  Inv cfg s -> exec s tr <> Panic m.
Proof.
  induction tr as [|a tr IH]; simpl; intros s m I H; [discriminate|].
  apply obind_panic in H. destruct H as [H|(s1 & H1 & H2)].
  - exact (fan_step_no_panic _ I H).
  - eapply IH; [|eassumption]. eapply fan_step_inv; eassumption.
Qed.

Lemma fan_step_measure s a s' :
  Inv cfg s -> step s a = Next s' -> measure s' < measure s.
Proof.
  intros I H. pose proof (inv_out I) as O.
  destruct a as [i|i|i|i| |]; simpl in H;
    unfold step_feed, step_hand_in, step_forward, step_hand_out,
      step_closer, step_consumer in H.
  1-4: fan_open s; unfold measure; simpl;
    match goal with
    | |- context [update ?i ?x _] =>
        let U := fresh "U" in
        pose proof (@update_sum _ lane_weight i x _ _ E) as U;
        unfold lane_weight in U at 2 4; simpl in U;
        repeat match goal with
               | F : fwd _ = _ |- _ => rewrite F in U
               | F : fed _ = _ |- _ => rewrite F in U
               | F : feed _ = _ |- _ => rewrite F in U
               | F : buf _ = _ |- _ => rewrite F in U
               end;
        simpl in U; rewrite ?length_app in U; simpl in U;
        try (destruct (fed _)); lia
    end.
  - fan_open s; unfold measure; simpl; lia.
  - fan_open s; unfold measure; simpl; lia.
Qed.

Lemma fan_exec_measure tr : forall s s',
  Inv cfg s -> exec s tr = Next s' -> length tr + measure s' <= measure s.
Proof.
  induction tr as [|a tr IH]; simpl; intros s s' I H.
  - inversion H; subst; lia.
  - apply obind_next in H. destruct H as (s1 & H1 & H2).
    pose proof (fan_step_measure _ I H1).
    pose proof (IH _ _ (fan_step_inv _ I H1) H2). lia.
Qed.

Lemma active_lane (l : list lane) :
  list_sum (map active l) > 0 ->
  exists i x, nth_error l i = Some x /\ fwd x <> LGone.
Proof.
  induction l as [|h t IH]; simpl; intros H; [lia|].
  destruct (fwd h) eqn:F.
  1-3: exists 0, h; simpl; split; [reflexivity|congruence].
  unfold active in H at 1. rewrite F in H. simpl in H.
  destruct (IH H) as (i & x & E & N). exists (S i), x. auto.
Qed.

Lemma fan_progress s :
  Inv cfg s -> finished s = false -> exists a s', step s a = Next s'.
Proof.
  intros I F. pose proof (inv_out I) as O.
  destruct (closer s) eqn:C.
  - destruct (Nat.eq_dec (wg s) 0) as [W|W].
    + exists ACloser. simpl. unfold step_closer. rewrite C, W. simpl. eauto.
    + destruct (@active_lane (lanes s)) as (i & l & E & N).
      { rewrite <- (inv_wg I). lia. }
      destruct (lane_has_config _ I E) as (c & Hc).
      destruct (inv_lane I _ Hc E) as [Ha Hb _ _].
      destruct (fwd l) eqn:P; [| | |congruence].
      * destruct (buf (input l)) as [|v r] eqn:B.
        -- destruct (closed (input l)) eqn:Cl.
           ++ exists (AForward i). simpl. unfold step_forward.
              rewrite E, P. unfold recv. rewrite B, Cl. simpl. eauto.
           ++ destruct (feed l) as [|v r] eqn:Fe.
              ** exists (AFeed i). simpl. unfold step_feed.
                 rewrite E, <- Ha, Fe. unfold close. rewrite Cl.
                 simpl. eauto.
              ** exists (AHandIn i). simpl. unfold step_hand_in.
                 rewrite E, <- Ha, Fe, P. unfold rendezvous.
                 rewrite Cl, B. simpl. eauto.
        -- exists (AForward i). simpl. unfold step_forward.
           rewrite E, P. unfold recv. rewrite B. simpl. eauto.
      * exists (AHandOut i). simpl. unfold step_hand_out.
        rewrite E, P, F, O. simpl. eauto.
      * exists (AForward i). simpl. unfold step_forward.
        rewrite E, P. destruct (wg s); [lia|eauto].
  - exists ACloser. simpl. unfold step_closer. rewrite C, O. simpl. eauto.
  - exists AConsumer. simpl. unfold step_consumer. rewrite F, O. simpl.
    eauto.
Qed.

Lemma fan_can_finish n : forall s,
  Inv cfg s -> measure s <= n ->
  exists tr s', exec s tr = Next s' /\ finished s' = true.
Proof.
  induction n as [|n IH]; intros s I M.
  - destruct (finished s) eqn:F.
    + exists [], s. auto.
    + destruct (fan_progress I F) as (a & s' & H).
      pose proof (fan_step_measure _ I H). lia.
  - destruct (finished s) eqn:F.
    + exists [], s. auto.
    + destruct (fan_progress I F) as (a & s1 & H).
      pose proof (fan_step_measure _ I H).
      destruct (IH s1) as (tr & s' & Ht & Hf);
        [eapply fan_step_inv; eassumption | lia |].
      exists (a :: tr), s'. simpl. rewrite H. simpl. auto.
Qed.

Lemma fan_exec_app tr1 : forall tr2 s s1,
  exec s tr1 = Next s1 -> exec s (tr1 ++ tr2) = exec s1 tr2.
Proof.
  induction tr1 as [|a tr1 IH]; simpl; intros tr2 s s1 H.
  - inversion H; reflexivity.
  - apply obind_next in H. destruct H as (s2 & H1 & H2).
    rewrite H1. simpl. apply IH. exact H2.
Qed.

(** With [out] closed every forwarder has returned, and a returned
    forwarder leaves nothing behind. *)
Lemma fan_closed_lanes s i c l :
  Inv cfg s -> outClosed s = true ->
  nth_error cfg i = Some c -> nth_error (lanes s) i = Some l ->
  fwd l = LGone /\ buf (input l) = [] /\ feed l = []
  /\ through i (merged s) = src c.
Proof.
  intros I Cl Hc E.
  assert (G : fwd l = LGone).
  { destruct (fwd l) eqn:P; auto;
      destruct (@fan_busy s i l I E); congruence. }
  destruct (inv_lane I _ Hc E) as [Ha Hb Hl Ho].
  unfold left_loop, held in *. rewrite G in *.
  destruct (Hl eq_refl) as (Hc1 & Hb1).
  assert (Fe : feed l = []) by (apply Hb; congruence).
  rewrite Hb1, Fe in Ho. simpl in Ho. rewrite app_nil_r in Ho. auto.
Qed.

Lemma through_cons i j v m :
  through i ((j, v) :: m)
  = if j =? i then v :: through i m else through i m.
Proof. unfold through. simpl. destruct (j =? i); reflexivity. Qed.

Lemma through_insert (f : nat -> list Z) j v n : forall k,
  k <= j < k + n ->
  Permutation (v :: concat (map f (seq k n)))
    (concat (map (fun i => if j =? i then v :: f i else f i) (seq k n))).
Proof.
  induction n as [|n IH]; intros k H; [lia|].
  simpl. destruct (Nat.eqb_spec j k) as [->|N].
  - simpl. apply perm_skip. apply Permutation_app_head.
    rewrite (@map_ext_in _ _ (fun i => if k =? i then v :: f i else f i) f);
      [reflexivity|].
    intros a Ha. apply in_seq in Ha.
    destruct (Nat.eqb_spec k a); [lia|reflexivity].
  - rewrite <- (IH (S k)) by lia. apply Permutation_middle.
Qed.

Lemma through_partition n (m : list (nat * Z)) :
  (forall i v, In (i, v) m -> i < n) ->
  Permutation (map snd m) (concat (map (fun i => through i m) (seq 0 n))).
Proof.
  induction m as [|[j v] m IH]; intros H.
  - simpl. clear H. induction (seq 0 n); simpl; auto.
  - simpl. rewrite (IH (fun i w Hin => H i w (or_intror Hin))).
    rewrite (@through_insert (fun i => through i m) j v n 0).
    + rewrite (@map_ext _ _ (fun i => through i ((j, v) :: m))
                 (fun i => if j =? i then v :: through i m
                           else through i m)); [reflexivity|].
      intros a. apply through_cons.
    + specialize (H j v (or_introl eq_refl)). lia.
Qed.

Lemma through_all m : forall (l : list lane_config) k,
  (forall i c, nth_error l i = Some c -> through (k + i) m = src c) ->
  map (fun i => through i m) (seq k (length l)) = map src l.
Proof.
  induction l as [|c t IH]; intros k H; simpl; [reflexivity|].
  f_equal.
  - rewrite <- (H 0 c eq_refl). f_equal. lia.
  - apply IH. intros i c' E. rewrite <- (H (S i) c' E). f_equal. lia.
Qed.

Lemma fan_finished s :
  Inv cfg s -> finished s = true ->
  Permutation (values s) (concat (map src cfg))
  /\ forall i c, nth_error cfg i = Some c -> through i (merged s) = src c.
Proof.
  intros I F. pose proof (inv_finished I F) as Cl.
  assert (T : forall i c, nth_error cfg i = Some c ->
                          through i (merged s) = src c).
  { intros i c Hc.
    destruct (nth_error (lanes s) i) as [l|] eqn:E.
    - eapply fan_closed_lanes; eauto.
    - apply nth_error_None in E. rewrite (inv_lanes I) in E.
      apply nth_error_None in E. congruence. }
  split; [|exact T].
  unfold values. rewrite (@through_partition (length cfg)).
  - rewrite (@through_all (merged s) cfg 0); [reflexivity|].
    intros i c Hc. simpl. auto.
  - apply (inv_tags I).
Qed.

Lemma fan_out_closer s a s' :
  Inv cfg s -> step s a = Next s' ->
  outClosed s' = outClosed s \/ (a = ACloser /\ wg s = 0).
Proof.
  intros I H. pose proof (inv_out I) as O.
  pose proof (inv_closer I) as W.
  destruct a as [i|i|i|i| |]; simpl in H;
    unfold step_feed, step_hand_in, step_forward, step_hand_out,
      step_closer, step_consumer in H.
  1-4, 6: fan_open s; auto.
  right. split; [reflexivity|].
  destruct (closer s) eqn:C; try discriminate.
  - destruct (Nat.eqb_spec (wg s) 0); [assumption|discriminate].
  - apply W. discriminate.
Qed.

Lemma fan_all_gone s :
  Inv cfg s -> wg s = 0 -> Forall (fun l => fwd l = LGone) (lanes s).
Proof.
  intros I W. rewrite (inv_wg I) in W. apply list_sum_zero_all in W.
  rewrite Forall_forall in *. intros l Hl.
  specialize (W (active l) (in_map _ _ _ Hl)). unfold active in W.
  destruct (fwd l); congruence.
Qed.

End FanInFacts.

(** X1. Fan-in loses, duplicates and invents nothing: when the consumer's
    [range] over the merged channel has ended, the values it received
    are a permutation of all the values of all the inputs (so as many
    as the inputs held), and those that came through one input are that
    input's values in the order they were sent. *)
Theorem fan_in_delivers_every_value cfg tr s :
  FanIn.exec (FanIn.init cfg) tr = Next s ->
  FanIn.finished s = true ->
  Permutation (FanIn.values s) (concat (map FanIn.src cfg))
  /\ length (FanIn.values s)
     = list_sum (map (fun c => length (FanIn.src c)) cfg)
  /\ (forall i c, nth_error cfg i = Some c ->
                  FanIn.through i (FanIn.merged s) = FanIn.src c).
Proof.
  intros H F. pose proof (fan_reachable_inv _ _ H) as I.
  destruct (fan_finished I F) as (P & T).
  split; [exact P|]. split; [|exact T].
  rewrite (Permutation_length P), length_concat, map_map. reflexivity.
Qed.

Lemma fan_in_delivers_every_value_witness :
  exists s, FanIn.exec (FanIn.init FanIn.test_config) FanIn.test_trace
            = Next s
            /\ FanIn.finished s = true
            /\ Permutation (FanIn.values s) [1; 2; 3; 4]%Z.
Proof.
  exists (FanIn.run 200 (FanIn.init FanIn.test_config)).
  split; [vm_compute; reflexivity|]. split; [vm_compute; reflexivity|].
  apply (@fan_in_delivers_every_value FanIn.test_config FanIn.test_trace).
  - vm_compute; reflexivity.
  - vm_compute; reflexivity.
Defined.

(** X2. At every moment of a fan-in each input is accounted for in
    order: the values received through it, the value its forwarder
    holds, the values queued in its channel and the values its producer
    has still to send make up the input's sequence; in particular what
    was received through an input is a prefix of what the input sends. *)
Theorem fan_in_keeps_input_order cfg tr s i c l :
  FanIn.exec (FanIn.init cfg) tr = Next s ->
  nth_error cfg i = Some c ->
  nth_error (FanIn.lanes s) i = Some l ->
  FanIn.through i (FanIn.merged s) ++ FanIn.held l
    ++ Chan.buf (FanIn.input l) ++ FanIn.feed l = FanIn.src c
  /\ exists rest, FanIn.src c = FanIn.through i (FanIn.merged s) ++ rest.
Proof.
  intros H Hc E. pose proof (fan_reachable_inv _ _ H) as I.
  destruct (FanIn.inv_lane I _ Hc E) as [_ _ _ Ho].
  split; [exact Ho|]. eexists. symmetry. exact Ho.
Qed.

Lemma fan_in_keeps_input_order_witness :
  exists s, FanIn.exec (FanIn.init FanIn.generators_config)
              (firstn 5 FanIn.generators_trace) = Next s
            /\ exists rest, [10; 11; 12]%Z
                            = FanIn.through 0 (FanIn.merged s) ++ rest.
Proof.
  exists (FanIn.run 5 (FanIn.init FanIn.generators_config)).
  split; [vm_compute; reflexivity|].
  apply (@fan_in_keeps_input_order FanIn.generators_config
           (firstn 5 FanIn.generators_trace)
           (FanIn.run 5 (FanIn.init FanIn.generators_config)) 0
           (FanIn.mkLaneConfig [10; 11; 12]%Z 0 false)
           (FanIn.mkLane (Chan.make 0) [] false (FanIn.LSend 12))).
  - vm_compute; reflexivity.
  - reflexivity.
  - vm_compute; reflexivity.
Defined.

(** X3. The merged channel is closed safely: no execution of a fan-in
    panics (no send on the closed merged channel, no second close, no
    negative WaitGroup counter); only the closer goroutine closes the
    merged channel, and it does so with every forwarder returned; once
    it is closed every input has been closed and passed on entirely. *)
Theorem fan_in_closes_after_forwarders cfg tr s :
  FanIn.exec (FanIn.init cfg) tr = Next s ->
  (forall a m, FanIn.step s a <> Panic m)
  /\ (forall a s', FanIn.step s a = Next s' ->
        FanIn.outClosed s = false ->
        FanIn.outClosed s' = true ->
        a = FanIn.ACloser
        /\ Forall (fun l => FanIn.fwd l = FanIn.LGone) (FanIn.lanes s))
  /\ (FanIn.outClosed s = true ->
        Forall (fun l => FanIn.fwd l = FanIn.LGone
                         /\ Chan.closed (FanIn.input l) = true
                         /\ Chan.buf (FanIn.input l) = []
                         /\ FanIn.feed l = []) (FanIn.lanes s)).
Proof.
  intros H. pose proof (fan_reachable_inv _ _ H) as I.
  split; [|split].
  - intros a m. apply fan_step_no_panic with (cfg := cfg). exact I.
  - intros a s' Hs O O'.
    destruct (fan_out_closer _ I Hs) as [E|(-> & W)].
    + rewrite E in O'. congruence.
    + split; [reflexivity|]. eapply fan_all_gone; eassumption.
  - intros O. apply Forall_forall. intros l Hl.
    destruct (In_nth_error _ _ Hl) as (i & E).
    destruct (lane_has_config _ I E) as (c & Hc).
    destruct (fan_closed_lanes _ I O Hc E) as (G & B & Fe & _).
    destruct (FanIn.inv_lane I _ Hc E) as [_ _ Hleft _].
    unfold FanIn.left_loop in Hleft. rewrite G in Hleft.
    destruct (Hleft eq_refl). auto.
Qed.

Lemma fan_in_closes_after_forwarders_witness :
  exists s, FanIn.exec (FanIn.init FanIn.generators_config)
              FanIn.generators_trace = Next s
            /\ forall a m, FanIn.step s a <> Panic m.
Proof.
  exists (FanIn.run 200 (FanIn.init FanIn.generators_config)).
  split; [vm_compute; reflexivity|].
  apply (@fan_in_closes_after_forwarders FanIn.generators_config
           FanIn.generators_trace).
  vm_compute; reflexivity.
Defined.

Section FanInSetUp.
Import Chan FanIn.

Lemma fill_fits vs : forall c,
  closed c = false -> length (buf c) + length vs <= cap c ->
  fill c vs = Next (mkChan (buf c ++ vs) (cap c) false).
Proof.
  induction vs as [|v vs IH]; intros c C L; simpl in *.
  - rewrite app_nil_r. destruct c; simpl in *; subst; reflexivity.
  - unfold send. rewrite C.
    assert (R : (length (buf c) <? cap c) = true)
      by (apply Nat.ltb_lt; lia).
    rewrite R. simpl. rewrite IH; simpl; [|reflexivity|].
    + rewrite <- app_assoc. reflexivity.
    + rewrite length_app. simpl. lia.
Qed.

Lemma fill_overflows vs : forall c,
  closed c = false -> cap c < length (buf c) + length vs ->
  length (buf c) <= cap c ->
  fill c vs = Blocked.
Proof.
  induction vs as [|v vs IH]; intros c C L B; simpl in *; [lia|].
  unfold send. rewrite C.
  destruct (Nat.ltb_spec (length (buf c)) (cap c)) as [R|R];
    [|reflexivity].
  simpl. apply IH; simpl; auto; rewrite length_app; simpl; lia.
Qed.

(** The set-up leaves the channel [init_lane] starts from when the
    values fit, and otherwise never finishes. *)
Lemma prefill_outcome c :
  prefill c = if length (src c) <=? laneCap c
              then Next (mkChan (src c) (laneCap c) true)
              else Blocked.
Proof.
  unfold prefill.
  destruct (Nat.leb_spec (length (src c)) (laneCap c)) as [L|L].
  - rewrite fill_fits; simpl; auto.
  - rewrite fill_overflows; simpl; auto. lia.
Qed.

End FanInSetUp.

(** X4. A fan-in whose set-up comes through never deadlocks and always
    ends.  The set-up of a pre-filled input gives the closed channel
    holding its values when they fit its capacity, and otherwise waits
    for ever at a send, so that [fanIn] is not called.  With every
    pre-filled input fitting: from every reachable state some goroutine
    can take a step as long as the consumer's [range] has not ended, no
    continuation is longer than the state's measure, and a continuation
    that ends the consumer's [range] exists. *)
Theorem fan_in_never_deadlocks cfg tr s :
  forallb FanIn.fits cfg = true ->
  FanIn.exec (FanIn.init cfg) tr = Next s ->
  (forall c, In c cfg -> FanIn.prefilled c = true ->
     FanIn.prefill c = Next (FanIn.input (FanIn.init_lane c)))
  /\ (forall c, FanIn.fits c = false -> FanIn.prefill c = Blocked)
  /\ (FanIn.finished s = false -> exists a s', FanIn.step s a = Next s')
  /\ (forall tr' s', FanIn.exec s tr' = Next s' ->
                     length tr' <= FanIn.measure s)
  /\ exists tr' s', FanIn.exec (FanIn.init cfg) (tr ++ tr') = Next s'
                    /\ FanIn.finished s' = true.
Proof.
  intros W H. pose proof (fan_reachable_inv _ _ H) as I.
  split; [|split; [|split; [|split]]].
  - intros c Hc P. rewrite forallb_forall in W. specialize (W c Hc).
    unfold FanIn.fits in W. rewrite P in W. simpl in W.
    rewrite prefill_outcome, W. unfold FanIn.init_lane. rewrite P.
    reflexivity.
  - intros c F. unfold FanIn.fits in F.
    apply orb_false_iff in F. destruct F as [_ F].
    rewrite prefill_outcome, F. reflexivity.
  - apply fan_progress with (cfg := cfg). exact I.
  - intros tr' s' H'. pose proof (fan_exec_measure _ I H'). lia.
  - destruct (@fan_can_finish cfg (FanIn.measure s) s I (le_n _))
      as (tr' & s' & H' & F).
    exists tr', s'. split; [|exact F].
    rewrite (@fan_exec_app tr tr' _ _ H). exact H'.
Qed.

Lemma fan_in_never_deadlocks_witness :
  exists s, FanIn.exec (FanIn.init FanIn.test_config)
              (firstn 3 FanIn.test_trace) = Next s
            /\ exists a s', FanIn.step s a = Next s'.
Proof.
  exists (FanIn.run 3 (FanIn.init FanIn.test_config)).
  split; [vm_compute; reflexivity|].
  apply (@fan_in_never_deadlocks FanIn.test_config
           (firstn 3 FanIn.test_trace)).
  - reflexivity.
  - vm_compute; reflexivity.
  - vm_compute; reflexivity.
Defined.

(** ** BenchmarkWorkerPool: [workFunc] and the single worker *)

Lemma wrap64_add_l a b : wrap64 (wrap64 a + b) = wrap64 (a + b).
Proof.
  unfold wrap64.
  replace ((a + 2 ^ 63) mod 2 ^ 64 - 2 ^ 63 + b + 2 ^ 63)%Z
    with ((a + 2 ^ 63) mod 2 ^ 64 + b)%Z by lia.
  rewrite Z.add_mod_idemp_l by lia.
  replace (a + 2 ^ 63 + b)%Z with (a + b + 2 ^ 63)%Z by lia. reflexivity.
Qed.

Lemma wrap64_small z :
  (- 2 ^ 63 <= z < 2 ^ 63)%Z -> wrap64 z = z.
Proof.
  intros H. unfold wrap64. rewrite Z.mod_small; lia.
Qed.

Lemma triangle_next k :
  (Z.of_nat k * (Z.of_nat k - 1) / 2 + Z.of_nat k
   = Z.of_nat (S k) * (Z.of_nat (S k) - 1) / 2)%Z.
Proof.
  rewrite <- Z.div_add by lia. f_equal. lia.
Qed.

Lemma work_loop k :
  fold_left (fun sum i => wrap64 (sum + i)) (map Z.of_nat (seq 0 k)) 0%Z
  = wrap64 (Z.of_nat k * (Z.of_nat k - 1) / 2).
Proof.
  induction k as [|k IH].
  - reflexivity.
  - rewrite seq_S, map_app, fold_left_app, IH. simpl.
    rewrite wrap64_add_l, triangle_next. reflexivity.
Qed.

(** X5. [workFunc n] is the sum 0 + 1 + ... + (n - 1): 0 when [n <= 0],
    [n * (n - 1) / 2] in 64-bit arithmetic otherwise, without
    wrap-around up to [n = 2^32]. *)
Theorem workFunc_is_triangular (n : Z) :
  (n <= 0 -> Stage.workFunc n = 0)%Z
  /\ (0 <= n -> Stage.workFunc n = wrap64 (n * (n - 1) / 2))%Z
  /\ (0 <= n <= 2 ^ 32 -> Stage.workFunc n = n * (n - 1) / 2)%Z.
Proof.
  unfold Stage.workFunc. rewrite work_loop.
  split; [|split]; intros H.
  - replace (Z.to_nat n) with 0 by lia. reflexivity.
  - rewrite Z2Nat.id by lia. reflexivity.
  - rewrite Z2Nat.id by lia. apply wrap64_small.
    assert (0 <= n * (n - 1) / 2)%Z.
    { destruct (Z.eq_dec n 0) as [->|]; [reflexivity|].
      apply Z.div_pos; nia. }
    assert (n * (n - 1) / 2 < 2 ^ 63)%Z.
    { apply Z.div_lt_upper_bound; [lia|].
      change (2 * 2 ^ 63)%Z with (2 ^ 32 * 2 ^ 32)%Z. nia. }
    lia.
Qed.

Lemma workFunc_is_triangular_witness : Stage.workFunc 100 = 4950%Z.
Proof.
  destruct (workFunc_is_triangular 100) as (_ & _ & H).
  rewrite H; [reflexivity | lia].
Defined.

Section StageFacts.
Import Chan Stage.

Variable cfg : config.

Ltac stage_open s :=
  destruct s; simpl in *; ocrack; chan_crack; simpl in *; subst;
  simpl in *.

Lemma stage_init_inv : Inv cfg (init cfg).
Proof.
  constructor; simpl; auto; try discriminate.
  intros [H|H]; discriminate.
Qed.

Lemma stage_step_inv s a s' :
  Inv cfg s -> step s a = Next s' -> Inv cfg s'.
Proof.
  intros I H.
  destruct a; simpl in H;
    unfold step_sender, step_hand_job, step_worker, step_hand_result,
      step_collector in H.
  all: destruct I as [Ijc Isd Il Irc Id If]; stage_open s.
  all: constructor; simpl; auto; try congruence.
  all: try (intros [?|?]; discriminate).
  all: try (intros [?|?]; destruct Il; auto; congruence).
  all: try (intros D; destruct (Id D); split; congruence).
  all: rewrite <- If;
    repeat match goal with
           | E : buf _ = _ |- _ => rewrite E
           end;
    simpl; rewrite ?map_app, <- ?app_assoc; simpl;
    rewrite <- ?app_assoc; reflexivity.
Qed.

Lemma stage_exec_inv tr : forall s s',
  Inv cfg s -> exec s tr = Next s' -> Inv cfg s'.
Proof.
  induction tr as [|a tr IH]; simpl; intros s s' I H.
  - inversion H; subst; assumption.
  - apply obind_next in H. destruct H as (s1 & H1 & H2).
    eapply IH; [|eassumption]. eapply stage_step_inv; eassumption.
Qed.

Lemma stage_reachable_inv tr s :
  exec (init cfg) tr = Next s -> Inv cfg s.
Proof. apply stage_exec_inv, stage_init_inv. Qed.

Lemma stage_step_no_panic s a m :
  Inv cfg s -> step s a <> Panic m.
Proof.
  intros [Ijc Isd Il Irc Id If] H.
  destruct a; simpl in H;
    unfold step_sender, step_hand_job, step_worker, step_hand_result,
      step_collector in H.
  - destruct (sender_done s) eqn:D; [discriminate|].
    destruct (pending s); apply obind_panic in H;
      destruct H as [H|(? & _ & H)]; try discriminate.
    + apply close_panic in H. congruence.
    + apply send_panic in H. congruence.
  - destruct (sender_done s); [discriminate|].
    destruct (pending s), (wk s); try discriminate.
    destruct (rendezvous (jobs s)); discriminate.
  - destruct (wk s) eqn:W.
    + apply obind_panic in H. destruct H as [H|((r & c) & _ & H)].
      * exact (recv_no_panic _ H).
      * destruct r; discriminate.
    + apply obind_panic in H. destruct H as [H|(? & _ & H)];
        [|discriminate].
      apply send_panic in H. congruence.
    + apply obind_panic in H. destruct H as [H|(? & _ & H)];
        [|discriminate].
      apply close_panic in H. congruence.
    + discriminate.
  - destruct (wk s); try discriminate.
    destruct (negb (drained s) && rendezvous (results s)); discriminate.
  - destruct (drained s); [discriminate|].
    apply obind_panic in H. destruct H as [H|((r & c) & _ & H)].
    + exact (recv_no_panic _ H).
    + destruct r; discriminate.
Qed.

Lemma stage_step_measure s a s' :
  step s a = Next s' -> measure s' < measure s.
Proof.
  intros H.
  destruct a; simpl in H;
    unfold step_sender, step_hand_job, step_worker, step_hand_result,
      step_collector in H.
  all: stage_open s; unfold measure; simpl;
    repeat match goal with
           | E : buf _ = _ |- _ => rewrite E
           end;
    simpl; rewrite ?length_app; simpl;
    try (destruct sender_done0); try (destruct drained0); try lia.
Qed.

Lemma stage_exec_measure tr : forall s s',
  exec s tr = Next s' -> length tr + measure s' <= measure s.
Proof.
  induction tr as [|a tr IH]; simpl; intros s s' H.
  - inversion H; subst; lia.
  - apply obind_next in H. destruct H as (s1 & H1 & H2).
    pose proof (stage_step_measure _ _ H1).
    pose proof (IH _ _ H2). lia.
Qed.

Lemma stage_progress s :
  Inv cfg s -> drained s = false -> exists a s', step s a = Next s'.
Proof.
  intros [Ijc Isd Il Irc Id If] D.
  destruct (buf (results s)) as [|v r] eqn:B.
  - destruct (wk s) eqn:W.
    + destruct (buf (jobs s)) as [|j q] eqn:Bj.
      * destruct (closed (jobs s)) eqn:Cj.
        -- exists AWorker. simpl. unfold step_worker. rewrite W.
           unfold recv. rewrite Bj, Cj. simpl. eauto.
        -- destruct (pending s) as [|j q] eqn:P.
           ++ exists ASender. simpl. unfold step_sender.
              rewrite <- Ijc, P. unfold close. rewrite Cj. simpl. eauto.
           ++ exists AHandJob. simpl. unfold step_hand_job.
              rewrite <- Ijc, P, W. unfold rendezvous. rewrite Cj, Bj.
              simpl. eauto.
      * exists AWorker. simpl. unfold step_worker. rewrite W.
        unfold recv. rewrite Bj. simpl. eauto.
    + exists AHandResult. simpl. unfold step_hand_result.
      rewrite W, D. unfold rendezvous. rewrite Irc, B. simpl. eauto.
    + exists AWorker. simpl. unfold step_worker. rewrite W.
      unfold close. rewrite Irc. simpl. eauto.
    + exists ACollector. simpl. unfold step_collector. rewrite D.
      unfold recv. rewrite B, Irc. simpl. eauto.
  - exists ACollector. simpl. unfold step_collector. rewrite D.
    unfold recv. rewrite B. simpl. eauto.
Qed.

Lemma stage_can_finish n : forall s,
  Inv cfg s -> measure s <= n ->
  exists tr s', exec s tr = Next s' /\ drained s' = true.
Proof.
  induction n as [|n IH]; intros s I M.
  - destruct (drained s) eqn:F.
    + exists [], s. auto.
    + destruct (stage_progress I F) as (a & s' & H).
      pose proof (stage_step_measure _ _ H). lia.
  - destruct (drained s) eqn:F.
    + exists [], s. auto.
    + destruct (stage_progress I F) as (a & s1 & H).
      pose proof (stage_step_measure _ _ H).
      destruct (IH s1) as (tr & s' & Ht & Hf);
        [eapply stage_step_inv; eassumption | lia |].
      exists (a :: tr), s'. simpl. rewrite H. simpl. auto.
Qed.

Lemma stage_exec_app tr1 : forall tr2 s s1,
  exec s tr1 = Next s1 -> exec s (tr1 ++ tr2) = exec s1 tr2.
Proof.
  induction tr1 as [|a tr1 IH]; simpl; intros tr2 s s1 H.
  - inversion H; reflexivity.
  - apply obind_next in H. destruct H as (s2 & H1 & H2).
    rewrite H1. simpl. apply IH. exact H2.
Qed.

Lemma stage_drained s :
  Inv cfg s -> drained s = true ->
  collected s = map workFunc (jobList cfg).
Proof.
  intros [Ijc Isd Il Irc Id If] D.
  destruct (Id D) as (C & B). rewrite B in If.
  destruct (wk s) eqn:W; rewrite C in Irc; try discriminate.
  destruct Il as (Cj & Bj); [auto|].
  rewrite Bj, Isd in If by congruence. simpl in If.
  rewrite app_nil_r in If. exact If.
Qed.

End StageFacts.

(** X6. The single-worker pipeline keeps the order of the jobs: once the
    consumer's [range results] has ended it has received exactly
    [workFunc] of every job, in the order the jobs were sent (whatever
    the two capacities, unbuffered included); before that it has
    received a prefix of them. *)
Theorem single_worker_keeps_order cfg tr s :
  Stage.exec (Stage.init cfg) tr = Next s ->
  (exists rest, map Stage.workFunc (Stage.jobList cfg)
                = Stage.collected s ++ rest)
  /\ (Stage.drained s = true ->
      Stage.collected s = map Stage.workFunc (Stage.jobList cfg)).
Proof.
  intros H. pose proof (stage_reachable_inv _ _ H) as I. split.
  - eexists. symmetry. exact (Stage.inv_flow I).
  - apply stage_drained. exact I.
Qed.

Lemma single_worker_keeps_order_witness :
  exists s, Stage.exec (Stage.init Stage.small_config) Stage.small_trace
            = Next s
            /\ Stage.collected s = [0; 1; 3; 6; 10; 15]%Z.
Proof.
  exists (Stage.run 200 (Stage.init Stage.small_config)).
  split; [vm_compute; reflexivity|].
  destruct (@single_worker_keeps_order Stage.small_config Stage.small_trace
              (Stage.run 200 (Stage.init Stage.small_config)))
    as (_ & H).
  - vm_compute; reflexivity.
  - rewrite H; [reflexivity | vm_compute; reflexivity].
Defined.

(** X7. The single-worker pipeline shuts down cleanly on every schedule:
    no step panics (the worker's deferred [close(results)] runs once,
    after its last send), the results channel is closed only with the
    jobs channel closed and emptied, some goroutine can always run until
    the consumer's [range] has ended, no continuation is longer than
    the state's measure, and a continuation that ends the [range]
    exists. *)
Theorem single_worker_shuts_down cfg tr s :
  Stage.exec (Stage.init cfg) tr = Next s ->
  (forall a m, Stage.step s a <> Panic m)
  /\ (Chan.closed (Stage.results s) = true ->
      Chan.closed (Stage.jobs s) = true /\ Chan.buf (Stage.jobs s) = []
      /\ Stage.pending s = [])
  /\ (Stage.drained s = false -> exists a s', Stage.step s a = Next s')
  /\ (forall tr' s', Stage.exec s tr' = Next s' ->
                     length tr' <= Stage.measure s)
  /\ exists tr' s', Stage.exec (Stage.init cfg) (tr ++ tr') = Next s'
                    /\ Stage.drained s' = true.
Proof.
  intros H. pose proof (stage_reachable_inv _ _ H) as I.
  split; [|split; [|split; [|split]]].
  - intros a m. apply stage_step_no_panic with (cfg := cfg). exact I.
  - intros C. destruct I as [Ijc Isd Il Irc Id If].
    destruct (Stage.wk s) eqn:W; rewrite C in Irc; try discriminate.
    destruct Il as (Cj & Bj); [auto|]. repeat split; auto.
    apply Isd. congruence.
  - apply stage_progress with (cfg := cfg). exact I.
  - intros tr' s' H'. pose proof (stage_exec_measure _ _ H'). lia.
  - destruct (@stage_can_finish cfg (Stage.measure s) s I (le_n _))
      as (tr' & s' & H' & F).
    exists tr', s'. split; [|exact F].
    rewrite (@stage_exec_app tr tr' _ _ H). exact H'.
Qed.

Lemma single_worker_shuts_down_witness :
  exists s, Stage.exec (Stage.init Stage.small_config)
              (firstn 7 Stage.small_trace) = Next s
            /\ forall a m, Stage.step s a <> Panic m.
Proof.
  exists (Stage.run 7 (Stage.init Stage.small_config)).
  split; [vm_compute; reflexivity|].
  apply (@single_worker_shuts_down Stage.small_config
           (firstn 7 Stage.small_trace)).
  vm_compute; reflexivity.
Defined.

(** ** One producer, one channel, one consumer *)

Section SubseqFacts.
Variable A : Type.
Implicit Types l a b c d : list A.

Lemma subseq_refl l : subseq l l.
Proof. induction l; constructor; auto. Qed.

Lemma subseq_trans a b c : subseq a b -> subseq b c -> subseq a c.
Proof.
  intros H1 H2. revert a H1.
  induction H2 as [|x l1 l2 H IH|x l1 l2 H IH]; intros a H1.
  - exact H1.
  - inversion H1; subst.
    + apply sub_keep. auto.
    + apply sub_skip. auto.
  - apply sub_skip. auto.
Qed.

Lemma subseq_app_head a b c : subseq b c -> subseq (a ++ b) (a ++ c).
Proof. intros H. induction a; simpl; [exact H|constructor; auto]. Qed.

Lemma subseq_drop a x b : subseq (a ++ b) (a ++ x :: b).
Proof. apply subseq_app_head. apply sub_skip. apply subseq_refl. Qed.

Lemma subseq_length a b : subseq a b -> length a <= length b.
Proof. induction 1; simpl; lia. Qed.

Lemma subseq_full a b : subseq a b -> length b <= length a -> a = b.
Proof.
  induction 1 as [|x l1 l2 H IH|x l1 l2 H IH]; simpl; intros L.
  - reflexivity.
  - f_equal. apply IH. lia.
  - apply subseq_length in H. lia.
Qed.

End SubseqFacts.

Section PipeFacts.
Import Chan Pipe.

Variable cfg : config.

Ltac pipe_open s :=
  destruct s; simpl in *; ocrack; chan_crack; simpl in *; subst;
  simpl in *.

Lemma pipe_init_inv : Inv cfg (init cfg).
Proof.
  constructor; simpl; auto; try discriminate.
  - apply subseq_refl.
  - rewrite app_nil_r. reflexivity.
  - congruence.
Qed.

Ltac same_lists :=
  repeat match goal with
         | E : buf _ = _ |- _ => rewrite E in *
         end;
  simpl in *; rewrite <- ?app_assoc in *; simpl in *.

Lemma pipe_step_inv s a s' :
  Inv cfg s -> step cfg s a = Next s' -> Inv cfg s'.
Proof.
  intros I H.
  destruct a; simpl in H;
    unfold step_producer, step_hand, step_consumer in H.
  all: destruct I as [Ic Ip Id Io Ia Ib Icap If]; pipe_open s.
  all: constructor; simpl; auto; try congruence.
  all: try (intros D; destruct (Id D); split; congruence).
  all: try solve [same_lists; assumption].
  all: try solve [intros D; specialize (If D);
                  same_lists; rewrite ?length_app in *; simpl in *; lia].
  - (* the value is dropped *)
    eapply subseq_trans; [|exact Io]. rewrite !app_assoc.
    apply subseq_drop.
  - rewrite <- Ia. do 2 apply Permutation_app_head.
    rewrite app_assoc. symmetry. apply Permutation_cons_append.
  - intros _.
    match goal with
    | E : send _ _ = Blocked |- _ => apply send_blocked in E; simpl in E
    end.
    rewrite length_app. lia.
Qed.

Lemma pipe_exec_inv tr : forall s s',
  Inv cfg s -> exec cfg s tr = Next s' -> Inv cfg s'.
Proof.
  induction tr as [|a tr IH]; simpl; intros s s' I H.
  - inversion H; subst; assumption.
  - apply obind_next in H. destruct H as (s1 & H1 & H2).
    eapply IH; [|eassumption]. eapply pipe_step_inv; eassumption.
Qed.

Lemma pipe_reachable_inv tr s :
  exec cfg (init cfg) tr = Next s -> Inv cfg s.
Proof. apply pipe_exec_inv, pipe_init_inv. Qed.

Lemma pipe_step_no_panic s a m :
  Inv cfg s -> step cfg s a <> Panic m.
Proof.
  intros [Ic Ip Id Io Ia Ib Icap If] H.
  destruct a; simpl in H;
    unfold step_producer, step_hand, step_consumer in H.
  - destruct (producer_done s) eqn:D; [discriminate|].
    destruct (offered s).
    + apply obind_panic in H. destruct H as [H|(? & _ & H)];
        [|discriminate].
      apply close_panic in H. congruence.
    + destruct (send (ch s) z) eqn:E.
      * discriminate.
      * destruct (dropping cfg); discriminate.
      * apply send_panic in E. congruence.
  - destruct (producer_done s); [discriminate|].
    destruct (offered s); [discriminate|].
    destruct (negb (consumer_done s) && rendezvous (ch s)); discriminate.
  - destruct (consumer_done s); [discriminate|].
    apply obind_panic in H. destruct H as [H|((r & c) & _ & H)].
    + exact (recv_no_panic _ H).
    + destruct r; discriminate.
Qed.

Lemma pipe_step_measure s a s' :
  step cfg s a = Next s' -> measure s' < measure s.
Proof.
  intros H.
  destruct a; simpl in H;
    unfold step_producer, step_hand, step_consumer in H.
  all: pipe_open s; unfold measure; simpl;
    repeat match goal with
           | E : buf _ = _ |- _ => rewrite E
           end;
    simpl; rewrite ?length_app; simpl;
    try (destruct producer_done0); try (destruct consumer_done0); try lia.
Qed.

Lemma pipe_exec_measure tr : forall s s',
  exec cfg s tr = Next s' -> length tr + measure s' <= measure s.
Proof.
  induction tr as [|a tr IH]; simpl; intros s s' H.
  - inversion H; subst; lia.
  - apply obind_next in H. destruct H as (s1 & H1 & H2).
    pose proof (pipe_step_measure _ _ H1).
    pose proof (IH _ _ H2). lia.
Qed.

Lemma pipe_progress s :
  Inv cfg s -> consumer_done s = false ->
  exists a s', step cfg s a = Next s'.
Proof.
  intros [Ic Ip Id Io Ia Ib Icap If] D.
  destruct (buf (ch s)) as [|v r] eqn:B.
  - destruct (closed (ch s)) eqn:C.
    + exists AConsumer. simpl. unfold step_consumer. rewrite D.
      unfold recv. rewrite B, C. simpl. eauto.
    + destruct (offered s) as [|x q] eqn:O.
      * exists AProducer. simpl. unfold step_producer.
        rewrite <- Ic, O. unfold close. rewrite C. simpl. eauto.
      * exists AHand. simpl. unfold step_hand.
        rewrite <- Ic, O, D. unfold rendezvous. rewrite C, B. simpl. eauto.
  - exists AConsumer. simpl. unfold step_consumer. rewrite D.
    unfold recv. rewrite B. simpl. eauto.
Qed.

Lemma pipe_can_finish n : forall s,
  Inv cfg s -> measure s <= n ->
  exists tr s', exec cfg s tr = Next s' /\ consumer_done s' = true.
Proof.
  induction n as [|n IH]; intros s I M.
  - destruct (consumer_done s) eqn:F.
    + exists [], s. auto.
    + destruct (pipe_progress I F) as (a & s' & H).
      pose proof (pipe_step_measure _ _ H). lia.
  - destruct (consumer_done s) eqn:F.
    + exists [], s. auto.
    + destruct (pipe_progress I F) as (a & s1 & H).
      pose proof (pipe_step_measure _ _ H).
      destruct (IH s1) as (tr & s' & Ht & Hf);
        [eapply pipe_step_inv; eassumption | lia |].
      exists (a :: tr), s'. simpl. rewrite H. simpl. auto.
Qed.

Lemma pipe_exec_app tr1 : forall tr2 s s1,
  exec cfg s tr1 = Next s1 -> exec cfg s (tr1 ++ tr2) = exec cfg s1 tr2.
Proof.
  induction tr1 as [|a tr1 IH]; simpl; intros tr2 s s1 H.
  - inversion H; reflexivity.
  - apply obind_next in H. destruct H as (s2 & H1 & H2).
    rewrite H1. simpl. apply IH. exact H2.
Qed.

(** At the end of the consumer's [range] nothing is left in between. *)
Lemma pipe_done s :
  Inv cfg s -> consumer_done s = true ->
  buf (ch s) = [] /\ offered s = [].
Proof.
  intros [Ic Ip Id Io Ia Ib Icap If] D. destruct (Id D) as (C & B).
  split; [exact B|]. apply Ip. congruence.
Qed.

End PipeFacts.

(** X8. A blocking producer loses nothing at any capacity: through an
    unbuffered or a buffered channel the consumer has received a prefix
    of the producer's values at every moment, and once its [range] has
    ended it has received all of them, in the order they were sent. *)
Theorem pipe_delivers_in_order cfg tr s :
  Pipe.dropping cfg = false ->
  Pipe.exec cfg (Pipe.init cfg) tr = Next s ->
  Pipe.received s ++ Chan.buf (Pipe.ch s) ++ Pipe.offered s = Pipe.input cfg
  /\ (Pipe.consumer_done s = true -> Pipe.received s = Pipe.input cfg).
Proof.
  intros B H. pose proof (pipe_reachable_inv _ _ H) as I.
  pose proof (Pipe.inv_blocking I B) as E. split; [exact E|].
  intros D. destruct (pipe_done I D) as (Hb & Ho).
  rewrite Hb, Ho in E. simpl in E. rewrite app_nil_r in E. exact E.
Qed.

Lemma pipe_delivers_in_order_witness :
  exists s, Pipe.exec Pipe.blocking_config (Pipe.init Pipe.blocking_config)
              Pipe.blocking_trace = Next s
            /\ Pipe.received s = [0; 1; 2; 3; 4]%Z.
Proof.
  exists (Pipe.run Pipe.blocking_config 100 (Pipe.init Pipe.blocking_config)).
  split; [vm_compute; reflexivity|].
  apply (@pipe_delivers_in_order Pipe.blocking_config Pipe.blocking_trace).
  - reflexivity.
  - vm_compute; reflexivity.
  - vm_compute; reflexivity.
Defined.

(** X9. A producer that drops when the channel is full
    ([select { case ch <- j: default: }]) delivers a subsequence: once
    the consumer's [range] has ended, what it received is the
    producer's sequence with the dropped values left out, in order;
    received and dropped values together are exactly the values
    offered; at least [min capacity n] of the [n] values arrive; and
    with a capacity of at least [n] nothing is dropped. *)
Theorem dropping_pipe_delivers_subsequence cfg tr s :
  Pipe.exec cfg (Pipe.init cfg) tr = Next s ->
  Pipe.consumer_done s = true ->
  subseq (Pipe.received s) (Pipe.input cfg)
  /\ Permutation (Pipe.received s ++ Pipe.dropped s) (Pipe.input cfg)
  /\ Nat.min (Pipe.capacity cfg) (length (Pipe.input cfg))
     <= length (Pipe.received s)
  /\ (length (Pipe.input cfg) <= Pipe.capacity cfg ->
      Pipe.received s = Pipe.input cfg /\ Pipe.dropped s = []).
Proof.
  intros H D. pose proof (pipe_reachable_inv _ _ H) as I.
  destruct (pipe_done I D) as (Hb & Ho).
  destruct I as [Ic Ip Id Io Ia Ib Icap If].
  rewrite Hb, Ho in *. simpl in *. rewrite app_nil_r in *.
  assert (L : length (Pipe.received s) + length (Pipe.dropped s)
              = length (Pipe.input cfg)).
  { rewrite <- (Permutation_length Ia), length_app. reflexivity. }
  assert (M : Nat.min (Pipe.capacity cfg) (length (Pipe.input cfg))
              <= length (Pipe.received s)).
  { destruct (Pipe.dropped s) as [|d ds] eqn:Dr.
    - simpl in L. lia.
    - assert (Pipe.capacity cfg <= length (Pipe.received s))
        by (apply If; discriminate).
      lia. }
  split; [exact Io|]. split; [exact Ia|]. split; [exact M|].
  intros C. assert (R : Pipe.received s = Pipe.input cfg).
  { apply subseq_full; [exact Io|lia]. }
  split; [exact R|]. rewrite R in L.
  destruct (Pipe.dropped s); [reflexivity|simpl in L; lia].
Qed.

Lemma dropping_pipe_delivers_subsequence_witness :
  exists s, Pipe.exec Pipe.dropping_config (Pipe.init Pipe.dropping_config)
              Pipe.dropping_trace = Next s
            /\ Pipe.dropped s = [2; 3; 4]%Z
            /\ subseq (Pipe.received s) [0; 1; 2; 3; 4]%Z.
Proof.
  exists (Pipe.run Pipe.dropping_config 100 (Pipe.init Pipe.dropping_config)).
  split; [vm_compute; reflexivity|]. split; [vm_compute; reflexivity|].
  apply (@dropping_pipe_delivers_subsequence Pipe.dropping_config
           Pipe.dropping_trace).
  - vm_compute; reflexivity.
  - vm_compute; reflexivity.
Defined.

(** X10. Producer and consumer always finish, whatever the capacity and
    whether the producer blocks or drops: no step panics (the deferred
    [close] follows the last send), some goroutine can run as long as
    the consumer's [range] has not ended, no continuation is longer
    than the state's measure, and a continuation that ends the [range]
    exists. *)
Theorem pipe_always_finishes cfg tr s :
  Pipe.exec cfg (Pipe.init cfg) tr = Next s ->
  (forall a m, Pipe.step cfg s a <> Panic m)
  /\ (Pipe.consumer_done s = false ->
      exists a s', Pipe.step cfg s a = Next s')
  /\ (forall tr' s', Pipe.exec cfg s tr' = Next s' ->
                     length tr' <= Pipe.measure s)
  /\ exists tr' s', Pipe.exec cfg (Pipe.init cfg) (tr ++ tr') = Next s'
                    /\ Pipe.consumer_done s' = true.
Proof.
  intros H. pose proof (pipe_reachable_inv _ _ H) as I.
  split; [|split; [|split]].
  - intros a m. apply pipe_step_no_panic. exact I.
  - apply pipe_progress. exact I.
  - intros tr' s' H'. pose proof (pipe_exec_measure _ _ _ H'). lia.
  - destruct (@pipe_can_finish cfg (Pipe.measure s) s I (le_n _))
      as (tr' & s' & H' & F).
    exists tr', s'. split; [|exact F].
    rewrite (@pipe_exec_app cfg tr tr' _ _ H). exact H'.
Qed.

Lemma pipe_always_finishes_witness :
  exists s, Pipe.exec Pipe.blocking_config (Pipe.init Pipe.blocking_config)
              (firstn 3 Pipe.blocking_trace) = Next s
            /\ forall a m, Pipe.step Pipe.blocking_config s a <> Panic m.
Proof.
  exists (Pipe.run Pipe.blocking_config 3 (Pipe.init Pipe.blocking_config)).
  split; [vm_compute; reflexivity|].
  apply (@pipe_always_finishes Pipe.blocking_config
           (firstn 3 Pipe.blocking_trace)).
  vm_compute; reflexivity.
Defined.

(** ** What passes through the ring-buffer forwarder *)

Lemma subseq_prefix {A} (a b : list A) : subseq a (a ++ b).
Proof.
  induction a as [|x a IH]; simpl.
  - induction b; constructor; auto.
  - constructor. exact IH.
Qed.

Section RingFlowFacts.
Import Chan Ring RingFlow.

Variable cfg : config.

Ltac flow_open s :=
  destruct s; simpl in *; ocrack; chan_crack; simpl in *; subst;
  unfold in_order, passed, log_evict, log_drop, set_consumer_done, receive,
    set_fw, set_producer_done, set_offered, set_out, set_in in *;
  simpl in *.

Lemma flow_init : Flow cfg (init cfg).
Proof.
  constructor; unfold in_order; simpl; auto; try discriminate.
  - apply subseq_refl.
  - rewrite app_nil_r. reflexivity.
  - congruence.
Qed.

Ltac subseq_solve :=
  first
    [ apply subseq_refl
    | apply subseq_app_head; subseq_solve
    | apply sub_keep; subseq_solve
    | apply sub_skip; subseq_solve ].

Ltac perm_solve :=
  first
    [ reflexivity
    | apply Permutation_app_head; perm_solve
    | apply perm_skip; perm_solve
    | rewrite ?app_assoc; symmetry; apply Permutation_middle
    | symmetry; etransitivity; [apply Permutation_cons_append|];
      repeat (rewrite <- app_assoc; simpl); reflexivity ].

Ltac flow_lists :=
  repeat match goal with
         | E : buf _ = _ |- _ => rewrite E in *
         end;
  simpl in *; rewrite <- ?app_assoc in *; simpl in *.

Lemma flow_step s a s' :
  Flow cfg s -> step cfg s a = Next s' -> Flow cfg s'.
Proof.
  intros F H.
  destruct a; simpl in H;
    unfold step_producer, step_hand_in, step_forwarder, step_consumer in H.
  all: destruct F as [Fo Fa Ft Fp Fc Fcap Fk]; flow_open s.
  all: repeat match goal with
              | E : send _ _ = Blocked |- _ =>
                  apply send_blocked in E; destruct E as (? & ?)
              | E : recv _ = Blocked |- _ =>
                  apply recv_blocked in E; destruct E as (? & ?)
              end.
  all: constructor; unfold in_order, passed; simpl; auto; try congruence.
  all: try solve [flow_lists; assumption].
  all: try solve [flow_lists; eapply subseq_trans; [|exact Fo];
                  subseq_solve].
  all: try solve [intros D; destruct (Fc D) as [?|[? ?]];
                  [left; assumption
                  | first [congruence | right; split; congruence]]].
  all: try solve [flow_lists; rewrite ?length_app in *; simpl in *;
                  first [lia | intros E; specialize (Fk E); lia]].
  all: try solve [destruct fw0; flow_lists; rewrite ?length_app in *;
                  simpl in *;
                  first [lia | intros E; specialize (Fk E); lia]].
  all: try solve [flow_lists; etransitivity; [|exact Fa];
                  repeat (rewrite <- app_assoc; simpl); perm_solve].
Qed.

Lemma flow_exec tr : forall s s',
  Flow cfg s -> exec cfg s tr = Next s' -> Flow cfg s'.
Proof.
  induction tr as [|a tr IH]; simpl; intros s s' F H.
  - inversion H; subst; assumption.
  - apply obind_next in H. destruct H as (s1 & H1 & H2).
    eapply IH; [|eassumption]. eapply flow_step; eassumption.
Qed.

(** When the consumer has seen [outCh] closed, nothing is on its way. *)
Lemma flow_end s :
  Inv cfg s -> Flow cfg s ->
  closed (outCh s) = true -> buf (outCh s) = [] ->
  in_order s = received s
  /\ (evicted s <> [] -> capOut cfg <= length (received s)).
Proof.
  intros I F C B.
  pose proof (inv_out_closed I) as OC. rewrite C in OC.
  destruct (fw s) eqn:W; try discriminate.
  destruct (inv_left I) as (Ci & Bi); [rewrite W; auto|].
  pose proof (flow_kept F) as K. rewrite W in K.
  unfold in_order, passed in *. rewrite W, B, Bi in *. simpl in *.
  rewrite (flow_producer_done F), app_nil_r.
  - split; [reflexivity|]. intros E. specialize (K E). lia.
  - rewrite <- (inv_in_closed I). exact Ci.
Qed.

End RingFlowFacts.

(** X11. The ring-buffer forwarder reorders and invents nothing, and
    eviction only costs the oldest values: at every moment the values
    received are a subsequence of the values offered, and every value
    offered is exactly one of received, on its way, dropped by the
    producer or evicted by the forwarder.  When the consumer's [range]
    has run to the end, received, dropped and evicted values together
    are the input, and TestRingBuffer's copy has delivered at least
    [min capOut n] of its [n] values (the test's check
    [len(results) >= 3]). *)
Theorem ring_delivers_in_order (cfg : Ring.config) tr s :
  Ring.capOut cfg >= 1 ->
  Ring.exec cfg (Ring.init cfg) tr = Next s ->
  subseq (Ring.received s) (Ring.input cfg)
  /\ Permutation (RingFlow.in_order s ++ Ring.dropped s ++ Ring.evicted s)
                 (Ring.input cfg)
  /\ (Ring.consumer_done s = true -> Ring.stopAfter cfg = None ->
      Permutation (Ring.received s ++ Ring.dropped s ++ Ring.evicted s)
                  (Ring.input cfg)
      /\ (Ring.which cfg = Ring.TestVariant ->
          Nat.min (Ring.capOut cfg) (length (Ring.input cfg))
          <= length (Ring.received s))).
Proof.
  intros C H.
  assert (I : Ring.Inv cfg s).
  { eapply ring_exec_inv; [exact C | | exact H].
    apply ring_init_inv; exact C. }
  assert (F : RingFlow.Flow cfg s).
  { eapply flow_exec; [|exact H]. apply flow_init. }
  split; [|split].
  - eapply subseq_trans; [|exact (RingFlow.flow_order F)].
    apply subseq_prefix.
  - exact (RingFlow.flow_account F).
  - intros D N.
    destruct (RingFlow.flow_consumer_done F D) as [R|(Cl & B)].
    { rewrite N in R. discriminate. }
    destruct (flow_end I F Cl B) as (E & K).
    pose proof (RingFlow.flow_account F) as A. rewrite E in A.
    split; [exact A|]. intros T.
    pose proof (RingFlow.flow_test F T) as Dr. rewrite Dr in A.
    simpl in A. apply Permutation_length in A. rewrite length_app in A.
    destruct (Ring.evicted s) as [|e es] eqn:Ev.
    + simpl in A. lia.
    + assert (Ring.capOut cfg <= length (Ring.received s))
        by (apply K; discriminate).
      lia.
Qed.

Lemma ring_delivers_in_order_witness :
  exists s, Ring.exec Ring.test_config (Ring.init Ring.test_config)
              RingFlow.lagging_trace = Next s
            /\ Ring.consumer_done s = true
            /\ Ring.received s = [7; 8; 9]%Z
            /\ subseq (Ring.received s) [0; 1; 2; 3; 4; 5; 6; 7; 8; 9]%Z.
Proof.
  eexists. split; [vm_compute; reflexivity|].
  split; [reflexivity|]. split; [reflexivity|].
  apply (@ring_delivers_in_order Ring.test_config RingFlow.lagging_trace).
  - simpl; lia.
  - vm_compute; reflexivity.
Defined.

(** ** TestRaceCondition, "Concurrent counter with mutex" *)

Lemma sum_one {A} (f : A -> nat) l i a :
  nth_error l i = Some a -> f a <= list_sum (map f l).
Proof.
  revert i; induction l as [|h t IH]; intros [|i] H; simpl in *;
    try discriminate.
  - inversion H; subst. lia.
  - specialize (IH _ H). lia.
Qed.

Lemma sum_two {A} (f : A -> nat) l : forall i j a b,
  i <> j -> nth_error l i = Some a -> nth_error l j = Some b ->
  f a + f b <= list_sum (map f l).
Proof.
  induction l as [|h t IH]; intros [|i] [|j] a b N Ha Hb; simpl in *;
    try discriminate; try congruence.
  - inversion Ha; subst. pose proof (sum_one f _ _ Hb). lia.
  - inversion Hb; subst. pose proof (sum_one f _ _ Ha). lia.
  - assert (i <> j) by congruence.
    pose proof (IH _ _ _ _ H Ha Hb). lia.
Qed.

Lemma sum_positive {A} (f : A -> nat) l :
  list_sum (map f l) > 0 -> exists i x, nth_error l i = Some x /\ f x > 0.
Proof.
  induction l as [|h t IH]; simpl; intros H; [lia|].
  destruct (Nat.eq_dec (f h) 0) as [Z|Z].
  - destruct IH as (i & x & E & P); [lia|]. exists (S i), x. auto.
  - exists 0, h. simpl. split; [reflexivity|lia].
Qed.

Lemma sum_repeat {A} (f : A -> nat) x n :
  list_sum (map f (repeat x n)) = n * f x.
Proof. induction n; simpl; lia. Qed.

Section CounterFacts.
Import Counter.

Variable cfg : config.

Lemma counter_init_inv : Inv cfg (init cfg).
Proof.
  constructor; simpl; auto; try discriminate.
  - apply repeat_length.
  - rewrite sum_repeat. simpl. lia.
  - rewrite sum_repeat. simpl. lia.
  - rewrite sum_repeat. simpl. rewrite Nat.mul_0_r. reflexivity.
  - intros i g H. apply nth_error_In, repeat_spec in H. subst. simpl. lia.
Qed.

Ltac counter_sums E :=
  match goal with
  | |- context [update ?i ?x _] =>
      pose proof (@update_sum _ active i x _ _ E);
      pose proof (@update_sum _ holds i x _ _ E);
      pose proof (@update_sum _ (written cfg) i x _ _ E);
      pose proof (@update_sum _ (weight cfg) i x _ _ E)
  end; simpl in *.

Lemma counter_step_inv s a s' :
  Inv cfg s -> step cfg s a = Next s' -> Inv cfg s'.
Proof.
  intros I H. destruct a as [i|]; simpl in H.
  - unfold step_go in H.
    destruct (nth_error (goroutines s) i) as [g|] eqn:E; [|discriminate].
    pose proof (inv_goroutine I _ E) as G.
    destruct I as [Il Iw Im Ic Ig Id].
    destruct s as [gs c lk w wd]; simpl in *.
    destruct g; simpl in *; ocrack; chan_crack; try discriminate; subst;
      unfold set_goroutine in *; simpl in *; counter_sums E;
      repeat match goal with
             | L : (_ <? _) = true |- _ => apply Nat.ltb_lt in L
             | L : (_ <? _) = false |- _ => apply Nat.ltb_ge in L
             end.
    all: constructor; simpl; rewrite ?update_length; auto; try lia.
    all: try solve [do 2 f_equal; lia].
    all: try solve [intros D; specialize (Id D); lia].
    all: try solve [destruct G as (? & ->); rewrite wrap64_add_l;
                    do 2 f_equal; lia].
    all: intros i0 g0 E0'; destruct (Nat.eq_dec i i0) as [<-|N];
      [ erewrite update_nth_same in E0' by eassumption;
        inversion E0'; subst; simpl in *; try lia; auto
      | rewrite update_nth_other in E0' by assumption;
        try exact (Ig _ _ E0') ].
    (* the store: nobody else holds a value read under the lock *)
    pose proof (Ig _ _ E0') as G0.
    destruct g0; simpl in *; auto.
    pose proof (sum_two holds _ N E E0') as T. simpl in T.
    destruct lk; lia.
  - unfold step_main in H. destruct I as [Il Iw Im Ic Ig Id].
    destruct s as [gs c lk w wd]; simpl in *.
    ocrack; chan_crack; subst. constructor; simpl; auto.
Qed.

Lemma counter_exec_inv tr : forall s s',
  Inv cfg s -> exec cfg s tr = Next s' -> Inv cfg s'.
Proof.
  induction tr as [|a tr IH]; simpl; intros s s' I H.
  - inversion H; subst; assumption.
  - apply obind_next in H. destruct H as (s1 & H1 & H2).
    eapply IH; [|eassumption]. eapply counter_step_inv; eassumption.
Qed.

Lemma counter_reachable_inv tr s :
  exec cfg (init cfg) tr = Next s -> Inv cfg s.
Proof. apply counter_exec_inv, counter_init_inv. Qed.

Lemma counter_step_no_panic s a m :
  Inv cfg s -> step cfg s a <> Panic m.
Proof.
  intros I H. destruct a as [i|]; simpl in H.
  - unfold step_go in H.
    destruct (nth_error (goroutines s) i) as [g|] eqn:E; [|discriminate].
    pose proof (sum_one holds _ _ E) as Ho.
    pose proof (sum_one active _ _ E) as Ha.
    rewrite (inv_mutex I) in Ho. rewrite <- (inv_wg I) in Ha.
    destruct g; simpl in *; try discriminate.
    + destruct (j <? incrementsPerGoroutine cfg); [|discriminate].
      destruct (locked s); discriminate.
    + destruct (locked s); [discriminate|lia].
    + destruct (wg s); [lia|discriminate].
  - unfold step_main in H. destruct (waited s); [discriminate|].
    destruct (wg s =? 0); discriminate.
Qed.

Lemma counter_step_measure s a s' :
  Inv cfg s -> step cfg s a = Next s' -> measure cfg s' < measure cfg s.
Proof.
  intros I H. destruct a as [i|]; simpl in H.
  - unfold step_go in H.
    destruct (nth_error (goroutines s) i) as [g|] eqn:E; [|discriminate].
    pose proof (inv_goroutine I _ E) as G.
    destruct s as [gs c lk w wd]; simpl in *.
    destruct g; simpl in *; ocrack; chan_crack; try discriminate; subst;
      unfold set_goroutine, measure in *; simpl in *; counter_sums E;
      repeat match goal with
             | L : (_ <? _) = true |- _ => apply Nat.ltb_lt in L
             | L : (_ <? _) = false |- _ => apply Nat.ltb_ge in L
             end; lia.
  - unfold step_main in H. destruct s as [gs c lk w wd]; simpl in *.
    ocrack; chan_crack; subst. unfold measure. simpl. lia.
Qed.

Lemma counter_exec_measure tr : forall s s',
  Inv cfg s -> exec cfg s tr = Next s' ->
  length tr + measure cfg s' <= measure cfg s.
Proof.
  induction tr as [|a tr IH]; simpl; intros s s' I H.
  - inversion H; subst; lia.
  - apply obind_next in H. destruct H as (s1 & H1 & H2).
    pose proof (counter_step_measure _ I H1).
    pose proof (IH _ _ (counter_step_inv _ I H1) H2). lia.
Qed.

Lemma counter_progress s :
  Inv cfg s -> waited s = false -> exists a s', step cfg s a = Next s'.
Proof.
  intros I W.
  destruct (locked s) eqn:L.
  - (* the holder of the lock can run *)
    destruct (@sum_positive _ holds (goroutines s)) as (i & g & E & P).
    { rewrite (inv_mutex I), L. lia. }
    exists (AGo i). simpl. unfold step_go. rewrite E.
    destruct g; simpl in P; try lia; try rewrite L; eauto.
  - destruct (Nat.eq_dec (wg s) 0) as [Z|Z].
    + exists AMain. simpl. unfold step_main. rewrite W, Z. simpl. eauto.
    + destruct (@sum_positive _ active (goroutines s)) as (i & g & E & P).
      { rewrite <- (inv_wg I). lia. }
      exists (AGo i). simpl. unfold step_go. rewrite E.
      pose proof (sum_one holds _ _ E) as Ho.
      rewrite (inv_mutex I), L in Ho.
      destruct g; simpl in *; try lia; eauto.
      * rewrite L. destruct (j <? incrementsPerGoroutine cfg); eauto.
      * destruct (wg s); [lia|eauto].
Qed.

Lemma counter_can_finish n : forall s,
  Inv cfg s -> measure cfg s <= n ->
  exists tr s', exec cfg s tr = Next s' /\ waited s' = true.
Proof.
  induction n as [|n IH]; intros s I M.
  - destruct (waited s) eqn:F.
    + exists [], s. auto.
    + destruct (counter_progress I F) as (a & s' & H).
      pose proof (counter_step_measure _ I H). lia.
  - destruct (waited s) eqn:F.
    + exists [], s. auto.
    + destruct (counter_progress I F) as (a & s1 & H).
      pose proof (counter_step_measure _ I H).
      destruct (IH s1) as (tr & s' & Ht & Hf);
        [eapply counter_step_inv; eassumption | lia |].
      exists (a :: tr), s'. simpl. rewrite H. simpl. auto.
Qed.

Lemma counter_exec_app tr1 : forall tr2 s s1,
  exec cfg s tr1 = Next s1 -> exec cfg s (tr1 ++ tr2) = exec cfg s1 tr2.
Proof.
  induction tr1 as [|a tr1 IH]; simpl; intros tr2 s s1 H.
  - inversion H; reflexivity.
  - apply obind_next in H. destruct H as (s2 & H1 & H2).
    rewrite H1. simpl. apply IH. exact H2.
Qed.

Lemma written_all_gone (l : list goroutine) :
  list_sum (map active l) = 0 ->
  list_sum (map (written cfg) l) = length l * incrementsPerGoroutine cfg.
Proof.
  induction l as [|g t IH]; simpl; intros H; [reflexivity|].
  destruct g; simpl in H; try lia. simpl. rewrite IH by lia. lia.
Qed.

Lemma counter_final s :
  Inv cfg s -> waited s = true -> counter s = expected cfg.
Proof.
  intros I W. pose proof (inv_waited I W) as Z.
  rewrite (inv_wg I) in Z.
  rewrite (inv_counter I), (written_all_gone _ Z), (inv_len I).
  unfold expected. f_equal. lia.
Qed.

End CounterFacts.

(** X12. The mutex makes the counter exact: on every schedule of
    [numGoroutines] goroutines that each run [incrementsPerGoroutine]
    times [mu.Lock(); counter++; mu.Unlock()], with [counter++] a
    separate load and store, the counter read after [wg.Wait()] is
    [numGoroutines * incrementsPerGoroutine] (in 64-bit arithmetic), the
    value the test expects; at most one goroutine is between [Lock] and
    [Unlock] at any moment, and the value a goroutine has loaded is
    still the counter's when it stores. *)
Theorem mutex_counter_is_exact cfg tr s :
  Counter.exec cfg (Counter.init cfg) tr = Next s ->
  list_sum (map Counter.holds (Counter.goroutines s)) <= 1
  /\ (forall i j v, nth_error (Counter.goroutines s) i
                    = Some (Counter.GStore j v) -> v = Counter.counter s)
  /\ (Counter.waited s = true -> Counter.counter s = Counter.expected cfg).
Proof.
  intros H. pose proof (counter_reachable_inv _ _ H) as I.
  split; [|split].
  - rewrite (Counter.inv_mutex I). destruct (Counter.locked s); lia.
  - intros i j v E. destruct (Counter.inv_goroutine I _ E) as (_ & ->).
    reflexivity.
  - apply counter_final. exact I.
Qed.

Lemma mutex_counter_is_exact_witness :
  exists s, Counter.exec Counter.small_config
              (Counter.init Counter.small_config) Counter.small_trace
            = Next s
            /\ Counter.waited s = true /\ Counter.counter s = 6%Z.
Proof.
  eexists. split; [vm_compute; reflexivity|]. split; [reflexivity|].
  apply (@mutex_counter_is_exact Counter.small_config Counter.small_trace).
  - vm_compute; reflexivity.
  - reflexivity.
Defined.

(** X13. The mutex-protected counter test always ends: no step panics
    (no unlock of an unlocked mutex, no negative WaitGroup counter),
    some goroutine can run as long as the test function waits in
    [wg.Wait()] (the lock is never held by a goroutine that cannot
    run), no continuation is longer than the state's measure, and a
    continuation that passes [wg.Wait()] exists. *)
Theorem mutex_counter_terminates cfg tr s :
  Counter.exec cfg (Counter.init cfg) tr = Next s ->
  (forall a m, Counter.step cfg s a <> Panic m)
  /\ (Counter.waited s = false ->
      exists a s', Counter.step cfg s a = Next s')
  /\ (forall tr' s', Counter.exec cfg s tr' = Next s' ->
                     length tr' <= Counter.measure cfg s)
  /\ exists tr' s', Counter.exec cfg (Counter.init cfg) (tr ++ tr')
                    = Next s'
                    /\ Counter.waited s' = true.
Proof.
  intros H. pose proof (counter_reachable_inv _ _ H) as I.
  split; [|split; [|split]].
  - intros a m. apply counter_step_no_panic. exact I.
  - apply counter_progress. exact I.
  - intros tr' s' H'. pose proof (counter_exec_measure _ I H'). lia.
  - destruct (@counter_can_finish cfg (Counter.measure cfg s) s I (le_n _))
      as (tr' & s' & H' & F).
    exists tr', s'. split; [|exact F].
    rewrite (@counter_exec_app cfg tr tr' _ _ H). exact H'.
Qed.

Lemma mutex_counter_terminates_witness :
  exists s, Counter.exec Counter.small_config
              (Counter.init Counter.small_config)
              (firstn 4 Counter.small_trace) = Next s
            /\ forall a m, Counter.step Counter.small_config s a <> Panic m.
Proof.
  eexists. split; [vm_compute; reflexivity|].
  apply (@mutex_counter_terminates Counter.small_config
           (firstn 4 Counter.small_trace)).
  vm_compute; reflexivity.
Defined.

(** ** TestChannelBasics, "Buffered Channel" *)

Section BasicsFacts.
Import Chan Basics.

Lemma send_all_fits l : forall c,
  closed c = false -> length (buf c) + length l <= cap c ->
  send_all c l = Next (mkChan (buf c ++ l) (cap c) false).
Proof.
  induction l as [|v l IH]; simpl; intros c O L.
  - rewrite app_nil_r. destruct c; simpl in *. subst. reflexivity.
  - unfold send at 1. rewrite O.
    destruct (Nat.ltb_spec (length (buf c)) (cap c)); [|lia].
    simpl. rewrite IH; simpl; rewrite ?length_app; simpl; try lia; auto.
    rewrite <- app_assoc. reflexivity.
Qed.

Lemma send_all_overflows l : forall c,
  closed c = false -> cap c < length (buf c) + length l ->
  length (buf c) <= cap c ->
  send_all c l = Blocked.
Proof.
  induction l as [|v l IH]; simpl; intros c O L B; [lia|].
  unfold send at 1. rewrite O.
  destruct (Nat.ltb_spec (length (buf c)) (cap c)); [|reflexivity].
  simpl. apply IH; simpl; rewrite ?length_app; simpl; auto; lia.
Qed.

Lemma recv_n_all l : forall k b,
  recv_n (mkChan l k b) (length l) = Next (l, mkChan [] k b).
Proof.
  induction l as [|v l IH]; simpl; intros k b; [reflexivity|].
  rewrite IH. reflexivity.
Qed.

End BasicsFacts.

(** X14. A buffered channel is a first-in first-out queue of its
    capacity: values sent into an empty channel come back in the order
    they were sent when they fit, and a goroutine that sends more than
    the capacity with nobody receiving blocks for ever (the send that
    finds the buffer full never returns). *)
Theorem buffered_channel_round_trip (capacity : nat) (l : list Z) :
  (length l <= capacity -> Basics.round_trip capacity l = Next l)
  /\ (capacity < length l -> Basics.round_trip capacity l = Blocked).
Proof.
  unfold Basics.round_trip. split; intros H.
  - rewrite send_all_fits by (simpl; auto).
    simpl. rewrite recv_n_all. reflexivity.
  - rewrite send_all_overflows; simpl; auto; lia.
Qed.

Lemma buffered_channel_round_trip_witness :
  Basics.round_trip 3 [1; 2; 3]%Z = Next [1; 2; 3]%Z
  /\ Basics.round_trip 3 [1; 2; 3; 4]%Z = Blocked.
Proof.
  split.
  - apply (proj1 (buffered_channel_round_trip 3 [1; 2; 3]%Z)). simpl; lia.
  - apply (proj2 (buffered_channel_round_trip 3 [1; 2; 3; 4]%Z)).
    simpl; lia.
Defined.

(** ** TestContextPattern: the [sleepAndTalk] that returns an error *)

Lemma test_sleepAndTalk_cases l d w msg r :
  In r (TalkTest.sleepAndTalk l d w msg) ->
  (r = None /\ In Talk.CaseTimer (Talk.can_proceed l d w))
  \/ (exists t e, l = Some (t, e) /\ r = Some e
                  /\ In Talk.CaseDone (Talk.can_proceed l d w)).
Proof.
  unfold TalkTest.sleepAndTalk. intros H.
  apply in_map_iff in H. destruct H as (c & <- & H).
  destruct (can_proceed_cases _ _ _ _ H)
    as [[-> _] | (-> & t & e & -> & L)].
  - left. auto.
  - right. exists t, e. split; [reflexivity|]. split; [|assumption].
    unfold TalkTest.run_case, Talk.ctx_at.
    apply Z.leb_le in L. rewrite L. reflexivity.
Qed.

Lemma test_done_result t e d w :
  In Talk.CaseDone (Talk.can_proceed (Some (t, e)) d w) ->
  TalkTest.run_case (Some (t, e)) d w Talk.CaseDone = Some e.
Proof.
  intros H. apply wake_after_cancel in H.
  unfold TalkTest.run_case, Talk.ctx_at.
  apply Z.leb_le in H. rewrite H. reflexivity.
Qed.

(** X15. The test's [sleepAndTalk] returns: [nil] or the context's
    error.  The timer is armed as the [select] is entered, and the
    goroutine looks at the two channels some time later.  A context
    cancelled before [d] elapses gives the context's error, never
    [nil], when [d] is positive and the [select] is reached before [d]
    has elapsed; a context never cancelled, or cancelled only after the
    timer's channel is ready and after the [select] has been reached,
    gives [nil]; with both channels ready at that look, or at the same
    instant, either value can come back.  So the subtest with the
    cancellation at 50ms and the operation at 100ms gets
    [context.Canceled] when the cancel function runs less than 50ms
    late and the [select] is reached within the 100ms; the one with
    the cancellation at 100ms and the operation at 50ms gets [nil] when
    the timer's channel is ready, and the [select] reached, before the
    cancel function runs. *)
Theorem test_sleepAndTalk_error l d w msg :
  TalkTest.sleepAndTalk l d w msg <> []
  /\ (forall r, In r (TalkTest.sleepAndTalk l d w msg) ->
        (r = None \/ exists t e, l = Some (t, e) /\ r = Some e)
        /\ (forall t e, l = Some (t, e) ->
              (t < d)%Z -> (0 < d)%Z -> (Talk.look w < d)%Z ->
              r = Some e)
        /\ (l = None
            \/ (exists t e, l = Some (t, e)
                            /\ (Talk.timer_fires d w < t)%Z
                            /\ (Talk.polls w < t)%Z) ->
            r = None))
  /\ (forall t e, l = Some (t, e) ->
        ((Talk.timer_fires d w <= Talk.polls w)%Z
         /\ (t <= Talk.polls w)%Z)
        \/ t = Talk.timer_fires d w ->
        TalkTest.sleepAndTalk l d w msg = [None; Some e])
  /\ (forall skew,
        (skew < 50 * TalkTest.millisecond)%Z ->
        (Talk.look w < 100 * TalkTest.millisecond)%Z ->
        TalkTest.cancellation_subtest skew w = [Some Ctx.Canceled])
  /\ (forall skew,
        (Talk.timer_fires (50 * TalkTest.millisecond) w
         < 100 * TalkTest.millisecond + skew)%Z ->
        (Talk.polls w < 100 * TalkTest.millisecond + skew)%Z ->
        TalkTest.completion_subtest skew w = [None])
  /\ TalkTest.cancellation_subtest 0 Talk.on_time = [Some Ctx.Canceled]
  /\ TalkTest.completion_subtest 0 Talk.on_time = [None].
Proof.
  split; [|split; [|split; [|split; [|split; [|split; reflexivity]]]]].
  - unfold TalkTest.sleepAndTalk.
    pose proof (can_proceed_returns l d w) as R.
    destruct (Talk.can_proceed l d w); [contradiction|discriminate].
  - intros r H. apply test_sleepAndTalk_cases in H.
    split; [|split].
    + destruct H as [[-> _] | (t & e & -> & -> & _)]; eauto.
    + intros t e -> T D L.
      destruct H as [[_ C] | (t' & e' & E & -> & _)].
      * rewrite only_done in C by assumption.
        destruct C as [C | []]. discriminate.
      * inversion E; subst. reflexivity.
    + intros N. destruct H as [[-> _] | (t' & e' & E & -> & C)];
        [reflexivity|].
      rewrite only_timer in C by assumption.
      destruct C as [C | []]. discriminate.
  - intros t e -> B. unfold TalkTest.sleepAndTalk.
    pose proof (@both_ready t e d w B) as C. rewrite C. cbn [map].
    rewrite test_done_result; [reflexivity|].
    rewrite C. right. left. reflexivity.
  - intros skew S L.
    unfold TalkTest.cancellation_subtest, TalkTest.sleepAndTalk.
    assert (C : Talk.can_proceed
                  (Some (50 * TalkTest.millisecond + skew,
                         Ctx.Canceled))%Z
                  (100 * TalkTest.millisecond)%Z w = [Talk.CaseDone])
      by (apply only_done; unfold TalkTest.millisecond in *; lia).
    rewrite C. cbn [map]. rewrite test_done_result; [reflexivity|].
    rewrite C. left. reflexivity.
  - intros skew F P.
    unfold TalkTest.completion_subtest, TalkTest.sleepAndTalk.
    rewrite only_timer; [reflexivity|].
    right. do 2 eexists. split; [reflexivity|]. auto.
Qed.

(** ** The worker pool, while it runs *)

Section PoolRunning.
Import Chan Pool PoolBounds.

Lemma pool_step_within s a s' :
  within_capacity s -> step s a = Next s' -> within_capacity s'.
Proof.
  unfold within_capacity. intros (Bj & Br) H.
  destruct a; simpl in H;
    unfold step_sender, step_worker, step_closer, step_collector,
      step_hand_job, step_hand_result, submit, close_intake in H.
  all: destruct s; simpl in *; ocrack; chan_crack; simpl in *; subst;
    unfold log_delivery, log_close, set_drained, collect, set_closer,
      set_wg, set_worker, set_sender_done, set_pending, set_results,
      set_jobs in *;
    simpl in *; subst; simpl in *;
    repeat match goal with
           | E : buf _ = _ |- _ => rewrite E in *
           end;
    simpl in *; rewrite ?length_app; simpl; lia.
Qed.

Lemma pool_exec_within tr : forall s s',
  within_capacity s -> exec s tr = Next s' -> within_capacity s'.
Proof.
  induction tr as [|a tr IH]; simpl; intros s s' B H.
  - inversion H; subst; assumption.
  - apply obind_next in H. destruct H as (s1 & H1 & H2).
    eapply IH; [|eassumption]. eapply pool_step_within; eassumption.
Qed.

Lemma held_at_most (ws : list worker) :
  length (flat_map held ws) <= length ws.
Proof.
  induction ws as [|w t IH]; simpl; [lia|].
  rewrite length_app. destruct w; simpl; lia.
Qed.

End PoolRunning.

(** X16. The pool's queues give backpressure and nothing is lost or
    invented while it runs: at every moment neither channel holds more
    than its capacity, at most [numWorkers] jobs are being worked on,
    every job is exactly one of not yet sent, queued, or dequeued, every
    dequeued job is exactly one of being worked on, queued as a result,
    or collected, and every collected result is the double of a job of
    the list. *)
Theorem pool_accounts_for_every_job cfg tr s :
  Pool.exec (Pool.init cfg) tr = Next s ->
  length (Chan.buf (Pool.jobs s)) <= Pool.capJobs cfg
  /\ length (Chan.buf (Pool.results s)) <= Pool.capResults cfg
  /\ length (flat_map Pool.held (Pool.workers s)) <= Pool.numWorkers cfg
  /\ length (Pool.delivered s) + length (Chan.buf (Pool.jobs s))
     + length (Pool.pending s) = length (Pool.jobList cfg)
  /\ length (Pool.collected s) + length (Chan.buf (Pool.results s))
     + length (flat_map Pool.held (Pool.workers s))
     = length (Pool.delivered s)
  /\ (forall v, In v (Pool.collected s) ->
        exists j, In j (Pool.jobList cfg) /\ v = double j).
Proof.
  intros H. pose proof (reachable _ _ H) as I.
  assert (B : PoolBounds.within_capacity s).
  { eapply pool_exec_within; [|exact H].
    unfold PoolBounds.within_capacity. simpl. lia. }
  destruct B as (Bj & Br). destruct (Pool.inv_caps I) as (Cj & Cr).
  rewrite Cj in Bj. rewrite Cr in Br.
  pose proof (Pool.inv_flow I) as Fl. pose proof (Pool.inv_fifo I) as F.
  split; [exact Bj|]. split; [exact Br|]. split; [|split; [|split]].
  - rewrite <- (Pool.inv_len I). apply held_at_most.
  - apply (f_equal (@length Z)) in F.
    rewrite !length_app, length_map in F. lia.
  - apply Permutation_length in Fl.
    rewrite !length_app, !length_map in Fl. lia.
  - intros v Hv.
    assert (Hin : In v (map double (map snd (Pool.delivered s)))).
    { eapply Permutation_in; [exact Fl|]. apply in_or_app. auto. }
    apply in_map_iff in Hin. destruct Hin as (j & <- & Hj).
    exists j. split; [|reflexivity].
    rewrite <- F. apply in_or_app. auto.
Qed.

Lemma pool_accounts_for_every_job_witness :
  exists s, Pool.exec (Pool.init Pool.small_config)
              (firstn 9 Pool.small_trace) = Next s
            /\ length (Chan.buf (Pool.jobs s)) <= 2.
Proof.
  eexists. split; [vm_compute; reflexivity|].
  apply (@pool_accounts_for_every_job Pool.small_config
           (firstn 9 Pool.small_trace)).
  vm_compute; reflexivity.
Defined.

(** ** Many senders into one channel *)

Lemma sum_below {A} (f : A -> nat) k l :
  (forall i x, nth_error l i = Some x -> f x <= k) ->
  list_sum (map f l) <= length l * k.
Proof.
  induction l as [|h t IH]; simpl; intros H; [lia|].
  pose proof (H 0 h eq_refl).
  assert (list_sum (map f t) <= length t * k).
  { apply IH. intros i x E. apply (H (S i) x E). }
  lia.
Qed.

Lemma sum_strictly_below {A} (f : A -> nat) k l : forall i x,
  (forall i x, nth_error l i = Some x -> f x <= k) ->
  nth_error l i = Some x -> f x < k ->
  list_sum (map f l) < length l * k.
Proof.
  induction l as [|h t IH]; intros [|i] x H E L; simpl in *;
    try discriminate.
  - inversion E; subst.
    assert (list_sum (map f t) <= length t * k).
    { apply sum_below. intros j y Ey. apply (H (S j) y Ey). }
    lia.
  - pose proof (H 0 h eq_refl).
    assert (list_sum (map f t) < length t * k).
    { apply (IH i x); auto. intros j y Ey. apply (H (S j) y Ey). }
    lia.
Qed.

Lemma update_map_same {A B} (f : A -> B) i x old l :
  nth_error l i = Some old -> f x = f old ->
  map f (update i x l) = map f l.
Proof.
  intros H E. destruct (@update_split _ l i old x H) as (l1 & l2 & -> & -> & _).
  rewrite !map_app. simpl. rewrite E. reflexivity.
Qed.

Section GatherFacts.
Import Chan Gather.

Variable cfg : config.

Lemma init_active (l : list nat) :
  list_sum (map active (map (fun i => mkSender i (PLoop 0)) l)) = length l.
Proof. induction l; simpl; auto. Qed.

Lemma init_sent (l : list nat) :
  flat_map (sent cfg) (map (fun i => mkSender i (PLoop 0)) l) = [].
Proof. induction l; simpl; auto. Qed.

Lemma gather_init_inv : Inv cfg (init cfg).
Proof.
  constructor; simpl; auto; try discriminate.
  - rewrite map_map. simpl. apply map_id.
  - rewrite init_active, length_seq. reflexivity.
  - contradiction.
  - lia.
  - rewrite init_sent. constructor.
  - intros i p H. rewrite nth_error_map in H.
    destruct (nth_error (seq 0 (numSenders cfg)) i); [|discriminate].
    simpl in H. inversion H; subst. unfold progress. simpl. lia.
Qed.

Ltac gather_sums E P :=
  match goal with
  | |- context [update ?i ?x _] =>
      let Ha := fresh "Ha" in
      let Hw := fresh "Hw" in
      let Hp := fresh "Hp" in
      pose proof (@update_sum _ active i x _ _ E) as Ha;
      pose proof (@update_sum _ (weight cfg) i x _ _ E) as Hw;
      pose proof (@update_sum _ (progress cfg) i x _ _ E) as Hp;
      unfold active in Ha at 2 4; unfold weight in Hw at 2 4;
      unfold progress in Hp at 2 4;
      cbn [pc senderID] in Ha, Hw, Hp; rewrite P in Ha, Hw, Hp
  end.

Ltac gather_open s :=
  unfold ranging in *;
  destruct s; simpl in *; ocrack; chan_crack; try discriminate;
  simpl in *; subst; simpl in *;
  repeat match goal with
         | L : (_ <? _) = true |- _ => apply Nat.ltb_lt in L
         | L : (_ <? _) = false |- _ => apply Nat.ltb_ge in L
         end.

Lemma sent_next p j :
  pc p = PLoop j ->
  sent cfg (mkSender (senderID p) (PLoop (S j)))
  = sent cfg p ++ [message cfg (senderID p) j].
Proof.
  intros E. unfold sent, progress. cbn [pc senderID].
  rewrite E, seq_S, map_app. reflexivity.
Qed.

Lemma sent_same p q :
  senderID q = senderID p -> progress cfg q = progress cfg p ->
  sent cfg q = sent cfg p.
Proof. unfold sent. intros -> ->. reflexivity. Qed.

Lemma flow_sent (l : list sender) i p j R :
  nth_error l i = Some p -> pc p = PLoop j ->
  Permutation R (flat_map (sent cfg) l) ->
  Permutation (R ++ [message cfg (senderID p) j])
    (flat_map (sent cfg)
       (update i (mkSender (senderID p) (PLoop (S j))) l)).
Proof.
  intros E P H.
  destruct (@update_split _ l i p (mkSender (senderID p) (PLoop (S j))) E)
    as (l1 & l2 & -> & -> & _).
  rewrite flat_map_app in *. cbn [flat_map] in *. rewrite (sent_next _ P).
  rewrite H. rewrite <- !app_assoc.
  apply Permutation_app_head. apply Permutation_app_head.
  apply Permutation_app_comm.
Qed.

Lemma flow_same (l : list sender) i p q :
  nth_error l i = Some p ->
  senderID q = senderID p -> progress cfg q = progress cfg p ->
  flat_map (sent cfg) (update i q l) = flat_map (sent cfg) l.
Proof.
  intros E I P.
  destruct (@update_split _ l i p q E) as (l1 & l2 & -> & -> & _).
  rewrite !flat_map_app. cbn [flat_map]. rewrite (sent_same _ _ I P).
  reflexivity.
Qed.

Lemma bound_update (l : list sender) i p q :
  nth_error l i = Some p ->
  (forall k x, nth_error l k = Some x ->
               progress cfg x <= messagesPerSender cfg) ->
  progress cfg q <= messagesPerSender cfg ->
  forall k x, nth_error (update i q l) k = Some x ->
              progress cfg x <= messagesPerSender cfg.
Proof.
  intros E H Q k x Hk. destruct (Nat.eq_dec i k) as [<-|N].
  - erewrite update_nth_same in Hk by eassumption.
    inversion Hk; subst. exact Q.
  - rewrite update_nth_other in Hk by assumption. eauto.
Qed.

Lemma gather_step_inv s a s' :
  Inv cfg s -> step cfg s a = Next s' -> Inv cfg s'.
Proof.
  intros I H.
  destruct a as [i|i| |]; simpl in H;
    unfold step_sender, step_hand, step_closer, step_consumer in H.
  - destruct (nth_error (senders s) i) as [p|] eqn:E; [|discriminate].
    pose proof (inv_bound I _ E) as Bp.
    destruct I as [Ii Iw Ic Icl Icap Ir If Ib Id Iidle].
    destruct (pc p) eqn:P; gather_open s; try gather_sums E P.
    all: constructor; simpl; auto; try lia.
    all: try solve [erewrite update_map_same; eauto].
    all: try solve [rewrite <- Icl; congruence].
    all: try solve [rewrite length_app; simpl; lia].
    all: try solve [rewrite app_assoc; apply flow_sent; assumption].
    all: try solve [erewrite flow_same; eauto;
                    unfold progress in *; simpl in *; rewrite ?P in *; lia].
    all: try solve [eapply bound_update; eauto;
                    unfold progress; simpl; lia].
    all: try solve [intros D; destruct (Id D); congruence].
    all: try solve [intros D; specialize (Ic D); lia].
  - destruct (nth_error (senders s) i) as [p|] eqn:E; [|discriminate].
    pose proof (inv_bound I _ E) as Bp.
    destruct I as [Ii Iw Ic Icl Icap Ir If Ib Id Iidle].
    destruct (pc p) eqn:P; gather_open s; try gather_sums E P.
    all: constructor; simpl; auto; try lia; try congruence.
    all: try solve [erewrite update_map_same; eauto].
    all: try solve [eapply bound_update; eauto;
                    unfold progress; simpl; lia].
    all: try solve [intros D; destruct (Id D); congruence].
    match goal with
    | Hb : buf _ = [] |- _ => rewrite Hb in *
    end.
    rewrite app_nil_r in *. apply flow_sent; assumption.
    unfold ranging; simpl; congruence.
  - destruct I as [Ii Iw Ic Icl Icap Ir If Ib Id Iidle].
    gather_open s.
    all: constructor; simpl; auto; try lia; try congruence.
    all: try solve [intros D; unfold ranging in D; simpl in D;
                    first [ rewrite orb_true_r in D; discriminate
                          | apply Iidle; rewrite ?orb_false_r in *;
                            exact D ]].
    + intros _. apply Ic. discriminate.
    + intros D. destruct (Id D). split; congruence.
  - destruct I as [Ii Iw Ic Icl Icap Ir If Ib Id Iidle].
    gather_open s.
    all: constructor; unfold ranging; simpl; auto; try lia;
      try congruence.
    all: match goal with
         | Hb : buf _ = _ :: _ |- _ => rewrite Hb in *
         end; simpl in *.
    + lia.
    + rewrite <- app_assoc. exact If.
Qed.

Lemma gather_exec_inv tr : forall s s',
  Inv cfg s -> exec cfg s tr = Next s' -> Inv cfg s'.
Proof.
  induction tr as [|a tr IH]; simpl; intros s s' I H.
  - inversion H; subst; assumption.
  - apply obind_next in H. destruct H as (s1 & H1 & H2).
    eapply IH; [|eassumption]. eapply gather_step_inv; eassumption.
Qed.

Lemma gather_reachable_inv tr s :
  exec cfg (init cfg) tr = Next s -> Inv cfg s.
Proof. apply gather_exec_inv, gather_init_inv. Qed.

Lemma gather_busy s i p :
  Inv cfg s -> nth_error (senders s) i = Some p -> pc p <> PGone ->
  wg s > 0 /\ closer s = CWait /\ closed (ch s) = false.
Proof.
  intros I E N.
  assert (W : wg s > 0).
  { pose proof (sum_one active _ _ E) as A. rewrite <- (inv_wg I) in A.
    unfold active in A. destruct (pc p); try lia. congruence. }
  assert (C : closer s = CWait).
  { destruct (closer s) eqn:C; auto;
      assert (wg s = 0) by (apply (inv_closer I); congruence); lia. }
  split; [exact W|]. split; [exact C|].
  rewrite (inv_closed I), C. reflexivity.
Qed.

Lemma gather_step_no_panic s a m :
  Inv cfg s -> step cfg s a <> Panic m.
Proof.
  intros I H.
  destruct a as [i|i| |]; simpl in H;
    unfold step_sender, step_hand, step_closer, step_consumer in H.
  - destruct (nth_error (senders s) i) as [p|] eqn:E; [|discriminate].
    destruct (pc p) eqn:P; try discriminate.
    + destruct (j <? messagesPerSender cfg); [|discriminate].
      apply obind_panic in H. destruct H as [H|(? & _ & H)];
        [|discriminate].
      apply send_panic in H.
      destruct (@gather_busy s i p I E) as (_ & _ & O); congruence.
    + destruct (@gather_busy s i p I E) as (W & _); [congruence|].
      destruct (wg s); [lia|discriminate].
  - destruct (nth_error (senders s) i) as [p|]; [|discriminate].
    destruct (pc p); try discriminate.
    destruct ((j <? messagesPerSender cfg) && ranging cfg s
              && negb (finished s) && rendezvous (ch s)); discriminate.
  - destruct (closer s) eqn:C; try discriminate.
    + destruct (wg s =? 0); discriminate.
    + apply obind_panic in H. destruct H as [H|(? & _ & H)];
        [|discriminate].
      apply close_panic in H. rewrite (inv_closed I), C in H.
      discriminate.
  - destruct (negb (ranging cfg s) || finished s); [discriminate|].
    apply obind_panic in H. destruct H as [H|((r & c) & _ & H)].
    + exact (recv_no_panic _ H).
    + destruct r; discriminate.
Qed.

Lemma gather_step_measure s a s' :
  step cfg s a = Next s' -> measure cfg s' < measure cfg s.
Proof.
  intros H.
  destruct a as [i|i| |]; simpl in H;
    unfold step_sender, step_hand, step_closer, step_consumer in H.
  - destruct (nth_error (senders s) i) as [p|] eqn:E; [|discriminate].
    destruct (pc p) eqn:P; gather_open s; try gather_sums E P;
      unfold measure; simpl; rewrite ?length_app; simpl; lia.
  - destruct (nth_error (senders s) i) as [p|] eqn:E; [|discriminate].
    destruct (pc p) eqn:P; gather_open s; try gather_sums E P;
      unfold measure; simpl; rewrite ?length_app; simpl; lia.
  - gather_open s; unfold measure; simpl; lia.
  - gather_open s; unfold measure; simpl;
      repeat match goal with
             | Hb : buf _ = _ |- _ => rewrite Hb
             end; simpl; lia.
Qed.

Lemma gather_exec_measure tr : forall s s',
  exec cfg s tr = Next s' -> length tr + measure cfg s' <= measure cfg s.
Proof.
  induction tr as [|a tr IH]; simpl; intros s s' H.
  - inversion H; subst; lia.
  - apply obind_next in H. destruct H as (s1 & H1 & H2).
    pose proof (gather_step_measure _ _ H1).
    pose proof (IH _ _ H2). lia.
Qed.

Lemma gather_exec_app tr1 : forall tr2 s s1,
  exec cfg s tr1 = Next s1 -> exec cfg s (tr1 ++ tr2) = exec cfg s1 tr2.
Proof.
  induction tr1 as [|a tr1 IH]; simpl; intros tr2 s s1 H.
  - inversion H; reflexivity.
  - apply obind_next in H. destruct H as (s2 & H1 & H2).
    rewrite H1. simpl. apply IH. exact H2.
Qed.

(** How many messages have left their senders. *)
Lemma gather_count s :
  Inv cfg s ->
  length (received s) + length (buf (ch s))
  = list_sum (map (progress cfg) (senders s)).
Proof.
  intros I. pose proof (Permutation_length (inv_flow I)) as L.
  rewrite length_app in L. rewrite L. clear L.
  induction (senders s) as [|p l IH]; simpl; [reflexivity|].
  rewrite length_app, IH. unfold sent.
  rewrite length_map, length_seq. reflexivity.
Qed.

Lemma gather_senders s :
  Inv cfg s -> length (senders s) = numSenders cfg.
Proof.
  intros I. rewrite <- (length_map senderID), (inv_ids I).
  apply length_seq.
Qed.

Lemma gather_progress s :
  Inv cfg s ->
  inlineWait cfg = false
  \/ numSenders cfg * messagesPerSender cfg <= capacity cfg ->
  finished s = false -> exists a s', step cfg s a = Next s'.
Proof.
  intros I R F. pose proof (inv_closed I) as O.
  destruct (closer s) eqn:C.
  - destruct (Nat.eq_dec (wg s) 0) as [W|W].
    { exists ACloser. simpl. unfold step_closer. rewrite C, W. simpl.
      eauto. }
    destruct (@sum_positive _ active (senders s)) as (i & p & E & P).
    { rewrite <- (inv_wg I). lia. }
    unfold active in P. destruct (pc p) eqn:Pc; [| |lia].
    + destruct (Nat.ltb_spec j (messagesPerSender cfg)) as [L|L].
      * destruct (Nat.ltb_spec (length (buf (ch s))) (cap (ch s)))
          as [Room|Full].
        { exists (ASender i). simpl. unfold step_sender.
          rewrite E, Pc. apply Nat.ltb_lt in L. rewrite L.
          unfold send. rewrite O. apply Nat.ltb_lt in Room.
          rewrite Room. simpl. eauto. }
        destruct R as [R|R].
        -- (* the consumer is ranging *)
           destruct (buf (ch s)) as [|v r] eqn:B.
           ++ exists (AHand i). simpl. unfold step_hand.
              rewrite E, Pc. apply Nat.ltb_lt in L. rewrite L.
              unfold ranging, rendezvous. rewrite R, F, O, B. simpl. eauto.
           ++ exists AConsumer. simpl. unfold step_consumer.
              unfold ranging. rewrite R, F. simpl.
              unfold recv. rewrite B. simpl. eauto.
        -- (* the channel holds every message *)
           exfalso.
           assert (Hs : list_sum (map (progress cfg) (senders s))
                        < length (senders s) * messagesPerSender cfg).
           { apply (@sum_strictly_below _ (progress cfg) _ _ i p).
             - apply (inv_bound I).
             - exact E.
             - unfold progress. rewrite Pc. exact L. }
           rewrite <- (gather_count I), (gather_senders I) in Hs.
           rewrite (inv_cap I) in Full. lia.
      * exists (ASender i). simpl. unfold step_sender. rewrite E, Pc.
        apply Nat.ltb_ge in L. rewrite L. eauto.
    + exists (ASender i). simpl. unfold step_sender. rewrite E, Pc.
      destruct (wg s); [lia|eauto].
  - exists ACloser. simpl. unfold step_closer. rewrite C.
    unfold close. rewrite O. simpl. eauto.
  - exists AConsumer. simpl. unfold step_consumer, ranging.
    rewrite C, F, orb_true_r. simpl. unfold recv. rewrite O.
    destruct (buf (ch s)); simpl; eauto.
Qed.

Lemma gather_can_finish n : forall s,
  Inv cfg s ->
  inlineWait cfg = false
  \/ numSenders cfg * messagesPerSender cfg <= capacity cfg ->
  measure cfg s <= n ->
  exists tr s', exec cfg s tr = Next s' /\ finished s' = true.
Proof.
  induction n as [|n IH]; intros s I R M.
  - destruct (finished s) eqn:F.
    + exists [], s. auto.
    + destruct (gather_progress I R F) as (a & s' & H).
      pose proof (gather_step_measure _ _ H). lia.
  - destruct (finished s) eqn:F.
    + exists [], s. auto.
    + destruct (gather_progress I R F) as (a & s1 & H).
      pose proof (gather_step_measure _ _ H).
      destruct (IH s1) as (tr & s' & Ht & Hf);
        [eapply gather_step_inv; eassumption | exact R | lia |].
      exists (a :: tr), s'. simpl. rewrite H. simpl. auto.
Qed.

(** When the consumer's [range] has ended every sender has sent
    everything. *)
Lemma gather_all_sent (l : list sender) :
  list_sum (map active l) = 0 ->
  flat_map (sent cfg) l
  = flat_map (fun i => map (message cfg i) (seq 0 (messagesPerSender cfg)))
             (map senderID l).
Proof.
  induction l as [|p t IH]; simpl; intros H; [reflexivity|].
  unfold active in H at 1. destruct (pc p) eqn:P; simpl in H; try lia.
  rewrite IH by lia. unfold sent, progress. rewrite P. reflexivity.
Qed.

Lemma gather_finished s :
  Inv cfg s -> finished s = true ->
  Permutation (received s) (all_messages cfg).
Proof.
  intros I F. destruct (inv_finished I F) as (C & B).
  pose proof (inv_flow I) as Fl. rewrite B, app_nil_r in Fl.
  rewrite Fl. rewrite (inv_closed I) in C.
  destruct (closer s) eqn:Cl; try discriminate.
  assert (W : wg s = 0) by (apply (inv_closer I); congruence).
  rewrite (inv_wg I) in W.
  rewrite (gather_all_sent _ W), (inv_ids I). reflexivity.
Qed.

(** Without wrap-around the messages are the numbers
    [0 .. numSenders * messagesPerSender - 1]. *)
Lemma message_plain i j :
  (Z.of_nat (numSenders cfg * messagesPerSender cfg) <= 2 ^ 63)%Z ->
  i < numSenders cfg -> j < messagesPerSender cfg ->
  message cfg i j = Z.of_nat (i * messagesPerSender cfg + j).
Proof.
  intros B Hi Hj. unfold message.
  assert (i * messagesPerSender cfg + j
          < numSenders cfg * messagesPerSender cfg) by nia.
  assert (i * messagesPerSender cfg <= i * messagesPerSender cfg + j)
    by lia.
  rewrite (@wrap64_small (Z.of_nat i * Z.of_nat (messagesPerSender cfg))%Z)
    by lia.
  rewrite wrap64_small by lia. lia.
Qed.

Lemma seq_offset a k : forall start,
  map (fun j => a + j) (seq start k) = seq (a + start) k.
Proof.
  induction k as [|k IH]; intros start; simpl; [reflexivity|].
  rewrite IH. f_equal. f_equal. lia.
Qed.

Lemma blocks_are_seq k : forall n,
  flat_map (fun i => map (fun j => i * k + j) (seq 0 k)) (seq 0 n)
  = seq 0 (n * k).
Proof.
  induction n as [|n IH]; [reflexivity|].
  rewrite seq_S, flat_map_app, IH. simpl. rewrite app_nil_r.
  replace (k + n * k) with (n * k + k) by lia.
  rewrite seq_app. f_equal. simpl.
  rewrite seq_offset. f_equal. lia.
Qed.

Lemma all_messages_plain :
  (Z.of_nat (numSenders cfg * messagesPerSender cfg) <= 2 ^ 63)%Z ->
  all_messages cfg
  = map Z.of_nat (seq 0 (numSenders cfg * messagesPerSender cfg)).
Proof.
  intros B. rewrite <- blocks_are_seq. unfold all_messages.
  assert (G : forall l, (forall i, In i l -> i < numSenders cfg) ->
            flat_map (fun i => map (message cfg i)
                                   (seq 0 (messagesPerSender cfg))) l
            = map Z.of_nat
                (flat_map (fun i => map (fun j => i * messagesPerSender cfg
                                                  + j)
                                        (seq 0 (messagesPerSender cfg))) l)).
  { induction l as [|i l IH]; intros H; [reflexivity|].
    simpl. rewrite map_app, map_map, IH by (intros; apply H; simpl; auto).
    f_equal. apply map_ext_in. intros j Hj. apply in_seq in Hj.
    apply message_plain; [exact B | apply H; simpl; auto | lia]. }
  apply G. intros i Hi. apply in_seq in Hi. lia.
Qed.

Lemma all_messages_length :
  length (all_messages cfg) = numSenders cfg * messagesPerSender cfg.
Proof.
  unfold all_messages.
  assert (G : forall l : list nat,
            length (flat_map (fun i => map (message cfg i)
                                           (seq 0 (messagesPerSender cfg)))
                             l)
            = length l * messagesPerSender cfg).
  { induction l as [|i l IH]; [reflexivity|].
    simpl. rewrite length_app, IH, length_map, length_seq. reflexivity. }
  rewrite G, length_seq. reflexivity.
Qed.

Lemma progress_all_gone (l : list sender) :
  list_sum (map active l) = 0 ->
  list_sum (map (progress cfg) l) = length l * messagesPerSender cfg.
Proof.
  induction l as [|p t IH]; simpl; intros H; [reflexivity|].
  unfold active in H at 1. unfold progress at 1.
  destruct (pc p); simpl in H; try lia.
Qed.

(** With the wait inlined and a channel too small for all messages,
    [wg.Wait()] never returns. *)
Lemma gather_waits s a s' :
  Inv cfg s -> inlineWait cfg = true ->
  capacity cfg < numSenders cfg * messagesPerSender cfg ->
  closer s = CWait -> step cfg s a = Next s' -> closer s' = CWait.
Proof.
  intros I W C Cl H.
  destruct a as [i|i| |]; simpl in H;
    unfold step_sender, step_hand, step_closer, step_consumer in H.
  - destruct (nth_error (senders s) i) as [p|]; [|discriminate].
    destruct (pc p); gather_open s; reflexivity.
  - destruct (nth_error (senders s) i) as [p|]; [|discriminate].
    destruct (pc p); gather_open s; reflexivity.
  - rewrite Cl in H.
    destruct (Nat.eqb_spec (wg s) 0) as [Z|Z]; [|discriminate].
    exfalso. rewrite (inv_wg I) in Z.
    pose proof (gather_count I) as N.
    rewrite (progress_all_gone _ Z), (gather_senders I) in N.
    rewrite (inv_idle I) in N.
    + pose proof (inv_room I). simpl in N. lia.
    + unfold ranging. rewrite W, Cl. reflexivity.
  - gather_open s; auto.
Qed.

Lemma gather_waits_exec tr : forall s s',
  Inv cfg s -> inlineWait cfg = true ->
  capacity cfg < numSenders cfg * messagesPerSender cfg ->
  closer s = CWait -> exec cfg s tr = Next s' -> closer s' = CWait.
Proof.
  induction tr as [|a tr IH]; simpl; intros s s' I W C Cl H.
  - inversion H; subst; assumption.
  - apply obind_next in H. destruct H as (s1 & H1 & H2).
    apply (IH s1 s'); auto.
    + eapply gather_step_inv; eassumption.
    + eapply gather_waits; eassumption.
Qed.

Lemma first_enabled_some s l a s' :
  first_enabled cfg s l = Some (a, s') -> step cfg s a = Next s'.
Proof.
  induction l as [|b l IH]; simpl; [discriminate|].
  destruct (step cfg s b) eqn:E; auto.
  intros H. inversion H; subst. exact E.
Qed.

Lemma first_enabled_none s l :
  first_enabled cfg s l = None ->
  forall a s', In a l -> step cfg s a <> Next s'.
Proof.
  induction l as [|b l IH]; simpl; intros H a s' Hin E; [contradiction|].
  destruct Hin as [<-|Hin].
  - rewrite E in H. discriminate.
  - destruct (step cfg s b); try discriminate; eapply IH; eauto.
Qed.

Lemma outside_all_actions s a :
  Inv cfg s -> ~ In a (all_actions cfg) -> step cfg s a = Blocked.
Proof.
  intros I N. unfold all_actions in N.
  destruct a as [i|i| |]; simpl.
  - unfold step_sender.
    destruct (nth_error (senders s) i) eqn:E; [|reflexivity].
    exfalso. apply N. apply in_or_app. left. apply in_map. apply in_seq.
    assert (i < length (senders s)) by (apply nth_error_Some; congruence).
    rewrite (gather_senders I) in *. lia.
  - unfold step_hand.
    destruct (nth_error (senders s) i) eqn:E; [|reflexivity].
    exfalso. apply N. apply in_or_app. right. apply in_or_app. left.
    apply in_map. apply in_seq.
    assert (i < length (senders s)) by (apply nth_error_Some; congruence).
    rewrite (gather_senders I) in *. lia.
  - exfalso. apply N. rewrite !in_app_iff. simpl. auto.
  - exfalso. apply N. rewrite !in_app_iff. simpl. auto.
Qed.

Lemma action_eq_dec (a b : action) : {a = b} + {a <> b}.
Proof. decide equality; apply Nat.eq_dec. Qed.

Lemma gather_gets_stuck n : forall s,
  Inv cfg s -> measure cfg s <= n ->
  (forall tr s', exec cfg s tr = Next s' -> finished s' = false) ->
  exists tr s', exec cfg s tr = Next s' /\ stuck cfg s'.
Proof.
  induction n as [|n IH]; intros s I M F.
  all: destruct (first_enabled cfg s (all_actions cfg))
         as [[a s1]|] eqn:E.
  all: try (apply first_enabled_some in E;
            pose proof (gather_step_measure _ _ E)).
  - lia.
  - exists [], s. split; [reflexivity|]. split; [apply (F [] s eq_refl)|].
    intros a. destruct (in_dec action_eq_dec a (all_actions cfg)) as [Y|N].
    + destruct (step cfg s a) eqn:Sa; auto.
      * exfalso. eapply first_enabled_none; eauto.
      * exfalso. eapply gather_step_no_panic; eauto.
    + apply outside_all_actions; assumption.
  - destruct (IH s1) as (tr & s' & Ht & St).
    + eapply gather_step_inv; eassumption.
    + lia.
    + intros tr s' Hx. apply (F (a :: tr) s'). simpl. rewrite E. exact Hx.
    + exists (a :: tr), s'. simpl. rewrite E. auto.
  - exists [], s. split; [reflexivity|]. split; [apply (F [] s eq_refl)|].
    intros a. destruct (in_dec action_eq_dec a (all_actions cfg)) as [Y|N].
    + destruct (step cfg s a) eqn:Sa; auto.
      * exfalso. eapply first_enabled_none; eauto.
      * exfalso. eapply gather_step_no_panic; eauto.
    + apply outside_all_actions; assumption.
Qed.

End GatherFacts.

(** X20. Gathering many senders into one channel loses and invents
    nothing: once the consumer's [range] has ended, the messages
    received are a permutation of every message of every sender, so
    [numSenders * messagesPerSender] of them; and as long as that
    product fits the integers they are exactly the numbers
    [0 .. numSenders * messagesPerSender - 1], each once: the map the
    test fills has the expected number of keys. *)
Theorem gather_delivers_every_message cfg tr s :
  Gather.exec cfg (Gather.init cfg) tr = Next s ->
  Gather.finished s = true ->
  Permutation (Gather.received s) (Gather.all_messages cfg)
  /\ length (Gather.received s)
     = Gather.numSenders cfg * Gather.messagesPerSender cfg
  /\ ((Z.of_nat (Gather.numSenders cfg * Gather.messagesPerSender cfg)
       <= 2 ^ 63)%Z ->
      Permutation (Gather.received s)
        (map Z.of_nat
           (seq 0 (Gather.numSenders cfg * Gather.messagesPerSender cfg)))
      /\ NoDup (Gather.received s)).
Proof.
  intros H F. pose proof (gather_reachable_inv _ _ H) as I.
  pose proof (gather_finished I F) as P.
  split; [exact P|]. split.
  - rewrite (Permutation_length P). apply all_messages_length.
  - intros B. rewrite (all_messages_plain _ B) in P. split; [exact P|].
    apply Permutation_NoDup with (1 := Permutation_sym P).
    apply Finite.Injective_map_NoDup; [|apply seq_NoDup].
    intros x y E. lia.
Qed.

Lemma gather_delivers_every_message_witness :
  exists s, Gather.exec Gather.test_config (Gather.init Gather.test_config)
              Gather.test_trace = Next s
            /\ Gather.finished s = true
            /\ length (Gather.received s) = 6.
Proof.
  eexists. split; [vm_compute; reflexivity|]. split; [reflexivity|].
  apply (@gather_delivers_every_message Gather.test_config
           Gather.test_trace).
  - vm_compute; reflexivity.
  - reflexivity.
Defined.

(** X21. Gathering never deadlocks when a goroutine waits and closes
    while the consumer ranges (any capacity, unbuffered included), or
    when the test function waits first and the channel holds every
    message: no step panics, some goroutine can run as long as the
    consumer's [range] has not ended, no continuation is longer than
    the state's measure, and a continuation that ends the [range]
    exists. *)
Theorem gather_never_deadlocks cfg tr s :
  Gather.inlineWait cfg = false
  \/ Gather.numSenders cfg * Gather.messagesPerSender cfg
     <= Gather.capacity cfg ->
  Gather.exec cfg (Gather.init cfg) tr = Next s ->
  (forall a m, Gather.step cfg s a <> Panic m)
  /\ (Gather.finished s = false ->
      exists a s', Gather.step cfg s a = Next s')
  /\ (forall tr' s', Gather.exec cfg s tr' = Next s' ->
                     length tr' <= Gather.measure cfg s)
  /\ exists tr' s', Gather.exec cfg (Gather.init cfg) (tr ++ tr') = Next s'
                    /\ Gather.finished s' = true.
Proof.
  intros R H. pose proof (gather_reachable_inv _ _ H) as I.
  split; [|split; [|split]].
  - intros a m. apply gather_step_no_panic. exact I.
  - apply gather_progress; assumption.
  - intros tr' s' H'. pose proof (gather_exec_measure _ _ _ H'). lia.
  - destruct (@gather_can_finish cfg (Gather.measure cfg s) s I R (le_n _))
      as (tr' & s' & H' & F).
    exists tr', s'. split; [|exact F].
    rewrite (@gather_exec_app cfg tr tr' _ _ H). exact H'.
Qed.

Lemma gather_never_deadlocks_witness :
  exists s, Gather.exec Gather.bench_config (Gather.init Gather.bench_config)
              (firstn 5 Gather.bench_trace) = Next s
            /\ forall a m, Gather.step Gather.bench_config s a <> Panic m.
Proof.
  eexists. split; [vm_compute; reflexivity|].
  apply (@gather_never_deadlocks Gather.bench_config
           (firstn 5 Gather.bench_trace)).
  - left; reflexivity.
  - vm_compute; reflexivity.
Defined.

(** X22. The test's shape depends on the capacity: when the test
    function itself runs [wg.Wait(); close(ch)] before it starts to
    receive and the channel holds fewer than
    [numSenders * messagesPerSender] messages, [wg.Wait()] never
    returns on any schedule: the channel is never closed, nothing is
    ever received, and every execution can only run into a state where
    no goroutine can move. *)
Theorem gather_inline_wait_needs_capacity cfg tr s :
  Gather.inlineWait cfg = true ->
  Gather.capacity cfg
  < Gather.numSenders cfg * Gather.messagesPerSender cfg ->
  Gather.exec cfg (Gather.init cfg) tr = Next s ->
  Gather.closer s = Gather.CWait
  /\ Chan.closed (Gather.ch s) = false
  /\ Gather.received s = []
  /\ Gather.finished s = false
  /\ exists tr' s', Gather.exec cfg s tr' = Next s' /\ Gather.stuck cfg s'.
Proof.
  intros W C H. pose proof (gather_reachable_inv _ _ H) as I.
  assert (N : forall tr' s', Gather.exec cfg s tr' = Next s' ->
                Gather.Inv cfg s' /\ Gather.closer s' = Gather.CWait).
  { intros tr' s' H'. split.
    - eapply gather_exec_inv; eassumption.
    - apply (@gather_waits_exec cfg (tr ++ tr') (Gather.init cfg) s');
        auto.
      + apply gather_init_inv.
      + rewrite (@gather_exec_app cfg tr tr' _ _ H). exact H'. }
  assert (Fin : forall tr' s', Gather.exec cfg s tr' = Next s' ->
                  Gather.finished s' = false).
  { intros tr' s' H'. destruct (N _ _ H') as (I' & Cl').
    destruct (Gather.finished s') eqn:F; [|reflexivity].
    destruct (Gather.inv_finished I' F) as (Cd & _).
    rewrite (Gather.inv_closed I'), Cl' in Cd. discriminate. }
  destruct (N [] s eq_refl) as (_ & Cl).
  split; [exact Cl|]. split; [|split; [|split]].
  - rewrite (Gather.inv_closed I), Cl. reflexivity.
  - apply (Gather.inv_idle I). unfold Gather.ranging. rewrite W, Cl.
    reflexivity.
  - apply (Fin [] s eq_refl).
  - apply (@gather_gets_stuck cfg (Gather.measure cfg s)); auto.
Qed.

Lemma gather_inline_wait_needs_capacity_witness :
  exists s, Gather.exec Gather.tight_config (Gather.init Gather.tight_config)
              Gather.tight_trace = Next s
            /\ Gather.closer s = Gather.CWait
            /\ length (Chan.buf (Gather.ch s)) = 4.
Proof.
  eexists. split; [vm_compute; reflexivity|].
  split; [|reflexivity].
  apply (@gather_inline_wait_needs_capacity Gather.tight_config
           Gather.tight_trace).
  - reflexivity.
  - simpl; lia.
  - vm_compute; reflexivity.
Defined.

(** ** BenchmarkFanInPattern/SelectBasedFanIn *)

Section SelectFanInFacts.
Import Chan SelectFanIn.

Variable cfg : config.

Lemma sel_through_app d m1 m2 :
  through d (m1 ++ m2) = through d m1 ++ through d m2.
Proof. unfold through. rewrite filter_app, map_app. reflexivity. Qed.

Lemma sel_init_inv : Inv cfg (init cfg).
Proof.
  constructor; simpl; auto; try discriminate.
  - intros d. destruct d; constructor; simpl; auto; discriminate.
  - intros [H|H]; discriminate.
Qed.

Ltac sel_open s :=
  destruct s; simpl in *; ocrack; chan_crack; try discriminate;
  simpl in *; subst;
  unfold take, set_finished, close_out, set_mg, set, get in *;
  simpl in *.

Ltac sel_lists :=
  repeat match goal with
         | E : feed _ = _ |- _ => rewrite E in *
         | E : buf _ = _ |- _ => rewrite E in *
         end;
  simpl in *; rewrite ?filter_app, ?map_app in *; simpl in *;
  rewrite <- ?app_assoc in *; simpl in *; rewrite ?app_nil_r in *.

Ltac sel_source Is :=
  let e := fresh "e" in
  let a1 := fresh "a" in
  let b1 := fresh "b" in
  let c1 := fresh "c" in
  let d1 := fresh "d" in
  let a2 := fresh "a" in
  let b2 := fresh "b" in
  let c2 := fresh "c" in
  let d2 := fresh "d" in
  intros e; pose proof (Is C1) as [a1 b1 c1 d1];
  pose proof (Is C2) as [a2 b2 c2 d2];
  destruct e; constructor; unfold through, held in *; simpl in *;
  auto; try congruence;
  try solve [intros; split; congruence];
  try solve [let N := fresh "N" in
             intros N; first [destruct (c1 N) | destruct (c2 N)];
             split; congruence];
  try solve [sel_lists; first [assumption | congruence]].

Lemma sel_step_inv s a s' :
  Inv cfg s -> step s a = Next s' -> Inv cfg s'.
Proof.
  intros I H.
  destruct a as [d|d|d| | |]; simpl in H;
    unfold step_feed, step_hand_in, step_select, step_merger,
      step_hand_out, step_consumer in H.
  all: destruct I as [Is Io Isel Il If].
  - destruct d; sel_open s.
    all: constructor; simpl; auto.
    all: try solve [sel_source Is].
  - destruct d; sel_open s.
    all: constructor; simpl; auto; try discriminate.
    all: try solve [sel_source Is].
    all: try solve [intros [?|?]; discriminate].
  - destruct d; sel_open s.
    all: constructor; simpl; auto; try discriminate.
    all: try solve [sel_source Is].
    all: try solve [intros [?|?]; discriminate].
  - sel_open s.
    all: constructor; simpl; auto; try discriminate.
    all: try solve [sel_source Is].
    all: try solve [intros [?|?]; discriminate].
    intros _. apply andb_false_iff. assumption.
  - sel_open s.
    all: match goal with
         | d : side |- _ => destruct d
         end.
    all: constructor; simpl; auto; try discriminate.
    all: try solve [sel_source Is].
    all: try solve [intros [?|?]; discriminate].
  - sel_open s.
    all: constructor; simpl; auto; try discriminate.
    all: try solve [sel_source Is].
Qed.

Lemma sel_exec_inv tr : forall s s',
  Inv cfg s -> exec s tr = Next s' -> Inv cfg s'.
Proof.
  induction tr as [|a tr IH]; simpl; intros s s' I H.
  - inversion H; subst; assumption.
  - apply obind_next in H. destruct H as (s1 & H1 & H2).
    eapply IH; [|eassumption]. eapply sel_step_inv; eassumption.
Qed.

Lemma sel_reachable_inv tr s :
  exec (init cfg) tr = Next s -> Inv cfg s.
Proof. apply sel_exec_inv, sel_init_inv. Qed.

Lemma sel_step_no_panic s a m :
  Inv cfg s -> step s a <> Panic m.
Proof.
  intros I H.
  destruct a as [d|d|d| | |]; simpl in H;
    unfold step_feed, step_hand_in, step_select, step_merger,
      step_hand_out, step_consumer in H.
  - destruct (inv_source I d) as [Hc _ _ _].
    destruct (fed (get d s)) eqn:F; [discriminate|].
    destruct (feed (get d s)); apply obind_panic in H;
      destruct H as [H|(? & _ & H)]; try discriminate.
    + apply close_panic in H. congruence.
    + apply send_panic in H. congruence.
  - destruct (fed (get d s) || isNil (get d s)); [discriminate|].
    destruct (feed (get d s)), (mg s); try discriminate.
    destruct (rendezvous (input (get d s))); discriminate.
  - destruct (mg s); try discriminate.
    destruct (isNil (get d s)); [discriminate|].
    apply obind_panic in H. destruct H as [H|((r & c) & _ & H)].
    + exact (recv_no_panic _ H).
    + destruct r; discriminate.
  - pose proof (inv_out I) as O.
    destruct (mg s); try discriminate; try rewrite O in H;
      try discriminate.
    destruct (isNil (in1 s) && isNil (in2 s)); discriminate.
  - destruct (mg s); try discriminate.
    destruct (negb (finished s) && negb (outClosed s)); discriminate.
  - destruct (finished s); [discriminate|].
    destruct (outClosed s); discriminate.
Qed.

Lemma sel_step_measure s a s' :
  step s a = Next s' -> measure s' < measure s.
Proof.
  intros H.
  destruct a as [d|d|d| | |]; simpl in H;
    unfold step_feed, step_hand_in, step_select, step_merger,
      step_hand_out, step_consumer in H.
  1-3: destruct d.
  all: sel_open s; unfold measure, source_weight; simpl;
    repeat match goal with
           | E : feed _ = _ |- _ => rewrite E in *
           | E : buf _ = _ |- _ => rewrite E in *
           | E : fed _ = _ |- _ => rewrite E in *
           | E : isNil _ = _ |- _ => rewrite E in *
           end;
    simpl; rewrite ?length_app; simpl;
    repeat match goal with
           | |- context [if ?b then _ else _] => destruct b
           end; lia.
Qed.

Lemma sel_exec_measure tr : forall s s',
  exec s tr = Next s' -> length tr + measure s' <= measure s.
Proof.
  induction tr as [|a tr IH]; simpl; intros s s' H.
  - inversion H; subst; lia.
  - apply obind_next in H. destruct H as (s1 & H1 & H2).
    pose proof (sel_step_measure _ _ H1).
    pose proof (IH _ _ H2). lia.
Qed.

Lemma sel_exec_app tr1 : forall tr2 s s1,
  exec s tr1 = Next s1 -> exec s (tr1 ++ tr2) = exec s1 tr2.
Proof.
  induction tr1 as [|a tr1 IH]; simpl; intros tr2 s s1 H.
  - inversion H; reflexivity.
  - apply obind_next in H. destruct H as (s2 & H1 & H2).
    rewrite H1. simpl. apply IH. exact H2.
Qed.

Ltac sel_moves d x M N Hc :=
  destruct (buf (input x)) as [|? ?] eqn:B;
  [ destruct (closed (input x)) eqn:C;
    [ exists (ASelect d); simpl; unfold step_select; simpl;
      rewrite M, N; unfold recv; rewrite B, C; simpl; eauto
    | destruct (feed x) as [|? ?] eqn:Fe;
      [ exists (AFeed d); simpl; unfold step_feed; simpl;
        rewrite <- Hc, Fe; unfold close; rewrite C; simpl; eauto
      | exists (AHandIn d); simpl; unfold step_hand_in; simpl;
        rewrite <- Hc, N, Fe, M; unfold rendezvous; rewrite C, B;
        simpl; eauto ] ]
  | exists (ASelect d); simpl; unfold step_select; simpl;
    rewrite M, N; unfold recv; rewrite B; simpl; eauto ].

(** An input that is not yet [nil] lets somebody move while the merger
    is at its [select]. *)
Lemma sel_source_moves s d :
  Inv cfg s -> mg s = MSelect -> isNil (get d s) = false ->
  exists a s', step s a = Next s'.
Proof.
  intros I M N. destruct (inv_source I d) as [Hc Hf _ _].
  destruct d; simpl in *.
  - sel_moves C1 (in1 s) M N Hc.
  - sel_moves C2 (in2 s) M N Hc.
Qed.

Lemma sel_progress s :
  Inv cfg s -> finished s = false -> exists a s', step s a = Next s'.
Proof.
  intros I F. pose proof (inv_out I) as O.
  destruct (mg s) eqn:M.
  - destruct (inv_select I M) as [N|N].
    + apply (@sel_source_moves s C1); assumption.
    + apply (@sel_source_moves s C2); assumption.
  - exists AHandOut. simpl. unfold step_hand_out. rewrite M, F, O.
    simpl. eauto.
  - exists AMerger. simpl. unfold step_merger. rewrite M.
    destruct (isNil (in1 s) && isNil (in2 s)); eauto.
  - exists AMerger. simpl. unfold step_merger. rewrite M, O. eauto.
  - exists AConsumer. simpl. unfold step_consumer. rewrite F, O. eauto.
Qed.

Lemma sel_can_finish n : forall s,
  Inv cfg s -> measure s <= n ->
  exists tr s', exec s tr = Next s' /\ finished s' = true.
Proof.
  induction n as [|n IH]; intros s I M.
  - destruct (finished s) eqn:F.
    + exists [], s. auto.
    + destruct (sel_progress I F) as (a & s' & H).
      pose proof (sel_step_measure _ _ H). lia.
  - destruct (finished s) eqn:F.
    + exists [], s. auto.
    + destruct (sel_progress I F) as (a & s1 & H).
      pose proof (sel_step_measure _ _ H).
      destruct (IH s1) as (tr & s' & Ht & Hf);
        [eapply sel_step_inv; eassumption | lia |].
      exists (a :: tr), s'. simpl. rewrite H. simpl. auto.
Qed.

(** With [out] closed both inputs are closed and have been passed on
    entirely. *)
Lemma sel_closed s d :
  Inv cfg s -> outClosed s = true ->
  isNil (get d s) = true /\ closed (input (get d s)) = true
  /\ buf (input (get d s)) = [] /\ feed (get d s) = []
  /\ through d (merged s) = src cfg d.
Proof.
  intros I O. rewrite (inv_out I) in O.
  destruct (mg s) eqn:M; try discriminate.
  destruct (inv_left I) as (N1 & N2); [auto|].
  assert (N : isNil (get d s) = true) by (destruct d; assumption).
  destruct (inv_source I d) as [Hc Hf Hn Ho].
  destruct (Hn N) as (C & B).
  assert (Fe : feed (get d s) = []) by (apply Hf; congruence).
  rewrite M in Ho. simpl in Ho. rewrite B, Fe, app_nil_r in Ho. auto.
Qed.

Lemma sel_split (m : list (side * Z)) :
  Permutation (map snd m) (through C1 m ++ through C2 m).
Proof.
  induction m as [|[d v] m IH]; simpl; [constructor|].
  unfold through in *. destruct d; simpl.
  - apply perm_skip. exact IH.
  - rewrite IH. apply Permutation_middle.
Qed.

End SelectFanInFacts.

(** X23. The select-based fan-in loses, duplicates and invents nothing:
    at every moment the values received from one input are a prefix of
    what that input sends, and once the consumer's [range] has ended
    the values received are a permutation of the values of both inputs
    (as many as both held), those of each input in the order sent. *)
Theorem select_fan_in_delivers_every_value cfg tr s :
  SelectFanIn.exec (SelectFanIn.init cfg) tr = Next s ->
  (forall d, exists rest,
      SelectFanIn.src cfg d
      = SelectFanIn.through d (SelectFanIn.merged s) ++ rest)
  /\ (SelectFanIn.finished s = true ->
      Permutation (SelectFanIn.values s)
                  (SelectFanIn.src1 cfg ++ SelectFanIn.src2 cfg)
      /\ length (SelectFanIn.values s)
         = length (SelectFanIn.src1 cfg) + length (SelectFanIn.src2 cfg)
      /\ forall d, SelectFanIn.through d (SelectFanIn.merged s)
                   = SelectFanIn.src cfg d).
Proof.
  intros H. pose proof (sel_reachable_inv _ _ H) as I. split.
  - intros d. destruct (SelectFanIn.inv_source I d) as [_ _ _ Ho].
    eexists. symmetry. exact Ho.
  - intros F. pose proof (SelectFanIn.inv_finished I F) as O.
    assert (T : forall d, SelectFanIn.through d (SelectFanIn.merged s)
                          = SelectFanIn.src cfg d).
    { intros d. apply (sel_closed d I O). }
    assert (P : Permutation (SelectFanIn.values s)
                  (SelectFanIn.src1 cfg ++ SelectFanIn.src2 cfg)).
    { unfold SelectFanIn.values. rewrite sel_split.
      rewrite (T SelectFanIn.C1), (T SelectFanIn.C2). reflexivity. }
    split; [exact P|]. split; [|exact T].
    rewrite (Permutation_length P), length_app. reflexivity.
Qed.

Lemma select_fan_in_delivers_every_value_witness :
  exists s, SelectFanIn.exec (SelectFanIn.init SelectFanIn.small_config)
              SelectFanIn.small_trace = Next s
            /\ SelectFanIn.finished s = true
            /\ Permutation (SelectFanIn.values s)
                           [0; 1; 2; 100; 101; 102]%Z.
Proof.
  eexists. split; [vm_compute; reflexivity|]. split; [reflexivity|].
  apply (@select_fan_in_delivers_every_value SelectFanIn.small_config
           SelectFanIn.small_trace).
  - vm_compute; reflexivity.
  - reflexivity.
Defined.

(** X24. The select-based fan-in shuts down cleanly on every schedule:
    no step panics (the merger never sends on the closed [out] and its
    deferred [close(out)] runs once); [out] is closed only when both
    input variables have been set to [nil], that is when both inputs
    are closed and drained; the [select] never waits on two [nil]
    channels; some goroutine can run as long as the consumer's [range]
    has not ended, no continuation is longer than the state's measure,
    and a continuation that ends the [range] exists. *)
Theorem select_fan_in_shuts_down cfg tr s :
  SelectFanIn.exec (SelectFanIn.init cfg) tr = Next s ->
  (forall a m, SelectFanIn.step s a <> Panic m)
  /\ (SelectFanIn.outClosed s = true ->
      forall d, SelectFanIn.isNil (SelectFanIn.get d s) = true
                /\ Chan.closed (SelectFanIn.input (SelectFanIn.get d s))
                   = true
                /\ Chan.buf (SelectFanIn.input (SelectFanIn.get d s)) = []
                /\ SelectFanIn.feed (SelectFanIn.get d s) = [])
  /\ (SelectFanIn.mg s = SelectFanIn.MSelect ->
      SelectFanIn.isNil (SelectFanIn.in1 s) = false
      \/ SelectFanIn.isNil (SelectFanIn.in2 s) = false)
  /\ (SelectFanIn.finished s = false ->
      exists a s', SelectFanIn.step s a = Next s')
  /\ (forall tr' s', SelectFanIn.exec s tr' = Next s' ->
                     length tr' <= SelectFanIn.measure s)
  /\ exists tr' s', SelectFanIn.exec (SelectFanIn.init cfg) (tr ++ tr')
                    = Next s'
                    /\ SelectFanIn.finished s' = true.
Proof.
  intros H. pose proof (sel_reachable_inv _ _ H) as I.
  split; [|split; [|split; [|split; [|split]]]].
  - intros a m. apply sel_step_no_panic with (cfg := cfg). exact I.
  - intros O d. destruct (sel_closed d I O) as (N & C & B & Fe & _). auto.
  - apply (SelectFanIn.inv_select I).
  - apply sel_progress with (cfg := cfg). exact I.
  - intros tr' s' H'. pose proof (sel_exec_measure _ _ H'). lia.
  - destruct (@sel_can_finish cfg (SelectFanIn.measure s) s I (le_n _))
      as (tr' & s' & H' & F).
    exists tr', s'. split; [|exact F].
    rewrite (@sel_exec_app tr tr' _ _ H). exact H'.
Qed.

Lemma select_fan_in_shuts_down_witness :
  exists s, SelectFanIn.exec (SelectFanIn.init SelectFanIn.small_config)
              (firstn 6 SelectFanIn.small_trace) = Next s
            /\ forall a m, SelectFanIn.step s a <> Panic m.
Proof.
  eexists. split; [vm_compute; reflexivity|].
  apply (@select_fan_in_shuts_down SelectFanIn.small_config
           (firstn 6 SelectFanIn.small_trace)).
  vm_compute; reflexivity.
Defined.
(** ** TestPingPongPattern *)

Section PingPongFacts.
Import Chan PingPong.

Variable cfg : config.

(** [maxHits] is an [int]. *)
Hypothesis int_range : (maxHits cfg < 2 ^ 63)%Z.

Lemma pp_init_inv : Inv cfg init.
Proof.
  constructor; simpl; auto; try discriminate; unfold top; try lia.
Qed.

Ltac pp_open s :=
  destruct s; simpl in *; ocrack;
  repeat match goal with
         | E : recv _ = Next ?p |- _ => is_var p; destruct p
         | E : recv _ = Next (?o, _) |- _ => is_var o; destruct o
         end;
  simpl in *; ocrack; chan_crack; try discriminate;
  simpl in *; subst;
  unfold log_test_timeout, log_timeout, set_test, set_hits, set_done,
    set_table, set, get in *;
  simpl in *; subst; simpl in *.

Ltac pp_facts :=
  repeat match goal with
         | E : buf _ = _ |- _ => rewrite E in *
         | E : closed _ = _ |- _ => rewrite E in *
         | E : cap _ = _ |- _ => rewrite E in *
         | L : (_ <=? _)%Z = true |- _ => apply Z.leb_le in L
         | L : (_ <=? _)%Z = false |- _ => apply Z.leb_gt in L
         end;
  simpl in *; rewrite ?length_app in *; simpl in *.

Ltac pp_use :=
  repeat match goal with
         | H : ?P -> _, HP : ?P |- _ => specialize (H HP)
         | H : ?x = ?x -> _ |- _ => specialize (H eq_refl)
         | H : _ :: _ <> [] -> _ |- _ =>
             let N := fresh "N" in
             assert (N := H ltac:(discriminate)); clear H
         | H : _ \/ _ -> _ |- _ =>
             first [ specialize (H (or_introl eq_refl))
                   | specialize (H (or_intror eq_refl)) ]
         | H : _ /\ _ |- _ => destruct H
         end.

Ltac pp_close :=
  solve [ lia | congruence | tauto | discriminate
        | split; first [lia | congruence]
        | exfalso; first [lia | congruence] ].

Ltac pp_goal :=
  unfold top, player_ok, holding, pending, unserved, left_loop in *;
  simpl in *; intros; pp_facts;
  try match goal with
      | Hb : buf ?c <> [] |- _ =>
          destruct (buf c) eqn:?; [contradiction|]; simpl in *
      end;
  pp_use;
  try first
    [ pp_close
    | repeat match goal with
             | p : player |- _ => destruct p
             | t : tester |- _ => destruct t
             end;
      simpl in *; pp_use; pp_close
    | repeat match goal with
             | p : player |- _ => destruct p
             | t : tester |- _ => destruct t
             | b : bool |- _ => destruct b
             end;
      simpl in *; pp_use; pp_close ].

Lemma wrap64_hit h :
  (0 <= h < top cfg)%Z -> wrap64 (h + 1) = (h + 1)%Z.
Proof. unfold top. intros H. apply wrap64_small. lia. Qed.

Lemma pp_step_inv s a s' :
  Inv cfg s -> step cfg s a = Next s' -> Inv cfg s'.
Proof.
  intros I H.
  destruct a as [w|w| |]; simpl in H;
    unfold step_player, step_timeout, step_test, step_test_timeout in H.
  all: destruct I as [Itc Idc Ido Ione Ih Ipi Ipo Ibuf Iserve Iroom Iall
                       Iball Icl Itimed Ileft].
  - destruct w; pp_open s; pp_facts.
    all: try (rewrite wrap64_hit in * by (unfold player_ok in *; lia)).
    all: constructor; simpl; auto; pp_goal.
  - destruct w; pp_open s; pp_facts.
    all: constructor; simpl; auto; pp_goal.
  - pp_open s; pp_facts.
    all: constructor; simpl; auto; pp_goal.
  - pp_open s; pp_facts.
    all: constructor; simpl; auto; pp_goal.
Qed.

Lemma pp_exec_inv tr : forall s s',
  Inv cfg s -> exec cfg s tr = Next s' -> Inv cfg s'.
Proof.
  induction tr as [|a tr IH]; simpl; intros s s' I H.
  - inversion H; subst; assumption.
  - apply obind_next in H. destruct H as (s1 & H1 & H2).
    eapply IH; [|eassumption]. eapply pp_step_inv; eassumption.
Qed.

Lemma pp_reachable_inv tr s : exec cfg init tr = Next s -> Inv cfg s.
Proof. apply pp_exec_inv, pp_init_inv. Qed.

(** A player at [done <- true] finds room. *)
Lemma pp_done_room s w :
  Inv cfg s -> get w s = PDone ->
  exists s', step cfg s (APlayer w) = Next s'.
Proof.
  intros I G. pose proof (inv_done_room I) as R.
  pose proof (inv_done_cap I) as C. pose proof (inv_done_open I) as O.
  simpl. unfold step_player, send. rewrite G, O.
  assert (L : length (buf (done s)) < cap (done s)).
  { rewrite C. destruct w; simpl in G; rewrite G in R; simpl in R;
      unfold pending in R.
    - destruct (pong s); lia.
    - destruct (ping s); lia. }
  apply Nat.ltb_lt in L. rewrite L. simpl. eauto.
Qed.

Lemma pp_step_no_panic s a m :
  Inv cfg s -> test_timed_out s = false -> step cfg s a <> Panic m.
Proof.
  intros I T H.
  pose proof (inv_ball I T) as B. pose proof (inv_done_open I) as O.
  pose proof (inv_serve I) as Sv. pose proof (inv_timed I T) as Tm.
  destruct a as [w|w| |]; simpl in H;
    unfold step_player, step_timeout, step_test, step_test_timeout in H.
  - destruct w; simpl in H.
    + destruct (ping s) eqn:P; try discriminate; simpl in B.
      * apply obind_panic in H. destruct H as [H|((r & c) & _ & H)].
        -- exact (recv_no_panic _ H).
        -- destruct r; discriminate.
      * destruct (maxHits cfg <=? hits s)%Z; discriminate.
      * apply obind_panic in H. destruct H as [H|(? & _ & H)];
          [|discriminate].
        apply close_panic in H. rewrite H in B. lia.
      * apply obind_panic in H. destruct H as [H|(? & _ & H)];
          [|discriminate].
        apply send_panic in H. rewrite H in B. lia.
      * apply obind_panic in H. destruct H as [H|(? & _ & H)];
          [|discriminate].
        apply send_panic in H. congruence.
    + destruct (pong s) eqn:P; try discriminate; simpl in B.
      * apply obind_panic in H. destruct H as [H|((r & c) & _ & H)].
        -- exact (recv_no_panic _ H).
        -- destruct r; discriminate.
      * destruct (maxHits cfg <=? hits s)%Z; discriminate.
      * apply obind_panic in H. destruct H as [H|(? & _ & H)];
          [|discriminate].
        apply close_panic in H. rewrite H in B. lia.
      * apply obind_panic in H. destruct H as [H|(? & _ & H)];
          [|discriminate].
        apply send_panic in H. rewrite H in B. lia.
      * apply obind_panic in H. destruct H as [H|(? & _ & H)];
          [|discriminate].
        apply send_panic in H. congruence.
  - destruct (get w s); discriminate.
  - destruct (test s) eqn:Te; try discriminate.
    + apply obind_panic in H. destruct H as [H|(? & _ & H)];
        [|discriminate].
      apply send_panic in H. destruct (Sv eq_refl). congruence.
    + apply obind_panic in H. destruct H as [H|((r & c) & _ & H)].
      * exact (recv_no_panic _ H).
      * discriminate.
    + congruence.
    + destruct (recv (done s)) as [[r c]| |] eqn:R; try discriminate.
      exact (recv_no_panic _ R).
  - destruct (test s); discriminate.
Qed.

Lemma pp_step_measure s a s' :
  Inv cfg s -> step cfg s a = Next s' -> measure cfg s' < measure cfg s.
Proof.
  intros I H.
  destruct a as [w|w| |]; simpl in H;
    unfold step_player, step_timeout, step_test, step_test_timeout in H.
  all: destruct I as [Itc Idc Ido Ione Ih Ipi Ipo Ibuf Iserve Iroom Iall
                       Iball Icl Itimed Ileft].
  1-2: destruct w.
  all: pp_open s; pp_facts.
  all: try (rewrite wrap64_hit in * by (unfold player_ok in *; lia)).
  all: unfold measure, player_ok, top in *; simpl;
    repeat match goal with
           | E : buf _ = _ |- _ => rewrite E
           end;
    rewrite ?length_app; simpl; try lia.
Qed.

Lemma pp_exec_measure tr : forall s s',
  Inv cfg s -> exec cfg s tr = Next s' ->
  length tr + measure cfg s' <= measure cfg s.
Proof.
  induction tr as [|a tr IH]; simpl; intros s s' I H.
  - inversion H; subst; lia.
  - apply obind_next in H. destruct H as (s1 & H1 & H2).
    pose proof (pp_step_measure _ I H1).
    pose proof (IH _ _ (pp_step_inv _ I H1) H2). lia.
Qed.

Lemma pp_exec_app tr1 : forall tr2 s s1,
  exec cfg s tr1 = Next s1 -> exec cfg s (tr1 ++ tr2) = exec cfg s1 tr2.
Proof.
  induction tr1 as [|a tr1 IH]; simpl; intros tr2 s s1 H.
  - inversion H; reflexivity.
  - apply obind_next in H. destruct H as (s2 & H1 & H2).
    rewrite H1. simpl. apply IH. exact H2.
Qed.

(** Steps other than timeouts leave the history of timeouts alone. *)
Lemma pp_no_timeout s a s' :
  is_timeout a = false -> step cfg s a = Next s' ->
  test_timed_out s' = test_timed_out s
  /\ player_timeouts s' = player_timeouts s.
Proof.
  intros T H. destruct a as [w|w| |]; try discriminate; simpl in H;
    unfold step_player, step_test in H.
  - destruct w; pp_open s; auto.
  - pp_open s; auto.
Qed.

(** Whoever has the ball can go on. *)
Lemma pp_holder_moves s w :
  Inv cfg s -> test_timed_out s = false -> holding (get w s) = 1 ->
  exists s', step cfg s (APlayer w) = Next s'.
Proof.
  intros I T Hd. pose proof (inv_ball I T) as B.
  pose proof (inv_one I) as O. pose proof (inv_table_cap I) as C.
  assert (E : buf (table s) = [] /\ closed (table s) = false).
  { destruct w; simpl in Hd; rewrite Hd in *;
      destruct (buf (table s)); destruct (closed (table s));
      simpl in *; try lia; auto. }
  destruct E as (Eb & Ec).
  simpl. unfold step_player.
  destruct (get w s); simpl in Hd; try discriminate; eauto.
  - destruct (maxHits cfg <=? hits s)%Z; eauto.
  - unfold close. rewrite Ec. simpl. eauto.
  - unfold send. rewrite Ec, Eb, C. simpl. eauto.
Qed.

(** With the ball served and in nobody's hands, a player at its
    [select] finds the ball in [table] or [table] closed. *)
Lemma pp_select_moves s w :
  Inv cfg s -> test_timed_out s = false -> get w s = PSelect ->
  test s <> TServe -> holding (ping s) = 0 -> holding (pong s) = 0 ->
  exists s', step cfg s (APlayer w) = Next s'.
Proof.
  intros I T G Sv H1 H2. pose proof (inv_ball I T) as B.
  rewrite H1, H2 in B.
  assert (U : unserved (test s) = 0) by (destruct (test s); auto; congruence).
  rewrite U in B.
  simpl. unfold step_player, recv. rewrite G.
  destruct (buf (table s)); [|simpl; eauto].
  destruct (closed (table s)); simpl in *; [eauto|lia].
Qed.

Lemma pp_progress s :
  Inv cfg s -> test_timed_out s = false -> ~ over s ->
  exists a s', is_timeout a = false /\ step cfg s a = Next s'.
Proof.
  intros I T N.
  destruct (test s) eqn:Te.
  - (* the ball is still to be served *)
    destruct (inv_serve I Te) as (Oc & _).
    pose proof (inv_one I) as O. rewrite Te in O. simpl in O.
    exists ATest. simpl. unfold step_test, send.
    rewrite Te, Oc, (inv_table_cap I).
    destruct (buf (table s)); simpl in *; [eauto|lia].
  - destruct (Nat.eq_dec (holding (ping s)) 1) as [Hp|Hp].
    { destruct (@pp_holder_moves s Ping I T Hp) as (s' & H).
      exists (APlayer Ping), s'. auto. }
    destruct (Nat.eq_dec (holding (pong s)) 1) as [Hq|Hq].
    { destruct (@pp_holder_moves s Pong I T Hq) as (s' & H).
      exists (APlayer Pong), s'. auto. }
    assert (Hp0 : holding (ping s) = 0)
      by (unfold holding in *; destruct (ping s); auto; congruence).
    assert (Hq0 : holding (pong s) = 0)
      by (unfold holding in *; destruct (pong s); auto; congruence).
    destruct (ping s) eqn:P; try discriminate.
    + destruct (@pp_select_moves s Ping I T P) as (s' & H);
        auto; try congruence.
      exists (APlayer Ping), s'. auto.
    + destruct (@pp_done_room s Ping I P) as (s' & H).
      exists (APlayer Ping), s'. auto.
    + destruct (pong s) eqn:Q; try discriminate.
      * destruct (@pp_select_moves s Pong I T Q) as (s' & H);
          auto; try congruence.
        exists (APlayer Pong), s'. auto.
      * destruct (@pp_done_room s Pong I Q) as (s' & H).
        exists (APlayer Pong), s'. auto.
      * (* both players have reported: [done] is not empty *)
        pose proof (inv_done_all I) as A. rewrite Te, P, Q in A.
        simpl in A. exists ATest. simpl. unfold step_test, recv.
        rewrite Te. destruct (buf (done s)); simpl in *; [lia|eauto].
  - exfalso. apply (inv_timed I T Te).
  - exists ATest. simpl. unfold step_test. rewrite Te.
    destruct (recv (done s)) as [[r c]| |] eqn:R; eauto.
    exfalso. exact (recv_no_panic _ R).
  - destruct (Nat.eq_dec (holding (ping s)) 1) as [Hp|Hp].
    { destruct (@pp_holder_moves s Ping I T Hp) as (s' & H).
      exists (APlayer Ping), s'. auto. }
    destruct (Nat.eq_dec (holding (pong s)) 1) as [Hq|Hq].
    { destruct (@pp_holder_moves s Pong I T Hq) as (s' & H).
      exists (APlayer Pong), s'. auto. }
    assert (Hp0 : holding (ping s) = 0)
      by (unfold holding in *; destruct (ping s); auto; congruence).
    assert (Hq0 : holding (pong s) = 0)
      by (unfold holding in *; destruct (pong s); auto; congruence).
    destruct (ping s) eqn:P; try discriminate.
    + destruct (@pp_select_moves s Ping I T P) as (s' & H);
        auto; try congruence.
      exists (APlayer Ping), s'. auto.
    + destruct (@pp_done_room s Ping I P) as (s' & H).
      exists (APlayer Ping), s'. auto.
    + destruct (pong s) eqn:Q; try discriminate.
      * destruct (@pp_select_moves s Pong I T Q) as (s' & H);
          auto; try congruence.
        exists (APlayer Pong), s'. auto.
      * destruct (@pp_done_room s Pong I Q) as (s' & H).
        exists (APlayer Pong), s'. auto.
      * exfalso. apply N. unfold over. auto.
Qed.

Lemma over_dec s : {over s} + {~ over s}.
Proof.
  unfold over.
  destruct (ping s); try (right; intros (? & ? & ?); discriminate).
  destruct (pong s); try (right; intros (? & ? & ?); discriminate).
  destruct (test s); try (right; intros (? & ? & ?); discriminate).
  left. auto.
Qed.

Lemma pp_can_finish n : forall s,
  Inv cfg s -> test_timed_out s = false -> measure cfg s <= n ->
  exists tr s', exec cfg s tr = Next s' /\ over s'
                /\ Forall (fun a => is_timeout a = false) tr.
Proof.
  induction n as [|n IH]; intros s I T M.
  - destruct (over_dec s) as [O|O].
    + exists [], s. split; [reflexivity|]. split; [exact O|]. constructor.
    + destruct (pp_progress I T O) as (a & s' & _ & H).
      pose proof (pp_step_measure _ I H). lia.
  - destruct (over_dec s) as [O|O].
    + exists [], s. split; [reflexivity|]. split; [exact O|]. constructor.
    + destruct (pp_progress I T O) as (a & s1 & Ta & H).
      pose proof (pp_step_measure _ I H).
      destruct (pp_no_timeout _ _ Ta H) as (T1 & _).
      destruct (IH s1) as (tr & s' & Ht & Ov & Fa);
        [eapply pp_step_inv; eassumption | congruence | lia |].
      exists (a :: tr), s'. simpl. rewrite H. simpl.
      split; [exact Ht|]. split; [exact Ov|]. constructor; assumption.
Qed.

(** A game without timeouts ends with the ball hit [maxHits] times. *)
Lemma pp_over s :
  Inv cfg s -> player_timeouts s = 0 -> test_timed_out s = false ->
  left_loop (ping s) = true \/ left_loop (pong s) = true ->
  closed (table s) = true /\ buf (table s) = []
  /\ (maxHits cfg <= hits s <= top cfg)%Z.
Proof.
  intros I P T L. pose proof (inv_left I P T L) as C.
  pose proof (inv_closed I T C) as H. pose proof (inv_hits I) as B.
  pose proof (inv_ball I T) as Bl. rewrite C in Bl.
  split; [exact C|]. split.
  - destruct (buf (table s)); [reflexivity|simpl in Bl; lia].
  - lia.
Qed.

End PingPongFacts.

(** X25. The ball is never hit more than [maxHits] times, whatever the
    schedule and whenever the timers fire: [hits] stays between 0 and
    [max 1 maxHits]; the ball is in at most one place (not yet served,
    in [table], or with one player), so the increment of [hits] through
    the shared pointer is never concurrent; a player at [done <- true]
    always finds room in [done]; and every execution is finite. *)
Theorem ping_pong_ball_is_never_overhit cfg tr s :
  (PingPong.maxHits cfg < 2 ^ 63)%Z ->
  PingPong.exec cfg PingPong.init tr = Next s ->
  (0 <= PingPong.hits s <= Z.max 1 (PingPong.maxHits cfg))%Z
  /\ PingPong.unserved (PingPong.test s)
     + length (Chan.buf (PingPong.table s))
     + PingPong.holding (PingPong.ping s)
     + PingPong.holding (PingPong.pong s) <= 1
  /\ (forall w, PingPong.get w s = PingPong.PDone ->
        exists s', PingPong.step cfg s (PingPong.APlayer w) = Next s')
  /\ length tr + PingPong.measure cfg s
     <= PingPong.measure cfg PingPong.init.
Proof.
  intros R H. assert (I : PingPong.Inv cfg s)
    by (eapply pp_reachable_inv; eassumption).
  split; [apply (PingPong.inv_hits I)|].
  split; [apply (PingPong.inv_one I)|]. split.
  - intros w G. eapply pp_done_room; eassumption.
  - eapply pp_exec_measure; [exact R | apply pp_init_inv | exact H].
Qed.

Lemma ping_pong_ball_is_never_overhit_witness :
  exists s, PingPong.exec PingPong.test_config PingPong.init
              PingPong.test_trace = Next s
            /\ (0 <= PingPong.hits s <= 10)%Z.
Proof.
  eexists. split; [vm_compute; reflexivity|].
  apply (@ping_pong_ball_is_never_overhit PingPong.test_config
           PingPong.test_trace).
  - reflexivity.
  - vm_compute; reflexivity.
Defined.

(** X26. As long as the test function has not taken its 200ms timeout,
    no step of the game panics: nobody sends on the closed [table] and
    nobody closes it twice.  [table] is then closed only by the player
    who made the last hit: with [table] closed the ball has at least
    [maxHits] hits and is out of play. *)
Theorem ping_pong_safe_until_test_timeout cfg tr s :
  (PingPong.maxHits cfg < 2 ^ 63)%Z ->
  PingPong.exec cfg PingPong.init tr = Next s ->
  PingPong.test_timed_out s = false ->
  (forall a m, PingPong.step cfg s a <> Panic m)
  /\ (Chan.closed (PingPong.table s) = true ->
      (PingPong.maxHits cfg <= PingPong.hits s)%Z
      /\ Chan.buf (PingPong.table s) = []
      /\ PingPong.holding (PingPong.ping s) = 0
      /\ PingPong.holding (PingPong.pong s) = 0).
Proof.
  intros R H T. assert (I : PingPong.Inv cfg s)
    by (eapply pp_reachable_inv; eassumption). split.
  - intros a m. eapply pp_step_no_panic; eassumption.
  - intros C. pose proof (PingPong.inv_ball I T) as B. rewrite C in B.
    split; [apply (PingPong.inv_closed I T C)|].
    destruct (Chan.buf (PingPong.table s)); simpl in B; [|lia].
    repeat split; lia.
Qed.

Lemma ping_pong_safe_until_test_timeout_witness :
  exists s, PingPong.exec PingPong.test_config PingPong.init
              (firstn 20 PingPong.test_trace) = Next s
            /\ forall a m, PingPong.step PingPong.test_config s a
                           <> Panic m.
Proof.
  eexists. split; [vm_compute; reflexivity|].
  apply (@ping_pong_safe_until_test_timeout PingPong.test_config
           (firstn 20 PingPong.test_trace)).
  - reflexivity.
  - vm_compute; reflexivity.
  - reflexivity.
Defined.

(** X27. The game needs no timeout to end: as long as the test function
    has not taken its timeout, some goroutine can take a step that is
    not a timeout until all three have returned, and a continuation
    without timeouts in which all return exists.  When no timer has
    fired at all and a player has left its loop, [table] is closed and
    empty and the ball has been hit exactly [maxHits] times
    ([maxHits >= 1]). *)
Theorem ping_pong_game_completes cfg tr s :
  (PingPong.maxHits cfg < 2 ^ 63)%Z ->
  PingPong.exec cfg PingPong.init tr = Next s ->
  PingPong.test_timed_out s = false ->
  (~ PingPong.over s ->
   exists a s', PingPong.is_timeout a = false
                /\ PingPong.step cfg s a = Next s')
  /\ (exists tr' s', PingPong.exec cfg PingPong.init (tr ++ tr') = Next s'
                     /\ PingPong.over s'
                     /\ Forall (fun a => PingPong.is_timeout a = false) tr')
  /\ (PingPong.player_timeouts s = 0 ->
      PingPong.left_loop (PingPong.ping s) = true
      \/ PingPong.left_loop (PingPong.pong s) = true ->
      Chan.closed (PingPong.table s) = true
      /\ Chan.buf (PingPong.table s) = []
      /\ ((1 <= PingPong.maxHits cfg)%Z ->
          PingPong.hits s = PingPong.maxHits cfg)).
Proof.
  intros R H T. assert (I : PingPong.Inv cfg s)
    by (eapply pp_reachable_inv; eassumption).
  split; [|split].
  - eapply pp_progress; eassumption.
  - destruct (@pp_can_finish cfg R (PingPong.measure cfg s) s I T (le_n _))
      as (tr' & s' & H' & O & F).
    exists tr', s'. split; [|split; assumption].
    rewrite (@pp_exec_app cfg tr tr' _ _ H). exact H'.
  - intros P L. destruct (@pp_over cfg s I P T L) as (C & B & Hh).
    split; [exact C|]. split; [exact B|].
    intros M. unfold PingPong.top in Hh. lia.
Qed.

Lemma ping_pong_game_completes_witness :
  exists s, PingPong.exec PingPong.test_config PingPong.init
              PingPong.test_trace = Next s
            /\ PingPong.hits s = 10%Z.
Proof.
  eexists. split; [vm_compute; reflexivity|].
  destruct (@ping_pong_game_completes PingPong.test_config
              PingPong.test_trace
              (PingPong.run PingPong.test_config 400 0 PingPong.init))
    as (_ & _ & F).
  - reflexivity.
  - vm_compute; reflexivity.
  - reflexivity.
  - apply F; [reflexivity | left; reflexivity | simpl; lia].
Defined.


(** ** The quit signal *)

Section QuitFacts.
Import Quit.

Lemma numbers_next n :
  numbers (S n) = numbers n ++ [wrap64 (Z.of_nat n)].
Proof.
  unfold numbers. rewrite seq_S, map_app. reflexivity.
Qed.

Lemma numbers_length n : length (numbers n) = n.
Proof. unfold numbers. rewrite length_map, length_seq. reflexivity. Qed.

Lemma wrap64_count n :
  wrap64 (wrap64 (Z.of_nat n) + 1) = wrap64 (Z.of_nat (S n)).
Proof. rewrite wrap64_add_l. f_equal. lia. Qed.

Lemma next_first_cases k :
  k < 3 ->
  (next_first k = TFirst (S k) /\ S k < 3) \/ (next_first k = TQuit /\ S k = 3).
Proof.
  intros H. unfold next_first.
  destruct (Nat.ltb_spec (S k) 3); [left | right]; split; auto; lia.
Qed.

Lemma quit_init_inv : Inv init.
Proof.
  constructor; simpl; auto; try lia.
  - intros i [= <-]. reflexivity.
  - intros [H | H]; discriminate.
  - intros k [= <-]. lia.
Qed.

Ltac quit_open :=
  match goal with
  | H : step _ ?a = _ |- _ =>
      destruct a; simpl in H;
      unfold step_hand, step_quit_seen, step_gen, step_test,
        step_test_timeout in H
  end.

Ltac quit_cases s :=
  destruct s as [g t c q n r f]; simpl in *;
  destruct g as [i | |]; destruct t as [k | | |]; simpl in *;
  destruct c; destruct q; simpl in *; try discriminate.

Lemma quit_step_inv s a s' : Inv s -> step s a = Next s' -> Inv s'.
Proof.
  intros [N X C L Q F B K] H. quit_open; quit_cases s;
    try (destruct L; auto; discriminate);
    inversion H; subst; clear H;
    try (destruct (next_first_cases (F k eq_refl)) as [[-> Hk] | [-> Hk]]);
    constructor; simpl in *;
    rewrite ?length_app, ?Nat.add_1_r, ?numbers_next;
    try (intros ? [= <-]); try (intros ? [= ->]); try discriminate;
    auto; try lia;
    try (specialize (X _ eq_refl); subst i);
    try (rewrite <- N; reflexivity);
    try (apply wrap64_count);
    try (intros [? | ?]; discriminate);
    try (intros Hf; specialize (K Hf); simpl; lia);
    try (intros Hf; discriminate).
Qed.

Lemma quit_exec_inv tr : forall s s',
  Inv s -> exec s tr = Next s' -> Inv s'.
Proof.
  induction tr as [| a tr IH]; intros s s' I H; simpl in H.
  - inversion H; subst; assumption.
  - destruct (step s a) as [s1 | |] eqn:E; simpl in H; try discriminate.
    eauto using quit_step_inv.
Qed.

Lemma quit_step_no_panic s a : Inv s -> forall m, step s a <> Panic m.
Proof.
  intros [N X C L Q F B K] m H. quit_open; quit_cases s;
    destruct L; auto; discriminate.
Qed.

(** A step other than a timeout never makes the test fail. *)
Lemma quit_step_clean s a s' :
  Inv s -> is_timeout a = false -> step s a = Next s' ->
  failed s' = failed s.
Proof.
  intros [N X C L Q F B K] T H. quit_open; try discriminate; quit_cases s;
    try (assert (false = true) by (apply L; auto); discriminate);
    inversion H; subst; reflexivity.
Qed.

Lemma quit_exec_clean tr : forall s s',
  Inv s ->
  Forall (fun a => is_timeout a = false) tr ->
  exec s tr = Next s' -> failed s' = failed s.
Proof.
  induction tr as [| a tr IH]; intros s s' I T H; simpl in H.
  - inversion H; subst; reflexivity.
  - destruct (step s a) as [s1 | |] eqn:E; simpl in H; try discriminate.
    inversion T; subst.
    rewrite (IH s1 s'); eauto using quit_step_inv, quit_step_clean.
Qed.

Lemma numbers_start n :
  3 <= n -> firstn 3 (numbers n) = [0; 1; 2]%Z.
Proof.
  intros H. destruct n as [| [| [| n]]]; try lia. reflexivity.
Qed.

(** While [quit] is open the generator is at its [select]. *)
Lemma quit_generator_waits s :
  Inv s -> quitClosed s = false ->
  gen s = GSelect (wrap64 (Z.of_nat (length (received s)))).
Proof.
  intros [N X C L Q F B K] H.
  destruct (gen s) as [i | |] eqn:G.
  - rewrite (X i eq_refl). reflexivity.
  - rewrite L in H by auto. discriminate.
  - rewrite L in H by auto. discriminate.
Qed.

(** From a state without failure the test can still pass. *)
Lemma quit_can_pass s :
  Inv s -> failed s = false ->
  exists tr' s',
    Forall (fun a => is_timeout a = false) tr' /\
    exec s tr' = Next s' /\ passes s' /\ gen s' = GGone /\
    chClosed s' = true.
Proof.
  intros [N X C L Q F B K] Hf. unfold passes.
  destruct s as [g t c q n r f]; simpl in *; subst f.
  specialize (K eq_refl).
  destruct t as [k | | |].
  - specialize (F k eq_refl). destruct K as [-> _].
    destruct g as [i | |]; try (rewrite L in Q by auto; discriminate).
    subst c q.
    exists (repeat AHand (3 - k) ++ [ATest; AQuitSeen; AGen; ATest]).
    destruct k as [| [| [| k]]]; try lia; eexists;
      (split; [repeat constructor |]); simpl; auto.
  - destruct K as [-> _].
    destruct g as [i | |]; try (rewrite L in Q by auto; discriminate).
    subst c q. exists [ATest; AQuitSeen; AGen; ATest]. eexists.
    (split; [repeat constructor |]); simpl; auto.
  - destruct K as [-> _]. subst c q.
    destruct g as [i | |];
      [exists [AQuitSeen; AGen; ATest] | exists [AGen; ATest]
      | exists [ATest]]; eexists;
      (split; [repeat constructor |]); simpl; auto.
  - destruct K as [-> _]. subst c q.
    destruct g as [i | |];
      [exists [AQuitSeen; AGen] | exists [AGen] | exists []]; eexists;
      (split; [repeat constructor |]); simpl; auto.
Qed.

End QuitFacts.

(** X28. In TestQuitSignalPattern, on every schedule (timers firing or
    not): the messages received are numbered 0, 1, 2, ... in order with
    no gap and no repeat; at most three are counted; while [quit] is
    open the generator is at its [select] offering the next number; [ch]
    is closed only once the generator is gone; and no step panics. *)
Theorem quit_messages_are_numbered tr s :
  Quit.exec Quit.init tr = Next s ->
  Quit.received s = Quit.numbers (length (Quit.received s)) /\
  Quit.count s <= 3 /\
  (Quit.quitClosed s = false ->
   Quit.gen s
   = Quit.GSelect (wrap64 (Z.of_nat (length (Quit.received s))))) /\
  (Quit.chClosed s = true -> Quit.gen s = Quit.GGone) /\
  (forall a m, Quit.step s a <> Panic m).
Proof.
  intros H.
  assert (I : Quit.Inv s) by (eapply quit_exec_inv; eauto using quit_init_inv).
  split; [apply (Quit.inv_numbers I) |].
  split.
  { pose proof (Quit.inv_count I) as B.
    pose proof (Quit.inv_first I) as F.
    destruct (Quit.test s) as [k | | |]; auto.
    specialize (F k eq_refl). lia. }
  split; [apply quit_generator_waits; assumption |].
  split.
  { intros Hc. pose proof (Quit.inv_ch I) as C. rewrite Hc in C.
    destruct (Quit.gen s); auto; discriminate. }
  intros a m. apply quit_step_no_panic; assumption.
Qed.

Lemma quit_messages_are_numbered_witness :
  exists s,
    Quit.exec Quit.init Quit.late_trace = Next s /\
    Quit.received s = Quit.numbers (length (Quit.received s)) /\
    Quit.count s <= 3 /\
    (Quit.quitClosed s = false ->
     Quit.gen s
     = Quit.GSelect (wrap64 (Z.of_nat (length (Quit.received s))))) /\
    (Quit.chClosed s = true -> Quit.gen s = Quit.GGone) /\
    (forall a m, Quit.step s a <> Panic m).
Proof.
  eexists. split; [vm_compute; reflexivity |].
  apply (@quit_messages_are_numbered Quit.late_trace).
  vm_compute; reflexivity.
Defined.

(** X29. In TestQuitSignalPattern, as long as no timer fires, [t.Error]
    is never called; when the test function reaches [done] it has
    counted exactly three messages and the first three received are
    0, 1, 2; and from every state reached there is a continuation
    without timers on which the generator sees [quit], closes [ch] and
    the test passes. *)
Theorem quit_test_passes_without_timeout tr s :
  Forall (fun a => Quit.is_timeout a = false) tr ->
  Quit.exec Quit.init tr = Next s ->
  Quit.failed s = false /\
  (Quit.test s = Quit.TDone ->
   Quit.count s = 3 /\ firstn 3 (Quit.received s) = [0; 1; 2]%Z) /\
  exists tr' s',
    Forall (fun a => Quit.is_timeout a = false) tr' /\
    Quit.exec s tr' = Next s' /\ Quit.passes s' /\
    Quit.gen s' = Quit.GGone /\ Quit.chClosed s' = true.
Proof.
  intros T H.
  assert (I : Quit.Inv s) by (eapply quit_exec_inv; eauto using quit_init_inv).
  assert (Hf : Quit.failed s = false).
  { rewrite (quit_exec_clean quit_init_inv T H). reflexivity. }
  split; [assumption |]. split.
  - intros D. pose proof (Quit.inv_clean I Hf) as K. rewrite D in K.
    destruct K as [K1 K2]. split; [assumption |].
    rewrite (Quit.inv_numbers I). apply numbers_start. assumption.
  - apply quit_can_pass; assumption.
Qed.

Lemma quit_test_passes_without_timeout_witness :
  exists s,
    Quit.exec Quit.init Quit.late_trace = Next s /\
    Quit.failed s = false /\
    (Quit.test s = Quit.TDone ->
     Quit.count s = 3 /\ firstn 3 (Quit.received s) = [0; 1; 2]%Z) /\
    exists tr' s',
      Forall (fun a => Quit.is_timeout a = false) tr' /\
      Quit.exec s tr' = Next s' /\ Quit.passes s' /\
      Quit.gen s' = Quit.GGone /\ Quit.chClosed s' = true.
Proof.
  eexists. split; [vm_compute; reflexivity |].
  apply (@quit_test_passes_without_timeout Quit.late_trace).
  - repeat constructor.
  - vm_compute; reflexivity.
Defined.
